(** * SCRAM: fault-tree validation, exponential expressions and [ext] helpers

    A shallow embedding of three pieces of the SCRAM sources:

    - [ext::intersects], the range algorithms [none_of], [any_of] and
      [all_of], and the combination generator of [src/ext.h] (module
      [Ext]);
    - the expression classes of [src/expression/exponential.h]
      (module [Expr]), with C++ [double] idealised as the real numbers;
    - [FaultTree::AddGate], [Validate], [CheckCyclicity],
      [GatherPrimaryEvents] and [GetPrimaryEvents] of [fault_tree.cc]
      (module [FT]), over an explicit heap of shared event objects. *)

From Stdlib Require Import List String Ascii Bool Arith ZArith Lia.
From Stdlib Require Import Permutation Sorted.
From Stdlib Require Import Reals Lra.
Import ListNotations.

(* ================================================================== *)
(** * The helpers of [ext.h] *)
(* ================================================================== *)

Module Ext.

(** ** Range algorithms: [none_of], [any_of], [all_of] *)

Section RangeAlgorithms.

Context {T : Type}.

(** [boost::find_if(rng, pred)]: the iterator to the first element that
    satisfies [pred].  As for [intersects] below, an iterator is the
    list of the elements from its position to the end of the range, so
    [boost::end(rng)] is the empty list. *)
Fixpoint find_if (pred : T -> bool) (rng : list T) : list T :=
  match rng with
  | [] => []
  | x :: rng' => if pred x then rng else find_if pred rng'
  end.

(** [std::find_if_not(boost::begin(rng), boost::end(rng), pred)] *)
Fixpoint find_if_not (pred : T -> bool) (rng : list T) : list T :=
  match rng with
  | [] => []
  | x :: rng' => if pred x then find_if_not pred rng' else rng
  end.

(** [boost::end(rng) == it] *)
Definition is_end (it : list T) : bool :=
  match it with
  | [] => true
  | _ :: _ => false
  end.

(** [ext::none_of(rng, pred)] *)
Definition none_of (rng : list T) (pred : T -> bool) : bool :=
  is_end (find_if pred rng).

(** [ext::any_of(rng, pred)] *)
Definition any_of (rng : list T) (pred : T -> bool) : bool :=
  negb (none_of rng pred).

(** [ext::all_of(rng, pred)] *)
Definition all_of (rng : list T) (pred : T -> bool) : bool :=
  is_end (find_if_not pred rng).

End RangeAlgorithms.

(** ** [boost::prev_permutation], which [combination_iterator] steps with *)

Section PrevPermutation.

Context {T : Type}.
Variable ltb : T -> T -> bool.

(** The inner loop, which moves [j] back from [last] until [*j < *i],
    followed by [iter_swap(i, j)]:
    [rsuf] is the range [[ii, last)] read from its end, [x] is [*i].
    The result is [*j] and the range, still read from its end, with
    [x] in the place of [*j].  [None] when no element is less than [x],
    which the caller has excluded. *)
Fixpoint swap_last_less (x : T) (rsuf : list T) : option (T * list T) :=
  match rsuf with
  | [] => None
  | y :: rsuf' =>
      if ltb y x then Some (y, x :: rsuf')
      else match swap_last_less x rsuf' with
           | Some (j, r) => Some (j, y :: r)
           | None => None
           end
  end.

(** The outer loop, which moves [i] from the end towards [first]:
    [rpre] is the range [[first, ii)] read from its end, so its head is
    [*i]; [ii] is [*ii]; [rsuf] is [[ii, last)] read from its end.  At
    the first [*ii < *i] the element [*i] is swapped with the last
    element less than it and [[ii, last)] is reversed: read forwards,
    the reversed range is the swapped [rsuf].  When [i] gets to [first]
    without such a pair the whole range is reversed and the answer is
    [false]. *)
Fixpoint prev_permutation_loop (rpre : list T) (ii : T) (rsuf : list T)
    : bool * list T :=
  match rpre with
  | [] => (false, rsuf)
  | i :: rpre' =>
      if ltb ii i then
        match swap_last_less i rsuf with
        | Some (j, rsuf') => (true, rev rpre' ++ j :: rsuf')
        | None => (true, rev rpre ++ rev rsuf)
        end
      else
        match rpre' with
        | [] => (false, rsuf ++ [i])
        | _ :: _ => prev_permutation_loop rpre' i (rsuf ++ [i])
        end
  end.

(** [std::prev_permutation(first, last)] on the range [l]: whether there
    is a previous permutation, and the range as the call leaves it.
    Ranges of fewer than two elements are left alone. *)
Definition prev_permutation (l : list T) : bool * list T :=
  match rev l with
  | [] => (false, l)
  | [_] => (false, l)
  | last_ :: rpre => prev_permutation_loop rpre last_ [last_]
  end.

End PrevPermutation.

(** ** [ext::combination_iterator] and [make_combination_generator] *)

Section CombinationIterator.

(** The collection that the random access iterators point into; an
    iterator is an offset into it. *)
Context {A : Type}.
Variable coll : list A.

(** The members of the iterator: [first1_] and the bit mask, a
    [std::vector<int>]. *)
Record combination_iterator : Type := mk_combination_iterator {
  first1_ : nat;
  bitmask_ : list Z
}.

(** [std::distance(first1, last1)]: negative when [last1] is before
    [first1]. *)
Definition distance (first1 last1 : nat) : Z :=
  (Z.of_nat last1 - Z.of_nat first1)%Z.

(** [std::fill_n(l.begin(), n, v)] for [n] within the size of [l]. *)
Fixpoint fill_n (l : list Z) (n : nat) (v : Z) : list Z :=
  match n, l with
  | S n', _ :: l' => v :: fill_n l' n' v
  | _, _ => l
  end.

(** [combination_iterator(k, first1, last1)]: a mask of [N] zeros, the
    distance of the range, whose first [k] entries are then set to [1].
    [None] stands for a constructor that does not return: no vector has
    a negative size, and the two [assert]s want [0 < k <= N]. *)
Definition combination_iterator_new (k : Z) (first1 last1 : nat)
    : option combination_iterator :=
  let n := distance first1 last1 in
  if (n <? 0)%Z then None
  else if negb (0 <? k)%Z then None
  else if negb (k <=? n)%Z then None
  else Some (mk_combination_iterator first1
               (fill_n (repeat 0%Z (Z.to_nat n)) (Z.to_nat k) 1%Z)).

(** [combination_iterator(first1)]: the sentinel, with an empty mask. *)
Definition combination_iterator_end (first1 : nat) : combination_iterator :=
  mk_combination_iterator first1 [].

(** [increment()]: the previous permutation of the mask; the mask is
    cleared when there is none. *)
Definition increment (it : combination_iterator) : combination_iterator :=
  let (more, mask) := prev_permutation Z.ltb (bitmask_ it) in
  mk_combination_iterator (first1_ it) (if more then mask else []).

(** [operator==] of [std::vector<int>] *)
Fixpoint vector_eqb (a b : list Z) : bool :=
  match a, b with
  | [], [] => true
  | x :: a', y :: b' => Z.eqb x y && vector_eqb a' b'
  | _, _ => false
  end.

(** [equal(other)] *)
Definition equal (it other : combination_iterator) : bool :=
  Nat.eqb (first1_ it) (first1_ other) &&
  vector_eqb (bitmask_ it) (bitmask_ other).

(** The loop of [dereference()] from index [i] on: the elements
    [*std::next(first1_, i)] whose mask entry is not zero, in the order
    of the indices.  [None] when an index is outside the collection. *)
Fixpoint dereference_loop (first1 i : nat) (mask : list Z) : option (list A) :=
  match mask with
  | [] => Some []
  | b :: mask' =>
      if Z.eqb b 0 then dereference_loop first1 (S i) mask'
      else
        match nth_error coll (first1 + i), dereference_loop first1 (S i) mask' with
        | Some x, Some combination => Some (x :: combination)
        | _, _ => None
        end
  end.

(** [dereference()]: the [assert] fails on the sentinel. *)
Definition dereference (it : combination_iterator) : option (list A) :=
  match bitmask_ it with
  | [] => None
  | _ :: _ => dereference_loop (first1_ it) 0 (bitmask_ it)
  end.

(** [make_combination_generator(k, first1, last1)]: the iterator range
    from the first combination to the sentinel. *)
Definition make_combination_generator (k : Z) (first1 last1 : nat)
    : option (combination_iterator * combination_iterator) :=
  match combination_iterator_new k first1 last1 with
  | Some it => Some (it, combination_iterator_end first1)
  | None => None
  end.

(** What a loop over an iterator range visits: while [it] is not
    [last], the value [*it], then [++it].  [fuel] bounds the number of
    values; [None] when it does not suffice or a dereference fails. *)
Fixpoint range_values (fuel : nat) (it last : combination_iterator)
    : option (list (list A)) :=
  if equal it last then Some []
  else
    match fuel with
    | O => None
    | S fuel' =>
        match dereference it, range_values fuel' (increment it) last with
        | Some c, Some cs => Some (c :: cs)
        | _, _ => None
        end
    end.

(** The values of [make_combination_generator(k, first1, last1)]. *)
Definition generated (k : Z) (first1 last1 : nat) (fuel : nat)
    : option (list (list A)) :=
  match make_combination_generator k first1 last1 with
  | Some (it, last) => range_values fuel it last
  | None => None
  end.

(** The elements of the range [[first1, last1)]. *)
Definition range (first1 last1 : nat) : list A :=
  firstn (last1 - first1) (skipn first1 coll).

End CombinationIterator.

(** ** The vocabulary of the statements about combinations *)

Section Combinations.

Context {A : Type}.

(** The [k]-element combinations of [l]: those with the head of [l]
    first, then those without it. *)
Fixpoint combinations (k : nat) (l : list A) : list (list A) :=
  match l with
  | [] => match k with O => [[]] | S _ => [] end
  | x :: l' =>
      match k with
      | O => [[]]
      | S k' => map (cons x) (combinations k' l') ++ combinations k l'
      end
  end.

(** The elements of [src] that a mask selects. *)
Fixpoint select (mask : list Z) (src : list A) : list A :=
  match mask, src with
  | b :: mask', x :: src' =>
      if Z.eqb b 0 then select mask' src' else x :: select mask' src'
  | _, _ => []
  end.

(** [c] is [l] with some elements left out: the order is that of [l]. *)
Inductive subsequence : list A -> list A -> Prop :=
| subsequence_nil : subsequence [] []
| subsequence_skip (x : A) (c l : list A) : subsequence c l -> subsequence c (x :: l)
| subsequence_take (x : A) (c l : list A) :
    subsequence c l -> subsequence (x :: c) (x :: l).

End Combinations.

(** The masks of length [n] with [k] ones, from the lexicographically
    greatest down. *)
Fixpoint masks (k n : nat) : list (list Z) :=
  match n with
  | O => match k with O => [[]] | S _ => [] end
  | S n' =>
      match k with
      | O => []
      | S k' => map (cons 1%Z) (masks k' n')
      end ++ map (cons 0%Z) (masks k n')
  end.

(** Each mask of the list is the previous permutation of the one before
    it. *)
Fixpoint steps_through (ms : list (list Z)) : Prop :=
  match ms with
  | m :: rest =>
      match rest with
      | m' :: _ => prev_permutation Z.ltb m = (true, m') /\ steps_through rest
      | [] => True
      end
  | [] => True
  end.

(** The number of [k]-element combinations of [n] elements. *)
Fixpoint binomial (n k : nat) : nat :=
  match n, k with
  | _, O => 1
  | O, S _ => 0
  | S n', S k' => binomial n' k' + binomial n' k
  end.

(** Read backwards from [ii] through [rpre], no element is greater than
    the one after it in the range; the walk ends at [z]. *)
Fixpoint ascending_to {T : Type} (ltb : T -> T -> bool) (ii : T)
    (rpre : list T) (z : T) : Prop :=
  match rpre with
  | [] => z = ii
  | i :: rpre' => ltb ii i = false /\ ascending_to ltb i rpre' z
  end.

(** ** [ext::intersects] *)

Section Intersects.

(** The element type of both ranges and its [operator<]. *)
Context {T : Type}.
Variable ltb : T -> T -> bool.

(** [ext::intersects(first1, last1, first2, last2)]: a range
    [[first, last)] of forward iterators is the list of the elements it
    still has to visit; [++first1] drops the head of the first list,
    [++first2] the head of the second.  The loop ends as soon as one of
    the two ranges is exhausted. *)
Fixpoint intersects (r1 : list T) : list T -> bool :=
  fix scan (r2 : list T) : bool :=
    match r1, r2 with
    | x1 :: r1', x2 :: r2' =>
        if ltb x1 x2 then intersects r1' r2
        else if ltb x2 x1 then scan r2'
        else true
    | _, _ => false
    end.

(** A range is sorted in the sense of [std::is_sorted]: no element is
    less than its predecessor. *)
Definition sorted (r : list T) : Prop :=
  Sorted (fun a b => ltb b a = false) r.

(** Boolean version of [sorted], to run on concrete ranges. *)
Fixpoint sortedb (r : list T) : bool :=
  match r with
  | [] => true
  | a :: r' =>
      match r' with
      | [] => true
      | b :: _ => negb (ltb b a) && sortedb r'
      end
  end.

(** [operator<] is a strict total order on [T]. *)
Hypothesis ltb_irrefl : forall a, ltb a a = false.
Hypothesis ltb_trans :
  forall a b c, ltb a b = true -> ltb b c = true -> ltb a c = true.
Hypothesis ltb_total :
  forall a b, ltb a b = false -> ltb b a = false -> a = b.

Lemma intersects_nil_r (r1 : list T) : intersects r1 [] = false.
Proof. destruct r1; reflexivity. Qed.

Lemma intersects_cons (x1 x2 : T) (r1 r2 : list T) :
  intersects (x1 :: r1) (x2 :: r2) =
  if ltb x1 x2 then intersects r1 (x2 :: r2)
  else if ltb x2 x1 then intersects (x1 :: r1) r2
  else true.
Proof. reflexivity. Qed.

Lemma sortedb_sorted (r : list T) : sortedb r = true -> sorted r.
Proof.
  induction r as [|a r IH]; intros H.
  - constructor.
  - destruct r as [|b r].
    + repeat constructor.
    + cbn [sortedb] in H. apply andb_true_iff in H as [Hab Hr].
      constructor; [now apply IH|].
      constructor. now apply negb_true_iff.
Qed.

(** In a sorted range nothing after the head is less than the head. *)
Lemma sorted_head_least (a : T) (r : list T) :
  sorted (a :: r) -> forall x, In x r -> ltb x a = false.
Proof.
  revert a. induction r as [|b r IH]; intros a Hs x Hx; [easy|].
  inversion Hs as [|? ? Hr Hhd]; subst.
  inversion Hhd as [|? ? Hba]; subst.
  destruct Hx as [->|Hx]; [exact Hba|].
  specialize (IH b Hr x Hx).
  destruct (ltb x a) eqn:Hxa; [|reflexivity].
  destruct (ltb a b) eqn:Hab.
  - now rewrite (ltb_trans _ _ _ Hxa Hab) in IH.
  - rewrite (ltb_total a b Hab Hba) in Hxa. congruence.
Qed.

Lemma sorted_tail (a : T) (r : list T) : sorted (a :: r) -> sorted r.
Proof. intros Hs. now inversion Hs. Qed.

(** The answer [true] is only given at a pair of equal elements: this
    half needs no sortedness. *)
Lemma intersects_true_common (r1 r2 : list T) :
  intersects r1 r2 = true -> exists x, In x r1 /\ In x r2.
Proof.
  revert r2. induction r1 as [|x1 r1 IH1]; intros r2; [now destruct r2|].
  induction r2 as [|x2 r2 IH2]; [discriminate|].
  rewrite intersects_cons.
  destruct (ltb x1 x2) eqn:H12.
  - intros H. destruct (IH1 _ H) as (x & Hx1 & Hx2).
    exists x. split; [now right|exact Hx2].
  - destruct (ltb x2 x1) eqn:H21.
    + intros H. destruct (IH2 H) as (x & Hx1 & Hx2).
      exists x. split; [exact Hx1|now right].
    + intros _. exists x1. split; [now left|].
      left. symmetry. now apply ltb_total.
Qed.

(** On sorted ranges a common element is never skipped. *)
Lemma common_intersects (r1 r2 : list T) (x : T) :
  sorted r1 -> sorted r2 -> In x r1 -> In x r2 -> intersects r1 r2 = true.
Proof.
  revert r2. induction r1 as [|x1 r1 IH1]; intros r2 Hs1; [easy|].
  induction r2 as [|x2 r2 IH2]; intros Hs2 Hx1 Hx2; [easy|].
  rewrite intersects_cons.
  destruct (ltb x1 x2) eqn:H12.
  - apply IH1; [now apply sorted_tail in Hs1|exact Hs2| |exact Hx2].
    destruct Hx1 as [<-|Hx1]; [|exact Hx1].
    destruct Hx2 as [->|Hx2]; [now rewrite ltb_irrefl in H12|].
    now rewrite (sorted_head_least _ _ Hs2 _ Hx2) in H12.
  - destruct (ltb x2 x1) eqn:H21; [|reflexivity].
    apply IH2; [now apply sorted_tail in Hs2|exact Hx1|].
    destruct Hx2 as [<-|Hx2]; [|exact Hx2].
    destruct Hx1 as [->|Hx1]; [now rewrite ltb_irrefl in H21|].
    now rewrite (sorted_head_least _ _ Hs1 _ Hx1) in H21.
Qed.

(** C10: for sorted ranges [r1] and [r2] over a strictly and totally
    ordered element type, [ext::intersects] answers [true] exactly when
    some element occurs in both ranges. *)
Theorem intersects_sorted_iff (r1 r2 : list T) :
  sorted r1 -> sorted r2 ->
  (intersects r1 r2 = true <-> exists x, In x r1 /\ In x r2).
Proof.
  intros Hs1 Hs2. split.
  - apply intersects_true_common.
  - intros (x & Hx1 & Hx2). now apply (common_intersects r1 r2 x).
Qed.

End Intersects.

(** Sortedness is a real precondition: on the unsorted range [2; 1]
    the scan stops before it reaches the common element [1]. *)
Example intersects_unsorted_misses :
  intersects Nat.ltb [2; 1] [1] = false /\ In 1 [2; 1] /\ In 1 [1].
Proof. cbn. auto. Qed.

Lemma nat_ltb_irrefl (a : nat) : Nat.ltb a a = false.
Proof. apply Nat.ltb_irrefl. Qed.

Lemma nat_ltb_trans (a b c : nat) :
  Nat.ltb a b = true -> Nat.ltb b c = true -> Nat.ltb a c = true.
Proof. rewrite !Nat.ltb_lt. lia. Qed.

Lemma nat_ltb_total (a b : nat) :
  Nat.ltb a b = false -> Nat.ltb b a = false -> a = b.
Proof. rewrite !Nat.ltb_ge. lia. Qed.

(** The theorem at the sorted ranges [1; 3; 5; 7] and [2; 4; 5; 8]. *)
Lemma intersects_sorted_iff_witness :
  intersects Nat.ltb [1; 3; 5; 7] [2; 4; 5; 8] = true <->
  exists x, In x [1; 3; 5; 7] /\ In x [2; 4; 5; 8].
Proof.
  apply (intersects_sorted_iff Nat.ltb nat_ltb_irrefl nat_ltb_trans
           nat_ltb_total [1; 3; 5; 7] [2; 4; 5; 8]).
  - apply sortedb_sorted. reflexivity.
  - apply sortedb_sorted. reflexivity.
Defined.

(** ** [none_of], [any_of] and [all_of] *)

Section RangeAlgorithmsFacts.

Context {T : Type}.

Lemma none_of_forall (rng : list T) (pred : T -> bool) :
  none_of rng pred = true <-> forall x, In x rng -> pred x = false.
Proof.
  unfold none_of. induction rng as [|a rng IH]; cbn [find_if].
  - split; [intros _ x []|reflexivity].
  - destruct (pred a) eqn:E.
    + split; [discriminate|].
      intros H. rewrite (H a (or_introl eq_refl)) in E. discriminate.
    + rewrite IH. split.
      * intros H x [<-|Hx]; [exact E|now apply H].
      * intros H x Hx. apply H. now right.
Qed.

Lemma find_if_not_negb (rng : list T) (pred : T -> bool) :
  find_if_not pred rng = find_if (fun x => negb (pred x)) rng.
Proof.
  induction rng as [|a rng IH]; cbn; [reflexivity|].
  destruct (pred a); cbn; [exact IH|reflexivity].
Qed.

(** X1: [any_of] answers [true] exactly when some element of the range
    satisfies the predicate, and [none_of] exactly when no element
    does. *)
Theorem any_of_none_of_spec (rng : list T) (pred : T -> bool) :
  (any_of rng pred = true <-> exists x, In x rng /\ pred x = true) /\
  (none_of rng pred = true <-> forall x, In x rng -> pred x = false).
Proof.
  split; [|apply none_of_forall].
  unfold any_of. rewrite negb_true_iff. split.
  - intros H. induction rng as [|a rng IH]; [discriminate|].
    unfold none_of in *. cbn [find_if] in H.
    destruct (pred a) eqn:E.
    + exists a. split; [now left|exact E].
    + destruct (IH H) as (x & Hx & Hp). exists x. split; [now right|exact Hp].
  - intros (x & Hx & Hp). destruct (none_of rng pred) eqn:E; [|reflexivity].
    rewrite (proj1 (none_of_forall rng pred) E x Hx) in Hp. discriminate.
Qed.

(** X2: [all_of] answers [true] exactly when every element of the range
    satisfies the predicate. *)
Theorem all_of_spec (rng : list T) (pred : T -> bool) :
  all_of rng pred = true <-> forall x, In x rng -> pred x = true.
Proof.
  unfold all_of. rewrite find_if_not_negb.
  change (none_of rng (fun x => negb (pred x)) = true <->
          forall x, In x rng -> pred x = true).
  rewrite none_of_forall. split; intros H x Hx; specialize (H x Hx).
  - now apply negb_false_iff.
  - now apply negb_false_iff.
Qed.

(** X3: [all_of] and [any_of] are dual under negation of the predicate;
    on the empty range [all_of] is [true] and [any_of] is [false]. *)
Theorem all_of_any_of_dual (rng : list T) (pred : T -> bool) :
  all_of rng pred = negb (any_of rng (fun x => negb (pred x))) /\
  any_of rng pred = negb (all_of rng (fun x => negb (pred x))) /\
  all_of (@nil T) pred = true /\ any_of (@nil T) pred = false.
Proof.
  split; [|split; [|split; reflexivity]].
  - unfold any_of, all_of, none_of. now rewrite negb_involutive, find_if_not_negb.
  - unfold any_of, all_of, none_of. rewrite find_if_not_negb. do 2 f_equal.
    induction rng as [|a rng IH]; cbn; [reflexivity|].
    rewrite negb_involutive. destruct (pred a); [reflexivity|exact IH].
Qed.

End RangeAlgorithmsFacts.

(** ** [prev_permutation] *)

Section PrevPermutationFacts.

Context {T : Type}.
Variable ltb : T -> T -> bool.

Lemma loop_ascending (rpre : list T) :
  forall (ii : T) (rsuf : list T) (z : T),
  rpre <> [] -> ascending_to ltb ii rpre z ->
  prev_permutation_loop ltb rpre ii rsuf = (false, rsuf ++ rpre).
Proof.
  induction rpre as [|i rpre IH]; intros ii rsuf z Hne Ha; [congruence|].
  destruct Ha as [H1 H2]. cbn [prev_permutation_loop]. rewrite H1.
  destruct rpre as [|i' rpre']; [reflexivity|].
  rewrite (IH i (rsuf ++ [i]) z); [|discriminate|exact H2].
  now rewrite <- app_assoc.
Qed.

Lemma loop_descent (rpre0 : list T) :
  forall (ii : T) (rsuf : list T) (z x : T) (rest : list T) (j : T) (r' : list T),
  ascending_to ltb ii rpre0 z -> ltb z x = true ->
  swap_last_less ltb x (rsuf ++ rpre0) = Some (j, r') ->
  prev_permutation_loop ltb (rpre0 ++ x :: rest) ii rsuf =
  (true, rev rest ++ j :: r').
Proof.
  induction rpre0 as [|i rpre0 IH]; intros ii rsuf z x rest j r' Ha Hz Hs.
  - cbn in Ha. subst z. rewrite app_nil_r in Hs.
    cbn [app prev_permutation_loop]. now rewrite Hz, Hs.
  - destruct Ha as [H1 H2]. cbn [app prev_permutation_loop]. rewrite H1.
    destruct (rpre0 ++ x :: rest) as [|y ys] eqn:E.
    + destruct rpre0; discriminate.
    + rewrite <- E. apply (IH i (rsuf ++ [i]) z); [exact H2|exact Hz|].
      now rewrite <- app_assoc.
Qed.

(** The step of [prev_permutation] at the last descent: [suf] is the
    longest ascending suffix and [x], the element before it, is greater
    than its head. *)
Lemma prev_permutation_descent (pre suf : list T) (x last_ z j : T)
    (rpre0 r' : list T) :
  rev suf = last_ :: rpre0 -> ascending_to ltb last_ rpre0 z -> ltb z x = true ->
  swap_last_less ltb x (rev suf) = Some (j, r') ->
  prev_permutation ltb (pre ++ x :: suf) = (true, pre ++ j :: r').
Proof.
  intros Hrev Ha Hz Hs. unfold prev_permutation.
  rewrite rev_app_distr. cbn [rev]. rewrite Hrev. cbn [app].
  rewrite <- !app_assoc. cbn [app].
  destruct (rpre0 ++ x :: rev pre) as [|y ys] eqn:E.
  - destruct rpre0; discriminate.
  - rewrite <- E. rewrite Hrev in Hs.
    rewrite (loop_descent rpre0 last_ [last_] z x (rev pre) j r' Ha Hz Hs).
    now rewrite rev_involutive.
Qed.

(** A range with no descent has no previous permutation. *)
Lemma prev_permutation_ascending (l : list T) (last_ z : T) (rpre : list T) :
  rev l = last_ :: rpre -> ascending_to ltb last_ rpre z ->
  fst (prev_permutation ltb l) = false.
Proof.
  intros Hrev Ha. unfold prev_permutation. rewrite Hrev.
  destruct rpre as [|i rpre]; [reflexivity|].
  now rewrite (loop_ascending (i :: rpre) last_ [last_] z).
Qed.

(** The swap moves elements and loses none. *)
Lemma swap_last_less_Permutation (x : T) (rsuf : list T) (j : T) (r' : list T) :
  swap_last_less ltb x rsuf = Some (j, r') ->
  Permutation (x :: rsuf) (j :: r').
Proof.
  revert j r'. induction rsuf as [|y rsuf IH]; intros j r' H; [discriminate|].
  cbn [swap_last_less] in H. destruct (ltb y x).
  - inversion H; subst. apply perm_swap.
  - destruct (swap_last_less ltb x rsuf) as [[j0 r0]|]; [|discriminate].
    inversion H; subst.
    transitivity (y :: x :: rsuf); [apply perm_swap|].
    transitivity (y :: j :: r0); [apply perm_skip, IH; reflexivity|apply perm_swap].
Qed.

Lemma loop_Permutation (rpre : list T) :
  forall (ii : T) (rsuf : list T),
  Permutation (rev rpre ++ rev rsuf)
    (snd (prev_permutation_loop ltb rpre ii rsuf)).
Proof.
  induction rpre as [|i rpre IH]; intros ii rsuf.
  - cbn. symmetry. apply Permutation_rev.
  - cbn [prev_permutation_loop]. destruct (ltb ii i).
    + destruct (swap_last_less ltb i rsuf) as [[j r']|] eqn:Hs; cbn [snd].
      * cbn [rev]. rewrite <- app_assoc. apply Permutation_app_head. cbn [app].
        transitivity (i :: rsuf).
        -- apply perm_skip. symmetry. apply Permutation_rev.
        -- now apply swap_last_less_Permutation.
      * reflexivity.
    + destruct rpre as [|i' rpre'].
      * cbn [snd rev app]. transitivity (i :: rsuf).
        -- apply perm_skip. symmetry. apply Permutation_rev.
        -- apply Permutation_cons_append.
      * specialize (IH i (rsuf ++ [i])). rewrite rev_app_distr in IH.
        cbn [rev app] in IH. cbn [rev]. rewrite <- !app_assoc in *.
        exact IH.
Qed.

(** Whatever it answers, [prev_permutation] leaves a permutation of the
    range. *)
Lemma prev_permutation_Permutation (l : list T) :
  Permutation l (snd (prev_permutation ltb l)).
Proof.
  unfold prev_permutation. destruct (rev l) as [|last_ rpre] eqn:E; [reflexivity|].
  destruct rpre as [|i rpre]; [reflexivity|].
  pose proof (loop_Permutation (i :: rpre) last_ [last_]) as H.
  rewrite <- H. cbn [rev app]. rewrite <- (rev_involutive l), E. cbn [rev].
  rewrite <- !app_assoc. reflexivity.
Qed.

End PrevPermutationFacts.

(** ** The masks that [increment] goes through *)

Lemma ascending_to_app {T : Type} (ltb : T -> T -> bool) (l1 l2 : list T)
    (ii m z : T) :
  ascending_to ltb ii l1 m -> ascending_to ltb m l2 z ->
  ascending_to ltb ii (l1 ++ l2) z.
Proof.
  revert ii. induction l1 as [|i l1 IH]; intros ii H1 H2.
  - cbn in H1. now subst m.
  - destruct H1 as [Ha Hb]. split; [exact Ha|now apply IH].
Qed.

Lemma ascending_to_repeat {T : Type} (ltb : T -> T -> bool) (v : T) (n : nat) :
  ltb v v = false -> ascending_to ltb v (repeat v n) v.
Proof. intros H. induction n as [|n IH]; [reflexivity|now split]. Qed.

Lemma ascending_ones_zeros (b a : nat) :
  exists z, ascending_to Z.ltb 1%Z (repeat 1%Z b ++ repeat 0%Z a) z /\
            (1 <= a -> z = 0%Z).
Proof.
  destruct a as [|a].
  - exists 1%Z. split; [|lia]. rewrite app_nil_r. now apply ascending_to_repeat.
  - exists 0%Z. split; [|reflexivity].
    apply ascending_to_app with (m := 1%Z); [now apply ascending_to_repeat|].
    split; [reflexivity|now apply ascending_to_repeat].
Qed.

Lemma swap_last_less_bits (b a : nat) :
  swap_last_less Z.ltb 1%Z (repeat 1%Z b ++ repeat 0%Z (S a)) =
  Some (0%Z, repeat 1%Z (S b) ++ repeat 0%Z a).
Proof.
  induction b as [|b IH]; [reflexivity|].
  cbn [repeat app swap_last_less]. change (Z.ltb 1 1) with false. cbn iota.
  cbn [repeat app] in IH. now rewrite IH.
Qed.

Lemma prev_permutation_bits_step (pre : list Z) (a b : nat) :
  prev_permutation Z.ltb (pre ++ 1%Z :: repeat 0%Z (S a) ++ repeat 1%Z b) =
  (true, pre ++ 0%Z :: repeat 1%Z (S b) ++ repeat 0%Z a).
Proof.
  assert (Hrev : rev (repeat 0%Z (S a) ++ repeat 1%Z b) =
                 repeat 1%Z b ++ repeat 0%Z (S a))
    by now rewrite rev_app_distr, !rev_repeat.
  destruct b as [|b].
  - apply (prev_permutation_descent Z.ltb pre _ 1%Z 0%Z 0%Z 0%Z (repeat 0%Z a)).
    + exact Hrev.
    + now apply ascending_to_repeat.
    + reflexivity.
    + rewrite Hrev. apply (swap_last_less_bits 0 a).
  - destruct (ascending_ones_zeros b (S a)) as (z & Hz & Hz0).
    rewrite Hz0 in Hz by lia.
    apply (prev_permutation_descent Z.ltb pre _ 1%Z 1%Z 0%Z 0%Z
             (repeat 1%Z b ++ repeat 0%Z (S a))).
    + exact Hrev.
    + exact Hz.
    + reflexivity.
    + rewrite Hrev. apply (swap_last_less_bits (S b) a).
Qed.

Lemma prev_permutation_bits_last (a b : nat) :
  fst (prev_permutation Z.ltb (repeat 0%Z a ++ repeat 1%Z b)) = false.
Proof.
  assert (Hrev : rev (repeat 0%Z a ++ repeat 1%Z b) =
                 repeat 1%Z b ++ repeat 0%Z a)
    by now rewrite rev_app_distr, !rev_repeat.
  destruct b as [|b].
  - destruct a as [|a]; [reflexivity|].
    apply (prev_permutation_ascending Z.ltb _ 0%Z 0%Z (repeat 0%Z a)).
    + exact Hrev.
    + now apply ascending_to_repeat.
  - destruct (ascending_ones_zeros b a) as (z & Hz & _).
    apply (prev_permutation_ascending Z.ltb _ 1%Z z (repeat 1%Z b ++ repeat 0%Z a)).
    + exact Hrev.
    + exact Hz.
Qed.

Lemma masks_length (n : nat) :
  forall (k : nat) (m : list Z), In m (masks k n) -> List.length m = n.
Proof.
  induction n as [|n IH]; intros k m H.
  - destruct k; [|destruct H]. destruct H as [<-|[]]. reflexivity.
  - cbn [masks] in H. apply in_app_iff in H as [H|H].
    + destruct k as [|k]; [destruct H|].
      apply in_map_iff in H as (m' & <- & H). cbn. f_equal. now apply (IH k).
    + apply in_map_iff in H as (m' & <- & H). cbn. f_equal. now apply (IH k).
Qed.

Lemma masks_gt (n : nat) : forall k, n < k -> masks k n = [].
Proof.
  induction n as [|n IH]; intros k H.
  - destruct k; [lia|reflexivity].
  - destruct k as [|k]; [lia|]. cbn [masks].
    now rewrite (IH k), (IH (S k)) by lia.
Qed.

Lemma masks_first (n : nat) :
  forall k, k <= n ->
  exists rest, masks k n = (repeat 1%Z k ++ repeat 0%Z (n - k)) :: rest.
Proof.
  induction n as [|n IH]; intros k H.
  - assert (k = 0) by lia. subst k. now exists [].
  - destruct k as [|k]; cbn [masks].
    + destruct (IH 0) as (rest & Hr); [lia|]. rewrite Hr.
      exists (map (cons 0%Z) rest). cbn. now rewrite Nat.sub_0_r.
    + destruct (IH k) as (rest & Hr); [lia|]. rewrite Hr.
      eexists. cbn [map app repeat Nat.sub]. reflexivity.
Qed.

Lemma masks_last (n : nat) :
  forall k, k <= n ->
  exists init, masks k n = init ++ [repeat 0%Z (n - k) ++ repeat 1%Z k].
Proof.
  induction n as [|n IH]; intros k H.
  - assert (k = 0) by lia. subst k. now exists [].
  - cbn [masks]. destruct (Nat.eq_dec k (S n)) as [->|Hk].
    + rewrite (masks_gt n (S n)) by lia. cbn [map]. rewrite app_nil_r.
      destruct (IH n) as (init & Hi); [lia|]. rewrite Hi, map_app.
      exists (map (cons 1%Z) init). cbn [map]. rewrite !Nat.sub_diag. reflexivity.
    + destruct (IH k) as (init & Hi); [lia|]. rewrite Hi, map_app, app_assoc.
      eexists. cbn [map]. f_equal. f_equal.
      replace (S n - k) with (S (n - k)) by lia. reflexivity.
Qed.

Lemma masks_count (n : nat) : forall k, List.length (masks k n) = binomial n k.
Proof.
  induction n as [|n IH]; intros k.
  - now destruct k.
  - cbn [masks]. rewrite length_app, length_map. destruct k as [|k].
    + cbn. rewrite IH. now destruct n.
    + rewrite length_map, !IH. reflexivity.
Qed.

Lemma steps_through_app (X Y : list (list Z)) :
  steps_through X -> steps_through Y ->
  (forall X' x y Y', X = X' ++ [x] -> Y = y :: Y' ->
     prev_permutation Z.ltb x = (true, y)) ->
  steps_through (X ++ Y).
Proof.
  intros HX HY HJ. induction X as [|m X IH]; [exact HY|].
  destruct X as [|m' X'].
  - cbn [app]. destruct Y as [|y Y']; [exact I|]. split; [|exact HY].
    now apply (HJ [] m y Y').
  - destruct HX as [H1 H2]. cbn [app]. split; [exact H1|].
    apply IH; [exact H2|]. intros X0 x y Y' E1 E2.
    apply (HJ (m :: X0) x y Y'); [|exact E2]. cbn. now rewrite E1.
Qed.

Lemma map_cons_app (pre : list Z) (b : Z) (X : list (list Z)) :
  map (app pre) (map (cons b) X) = map (app (pre ++ [b])) X.
Proof.
  rewrite map_map. apply map_ext. intros m. now rewrite <- app_assoc.
Qed.

(** [prev_permutation] takes each mask of [masks k n] to the next one,
    also behind a common prefix. *)
Lemma masks_steps (n : nat) :
  forall (k : nat) (pre : list Z), steps_through (map (app pre) (masks k n)).
Proof.
  induction n as [|n IH]; intros k pre.
  - destruct k; exact I.
  - cbn [masks]. rewrite map_app, (map_cons_app pre 0%Z).
    apply steps_through_app.
    + destruct k as [|k]; [exact I|]. rewrite map_cons_app. apply IH.
    + apply IH.
    + intros X' x y Y' EX EY. destruct k as [|k].
      { destruct X'; discriminate. }
      rewrite map_cons_app in EX.
      assert (Hk : S k <= n).
      { destruct (Nat.le_gt_cases (S k) n) as [Hle|Hgt]; [exact Hle|].
        rewrite (masks_gt n (S k)) in EY by lia. discriminate. }
      destruct (masks_last n k) as (init & Hi); [lia|].
      destruct (masks_first n (S k) Hk) as (rest & Hr).
      rewrite Hi, map_app in EX. cbn [map] in EX.
      apply app_inj_tail in EX as [_ <-].
      rewrite Hr in EY. cbn [map] in EY. inversion EY; subst y Y'.
      rewrite <- !app_assoc. cbn [app].
      replace (n - k) with (S (n - S k)) by lia.
      apply prev_permutation_bits_step.
Qed.

Lemma fill_n_ones (k n : nat) :
  k <= n -> fill_n (repeat 0%Z n) k 1%Z = repeat 1%Z k ++ repeat 0%Z (n - k).
Proof.
  revert n. induction k as [|k IH]; intros n H.
  - cbn. rewrite Nat.sub_0_r. now destruct n.
  - destruct n as [|n]; [lia|]. cbn [repeat fill_n app Nat.sub]. f_equal.
    apply IH. lia.
Qed.

(** ** Combinations and subsequences *)

Section CombinationsFacts.

Context {A : Type}.

Lemma combinations_0 (l : list A) : combinations 0 l = [[]].
Proof. now destruct l. Qed.

(** What the masks select from a source of at least [n] elements are
    the combinations of its first [n] elements, in the same order. *)
Lemma select_masks (n : nat) :
  forall (k : nat) (src : list A), n <= List.length src ->
  map (fun m => select m src) (masks k n) = combinations k (firstn n src).
Proof.
  induction n as [|n IH]; intros k src H.
  - cbn [firstn]. now destruct k.
  - destruct src as [|x src]; [cbn in H; lia|]. cbn in H.
    cbn [masks firstn]. rewrite map_app, map_map. destruct k as [|k].
    + cbn [app combinations map].
      rewrite <- (combinations_0 (firstn n src)), <- (IH 0 src) by lia.
      reflexivity.
    + rewrite map_map. cbn [combinations]. f_equal.
      * rewrite <- (IH k src) by lia. rewrite map_map. reflexivity.
      * rewrite <- (IH (S k) src) by lia. reflexivity.
Qed.

Lemma subsequence_nil_l (l : list A) : subsequence [] l.
Proof. induction l; constructor; assumption. Qed.

Lemma subsequence_In (c l : list A) (y : A) :
  subsequence c l -> In y c -> In y l.
Proof.
  induction 1 as [|x c l _ IH|x c l _ IH]; intros Hy.
  - exact Hy.
  - right. now apply IH.
  - destruct Hy as [->|Hy]; [now left|right; now apply IH].
Qed.

Lemma combinations_In (l : list A) :
  forall (k : nat) (c : list A),
  In c (combinations k l) <-> subsequence c l /\ List.length c = k.
Proof.
  induction l as [|x l IH]; intros k c.
  - destruct k; cbn.
    + split.
      * intros [<-|[]]. split; [constructor|reflexivity].
      * intros [Hs Hl]. destruct c; [now left|discriminate].
    + split; [intros []|]. intros [Hs Hl]. inversion Hs; subst. discriminate.
  - destruct k as [|k]; cbn [combinations].
    + split.
      * intros [<-|[]]. split; [apply subsequence_nil_l|reflexivity].
      * intros [_ Hl]. destruct c; [now left|discriminate].
    + rewrite in_app_iff, in_map_iff. split.
      * intros [(c' & <- & Hc)|Hc].
        -- apply IH in Hc as [Hs Hl]. split; [now constructor|cbn; now rewrite Hl].
        -- apply IH in Hc as [Hs Hl]. split; [now constructor|exact Hl].
      * intros [Hs Hl]. inversion Hs as [|y c0 l0 Hs'|y c0 l0 Hs']; subst.
        -- right. apply IH. now split.
        -- left. exists c0. split; [reflexivity|]. apply IH. split; [exact Hs'|].
           cbn in Hl. lia.
Qed.

Lemma combinations_count (l : list A) :
  forall k, List.length (combinations k l) = binomial (List.length l) k.
Proof.
  induction l as [|x l IH]; intros k.
  - now destruct k.
  - destruct k as [|k]; [reflexivity|].
    cbn [combinations List.length binomial].
    now rewrite length_app, length_map, !IH.
Qed.

Lemma combinations_NoDup (l : list A) :
  NoDup l -> forall k, NoDup (combinations k l).
Proof.
  induction l as [|x l IH]; intros Hnd k.
  - destruct k; repeat constructor. intros [].
  - inversion Hnd as [|? ? Hx Hl]; subst.
    destruct k as [|k]; cbn [combinations].
    + repeat constructor. intros [].
    + apply NoDup_app.
      * specialize (IH Hl k). revert IH.
        generalize (combinations k l). intros cs Hcs.
        induction Hcs as [|c cs Hc _ IHcs]; [constructor|].
        cbn [map]. constructor; [|exact IHcs].
        intros Hin. apply in_map_iff in Hin as (c' & Heq & Hc').
        inversion Heq; subst. contradiction.
      * now apply IH.
      * intros c Hc1 Hc2. apply in_map_iff in Hc1 as (c' & <- & _).
        apply combinations_In in Hc2 as [Hs _].
        apply Hx. apply (subsequence_In _ _ x Hs). now left.
Qed.

End CombinationsFacts.

(** ** The combination generator *)

Section CombinationIteratorFacts.

Context {A : Type}.
Variable coll : list A.

Lemma skipn_cons_nth (l : list A) :
  forall (n : nat) (x : A), nth_error l n = Some x -> skipn n l = x :: skipn (S n) l.
Proof.
  induction l as [|y l IH]; intros n x H.
  - destruct n; discriminate.
  - destruct n as [|n]; [now inversion H|]. cbn in H. now apply IH.
Qed.

Lemma dereference_loop_select (first1 : nat) (mask : list Z) :
  forall i, first1 + i + List.length mask <= List.length coll ->
  dereference_loop coll first1 i mask =
  Some (select mask (skipn (first1 + i) coll)).
Proof.
  induction mask as [|b mask IH]; intros i H; [reflexivity|].
  cbn [List.length] in H.
  destruct (nth_error coll (first1 + i)) as [x|] eqn:Ex.
  2:{ apply nth_error_None in Ex. lia. }
  rewrite (skipn_cons_nth _ _ _ Ex). cbn [dereference_loop select].
  rewrite Ex, (IH (S i)) by lia. rewrite Nat.add_succ_r.
  now destruct (Z.eqb b 0).
Qed.

Lemma equal_end (first1 : nat) (mask : list Z) :
  equal (mk_combination_iterator first1 mask) (combination_iterator_end first1) =
  match mask with
  | [] => true
  | _ :: _ => false
  end.
Proof.
  unfold equal, combination_iterator_end. cbn [first1_ bitmask_].
  rewrite Nat.eqb_refl. now destruct mask.
Qed.

Lemma range_values_S (fuel : nat) (first1 : nat) (b : Z) (m : list Z) :
  range_values coll (S fuel) (mk_combination_iterator first1 (b :: m))
    (combination_iterator_end first1) =
  match dereference_loop coll first1 0 (b :: m),
        range_values coll fuel (increment (mk_combination_iterator first1 (b :: m)))
          (combination_iterator_end first1) with
  | Some c, Some cs => Some (c :: cs)
  | _, _ => None
  end.
Proof. cbn [range_values]. now rewrite equal_end. Qed.

Lemma range_values_end (fuel : nat) (first1 : nat) :
  range_values coll fuel (mk_combination_iterator first1 [])
    (combination_iterator_end first1) = Some [].
Proof. destruct fuel; cbn [range_values]; now rewrite equal_end. Qed.

(** A run of the loop along a list of masks that [increment] steps
    through and whose last mask has no previous permutation. *)
Lemma range_values_run (first1 n : nat) :
  1 <= n -> first1 + n <= List.length coll ->
  forall (ms : list (list Z)) (m : list Z) (fuel : nat),
  (forall m', In m' (m :: ms) -> List.length m' = n) ->
  steps_through (m :: ms) ->
  (forall d, fst (prev_permutation Z.ltb (last (m :: ms) d)) = false) ->
  List.length (m :: ms) <= fuel ->
  range_values coll fuel (mk_combination_iterator first1 m)
    (combination_iterator_end first1) =
  Some (map (fun m => select m (skipn first1 coll)) (m :: ms)).
Proof.
  intros Hn Hc. induction ms as [|m' ms IH]; intros m fuel Hlen Hsteps Hlast Hfuel.
  - destruct fuel as [|fuel]; [cbn in Hfuel; lia|].
    assert (Hm : List.length m = n) by (apply Hlen; now left).
    destruct m as [|b m]; [cbn in Hm; lia|].
    rewrite range_values_S.
    rewrite (dereference_loop_select first1 (b :: m) 0) by (rewrite Hm; lia).
    rewrite Nat.add_0_r. specialize (Hlast []). cbn [last] in Hlast.
    unfold increment. cbn [bitmask_ first1_].
    destruct (prev_permutation Z.ltb (b :: m)) as [more mask]. cbn in Hlast.
    subst more. now rewrite range_values_end.
  - destruct fuel as [|fuel]; [cbn in Hfuel; lia|].
    assert (Hm : List.length m = n) by (apply Hlen; now left).
    destruct m as [|b m]; [cbn in Hm; lia|].
    destruct Hsteps as [Hstep Hsteps].
    rewrite range_values_S.
    rewrite (dereference_loop_select first1 (b :: m) 0) by (rewrite Hm; lia).
    rewrite Nat.add_0_r. unfold increment. cbn [bitmask_ first1_].
    rewrite Hstep, (IH m' fuel).
    + reflexivity.
    + intros m0 H0. apply Hlen. now right.
    + exact Hsteps.
    + intros d. specialize (Hlast d). cbn [last] in Hlast. exact Hlast.
    + cbn [List.length] in *. lia.
Qed.

(** The generator visits the masks with [k] ones from the greatest
    down, and yields what each selects. *)
Lemma generated_masks (k : Z) (first1 last1 fuel : nat) :
  first1 <= last1 <= List.length coll ->
  (0 < k <= distance first1 last1)%Z ->
  binomial (last1 - first1) (Z.to_nat k) <= fuel ->
  generated coll k first1 last1 fuel =
  Some (map (fun m => select m (skipn first1 coll))
          (masks (Z.to_nat k) (last1 - first1))).
Proof.
  intros Hr Hk Hfuel. unfold distance in Hk.
  unfold generated, make_combination_generator, combination_iterator_new, distance.
  replace (Z.of_nat last1 - Z.of_nat first1)%Z with (Z.of_nat (last1 - first1))
    by lia.
  set (n := last1 - first1) in *.
  destruct (Z.ltb_spec (Z.of_nat n) 0) as [Hneg|_]; [lia|].
  destruct (Z.ltb_spec 0 k) as [_|Hneg]; [|lia].
  destruct (Z.leb_spec k (Z.of_nat n)) as [_|Hneg]; [|lia].
  cbn [negb]. rewrite Nat2Z.id.
  set (kn := Z.to_nat k) in *.
  assert (Hkn : 1 <= kn <= n) by lia.
  rewrite fill_n_ones by lia.
  destruct (masks_first n kn) as (rest & Hrest); [lia|].
  destruct (masks_last n kn) as (init & Hinit); [lia|].
  rewrite Hrest.
  apply (range_values_run first1 n); try lia.
  - intros m' Hm'. apply (masks_length n kn). now rewrite Hrest.
  - pose proof (masks_steps n kn []) as Hs. rewrite Hrest in Hs.
    cbn [app] in Hs. rewrite map_id in Hs. exact Hs.
  - intros d. rewrite <- Hrest, Hinit, last_last. apply prev_permutation_bits_last.
  - rewrite <- Hrest, masks_count. exact Hfuel.
Qed.

Lemma range_length (first1 last1 : nat) :
  first1 <= last1 <= List.length coll ->
  List.length (range coll first1 last1) = last1 - first1.
Proof. intros H. unfold range. rewrite length_firstn, length_skipn. lia. Qed.

Lemma generated_combinations (k : Z) (first1 last1 fuel : nat) :
  first1 <= last1 <= List.length coll ->
  (0 < k <= distance first1 last1)%Z ->
  binomial (last1 - first1) (Z.to_nat k) <= fuel ->
  generated coll k first1 last1 fuel =
  Some (combinations (Z.to_nat k) (range coll first1 last1)).
Proof.
  intros Hr Hk Hfuel. rewrite generated_masks by assumption.
  unfold range. rewrite select_masks; [reflexivity|].
  rewrite length_skipn. lia.
Qed.

(** X6: for a range [[first1, last1)] of [N] elements within the
    collection and [0 < k <= N], a loop over
    [make_combination_generator(k, first1, last1)] ends after
    [binomial N k] values; the values are the [k]-element combinations
    of the range in this order: those with the first element of the
    range, then those without it, and so on within each group. *)
Theorem generator_order (k : Z) (first1 last1 fuel : nat) :
  first1 <= last1 <= List.length coll ->
  (0 < k <= distance first1 last1)%Z ->
  binomial (last1 - first1) (Z.to_nat k) <= fuel ->
  generated coll k first1 last1 fuel =
    Some (combinations (Z.to_nat k) (range coll first1 last1)) /\
  List.length (combinations (Z.to_nat k) (range coll first1 last1)) =
    binomial (last1 - first1) (Z.to_nat k).
Proof.
  intros Hr Hk Hfuel. split; [now apply generated_combinations|].
  now rewrite combinations_count, range_length.
Qed.

(** X7: under the same conditions the generator yields exactly the
    [k]-element subsequences of the range: every value has [k] elements
    in the order of the source collection, and every such selection is
    among the values. *)
Theorem generator_subsequences (k : Z) (first1 last1 fuel : nat) :
  first1 <= last1 <= List.length coll ->
  (0 < k <= distance first1 last1)%Z ->
  binomial (last1 - first1) (Z.to_nat k) <= fuel ->
  exists cs, generated coll k first1 last1 fuel = Some cs /\
    forall c, In c cs <->
      subsequence c (range coll first1 last1) /\ List.length c = Z.to_nat k.
Proof.
  intros Hr Hk Hfuel. eexists. split; [now apply generated_combinations|].
  intros c. apply combinations_In.
Qed.

(** X8: under the same conditions, and when the elements of the range
    are distinct, no combination is yielded twice. *)
Theorem generator_NoDup (k : Z) (first1 last1 fuel : nat) :
  first1 <= last1 <= List.length coll ->
  (0 < k <= distance first1 last1)%Z ->
  binomial (last1 - first1) (Z.to_nat k) <= fuel ->
  NoDup (range coll first1 last1) ->
  exists cs, generated coll k first1 last1 fuel = Some cs /\ NoDup cs.
Proof.
  intros Hr Hk Hfuel Hnd. eexists. split; [now apply generated_combinations|].
  now apply combinations_NoDup.
Qed.

(** X9: [increment] keeps the position of the iterator and either
    clears the mask, which makes the sentinel, or leaves a permutation
    of it: the number of chosen elements never changes on the way. *)
Theorem increment_keeps_choice (it : combination_iterator) :
  first1_ (increment it) = first1_ it /\
  (increment it = combination_iterator_end (first1_ it) \/
   Permutation (bitmask_ it) (bitmask_ (increment it))).
Proof.
  unfold increment.
  pose proof (prev_permutation_Permutation Z.ltb (bitmask_ it)) as H.
  destruct (prev_permutation Z.ltb (bitmask_ it)) as [[] mask]; cbn [snd] in H.
  - split; [reflexivity|]. right. exact H.
  - split; [reflexivity|]. now left.
Qed.

End CombinationIteratorFacts.

(** ** [intersects] on ranges that need not be sorted *)

(** X4: when [operator<] is asymmetric, [ext::intersects] gives the same
    answer with its two ranges exchanged, sorted or not. *)
Theorem intersects_comm {T : Type} (ltb : T -> T -> bool) (r1 r2 : list T) :
  (forall a b, ltb a b = true -> ltb b a = false) ->
  intersects ltb r1 r2 = intersects ltb r2 r1.
Proof.
  intros Hasym. revert r2. induction r1 as [|x1 r1 IH1]; intros r2.
  - rewrite intersects_nil_r. now destruct r2.
  - induction r2 as [|x2 r2 IH2]; [reflexivity|].
    rewrite !intersects_cons.
    destruct (ltb x1 x2) eqn:H12; destruct (ltb x2 x1) eqn:H21.
    + rewrite (Hasym _ _ H12) in H21. discriminate.
    + apply IH1.
    + exact IH2.
    + reflexivity.
Qed.

(** X5: the answer [true] of [ext::intersects] is never given without a
    pair of elements, one of each range, neither of which is less than
    the other; this needs no sortedness. *)
Theorem intersects_true_equivalent {T : Type} (ltb : T -> T -> bool)
    (r1 r2 : list T) :
  intersects ltb r1 r2 = true ->
  exists x1 x2, In x1 r1 /\ In x2 r2 /\ ltb x1 x2 = false /\ ltb x2 x1 = false.
Proof.
  revert r2. induction r1 as [|x1 r1 IH1]; intros r2; [now destruct r2|].
  induction r2 as [|x2 r2 IH2]; [discriminate|].
  rewrite intersects_cons.
  destruct (ltb x1 x2) eqn:H12.
  - intros H. destruct (IH1 _ H) as (y1 & y2 & Hy1 & Hy2 & Hy).
    exists y1, y2. split; [now right|]. split; [exact Hy2|exact Hy].
  - destruct (ltb x2 x1) eqn:H21.
    + intros H. destruct (IH2 H) as (y1 & y2 & Hy1 & Hy2 & Hy).
      exists y1, y2. split; [exact Hy1|]. split; [now right|exact Hy].
    + intros _. exists x1, x2. split; [now left|]. split; [now left|now split].
Qed.

(** ** The theorems at sample ranges *)

Lemma nat_ltb_asym (a b : nat) : Nat.ltb a b = true -> Nat.ltb b a = false.
Proof. rewrite Nat.ltb_lt, Nat.ltb_ge. lia. Qed.

(** The unsorted ranges [5; 1; 3] and [3; 9]. *)
Lemma intersects_comm_witness :
  intersects Nat.ltb [5; 1; 3] [3; 9] = intersects Nat.ltb [3; 9] [5; 1; 3].
Proof. apply (intersects_comm Nat.ltb [5; 1; 3] [3; 9] nat_ltb_asym). Defined.

(** The unsorted ranges [1; 3; 2] and [2; 3]. *)
Lemma intersects_true_equivalent_witness :
  exists x1 x2, In x1 [1; 3; 2] /\ In x2 [2; 3] /\
                Nat.ltb x1 x2 = false /\ Nat.ltb x2 x1 = false.
Proof.
  apply (intersects_true_equivalent Nat.ltb [1; 3; 2] [2; 3]). reflexivity.
Defined.

(** The pairs from the four elements at the offsets 1 to 4 of a
    collection of six. *)
Lemma generator_order_witness :
  generated [10; 20; 30; 40; 50; 60] 2 1 5 6 =
    Some (combinations (Z.to_nat 2) (range [10; 20; 30; 40; 50; 60] 1 5)) /\
  List.length (combinations (Z.to_nat 2) (range [10; 20; 30; 40; 50; 60] 1 5)) =
    binomial (5 - 1) (Z.to_nat 2).
Proof.
  apply (generator_order [10; 20; 30; 40; 50; 60] 2 1 5 6).
  - cbn. lia.
  - unfold distance. lia.
  - vm_compute. lia.
Defined.

Example generator_pairs :
  generated [10; 20; 30; 40; 50; 60] 2 1 5 6 =
  Some [[20; 30]; [20; 40]; [20; 50]; [30; 40]; [30; 50]; [40; 50]].
Proof. reflexivity. Qed.

Lemma generator_subsequences_witness :
  exists cs, generated [10; 20; 30; 40; 50; 60] 3 1 5 4 = Some cs /\
    forall c, In c cs <->
      subsequence c (range [10; 20; 30; 40; 50; 60] 1 5) /\
      List.length c = Z.to_nat 3.
Proof.
  apply (generator_subsequences [10; 20; 30; 40; 50; 60] 3 1 5 4).
  - cbn. lia.
  - unfold distance. lia.
  - vm_compute. lia.
Defined.

Lemma generator_NoDup_witness :
  exists cs, generated [10; 20; 30; 40; 50; 60] 4 0 6 15 = Some cs /\ NoDup cs.
Proof.
  apply (generator_NoDup [10; 20; 30; 40; 50; 60] 4 0 6 15).
  - cbn. lia.
  - unfold distance. lia.
  - vm_compute. lia.
  - cbn. repeat constructor; cbn; lia.
Defined.

(** Outside [0 < k <= N] the constructor does not return. *)
Example generator_rejects :
  make_combination_generator 0 0 3 = None /\
  make_combination_generator 4 0 3 = None /\
  make_combination_generator 1 2 1 = None.
Proof. repeat split. Qed.


End Ext.

(* ================================================================== *)
(** * Expressions described with exponential formulas *)
(* ================================================================== *)

Module Expr.

Local Open Scope R_scope.

Section Expressions.

(** One draw of all random deviates of the model: what a sampling run
    fixes before it evaluates the expressions. *)
Variable Omega : Type.

(** The interface of [Expression] as the classes of [exponential.h] use
    it: the three deterministic descriptors and the sampled value.  An
    expression object is the record of what its virtual functions
    return; [double] is idealised as [R]. *)
Record Expression : Type := mkExpression {
  Mean : R;
  Max : R;
  Min : R;
  Sample : Omega -> R
}.

(** [ExponentialExpression]: negative exponential distribution with
    hourly failure rate [lambda_] and time [time_]. *)
Definition ExponentialExpression (lambda_ time_ : Expression) : Expression :=
  {| Mean := 1 - exp (- (Mean lambda_ * Mean time_));
     Max := 1 - exp (- (Max lambda_ * Max time_));
     Min := 1 - exp (- (Min lambda_ * Min time_));
     Sample := fun w => 1 - exp (- (Sample lambda_ w * Sample time_ w)) |}.

(** [GlmExpression::Mean] and [GlmExpression::DoSample] are only declared
    in the header; their bodies are parameters of the model. *)
Variable Glm_Mean : Expression -> Expression -> Expression -> Expression -> R.
Variable Glm_DoSample :
  Expression -> Expression -> Expression -> Expression -> Omega -> R.

(** [GlmExpression]: [Max] and [Min] are the constants [1] and [0]. *)
Definition GlmExpression (gamma_ lambda_ mu_ time_ : Expression) : Expression :=
  {| Mean := Glm_Mean gamma_ lambda_ mu_ time_;
     Max := 1;
     Min := 0;
     Sample := Glm_DoSample gamma_ lambda_ mu_ time_ |}.

(** [WeibullExpression::Compute] is only declared in the header. *)
Variable Weibull_Compute : R -> R -> R -> R -> R.

(** [WeibullExpression]: all four queries go through [Compute]. *)
Definition WeibullExpression (alpha_ beta_ t0_ time_ : Expression) : Expression :=
  {| Mean := Weibull_Compute (Mean alpha_) (Mean beta_) (Mean t0_) (Mean time_);
     Max := Weibull_Compute (Min alpha_) (Max beta_) (Min t0_) (Max time_);
     Min := Weibull_Compute (Max alpha_) (Min beta_) (Max t0_) (Min time_);
     Sample := fun w =>
       Weibull_Compute (Sample alpha_ w) (Sample beta_ w) (Sample t0_ w)
         (Sample time_ w) |}.

(** [PeriodicTest::Flavor]: the interface of the two flavours, whose
    bodies are not in the header. *)
Record Flavor : Type := mkFlavor {
  Flavor_Mean : R;
  Flavor_Sample : Omega -> R
}.

(** [PeriodicTest]: delegates to its flavour, with constant bounds. *)
Definition PeriodicTest (flavor_ : Flavor) : Expression :=
  {| Mean := Flavor_Mean flavor_;
     Max := 1;
     Min := 0;
     Sample := Flavor_Sample flavor_ |}.

(** What validation leaves of a rate or a time: it is not negative and
    its descriptors are ordered. *)
Definition ordered_nonneg (e : Expression) : Prop :=
  0 <= Min e /\ Min e <= Mean e /\ Mean e <= Max e.

(** Invariant (I5) of a node used as a probability. *)
Definition probability_interval (e : Expression) : Prop :=
  0 <= Min e /\ Min e <= Mean e /\ Mean e <= Max e /\ Max e <= 1.

(** Every sampled value of [e] lies within its [Min] and [Max]. *)
Definition samples_within (e : Expression) : Prop :=
  forall w, Min e <= Sample e w <= Max e.

End Expressions.

Arguments Mean {Omega} _.
Arguments Max {Omega} _.
Arguments Min {Omega} _.
Arguments Sample {Omega} _ _.
Arguments mkExpression {Omega} _ _ _ _.
Arguments ExponentialExpression {Omega} _ _.
Arguments GlmExpression {Omega} _ _ _ _ _ _.
Arguments WeibullExpression {Omega} _ _ _ _ _.
Arguments PeriodicTest {Omega} _.
Arguments ordered_nonneg {Omega} _.
Arguments probability_interval {Omega} _.
Arguments samples_within {Omega} _.

(** A constant expression: all descriptors and every sample are [v]. *)
Definition constant {Omega : Type} (v : R) : Expression Omega :=
  mkExpression v v v (fun _ => v).

(** The descriptors of [e] are ordered. *)
Definition ordered {Omega : Type} (e : Expression Omega) : Prop :=
  Min e <= Mean e /\ Mean e <= Max e.

(** [x] is a value that [e] may take. *)
Definition within {Omega : Type} (e : Expression Omega) (x : R) : Prop :=
  Min e <= x <= Max e.

(** Over the box of the children's intervals, [Compute] does not grow
    with its first and third argument and does not fall with its second
    and fourth. *)
Definition monotone_on_box {Omega : Type} (Compute : R -> R -> R -> R -> R)
    (alpha_ beta_ t0_ time_ : Expression Omega) : Prop :=
  forall a a' b b' s s' t t',
    within alpha_ a -> within alpha_ a' -> within beta_ b -> within beta_ b' ->
    within t0_ s -> within t0_ s' -> within time_ t -> within time_ t' ->
    a' <= a -> b <= b' -> s' <= s -> t <= t' ->
    Compute a b s t <= Compute a' b' s' t'.

(** Modelled from the spec: [WeibullExpression::Compute] is declared in
    [exponential.h] and defined in a file that is not among the sources.
    The spec gives the map
    [(alpha, beta, t0, t) |-> 1 - e^(-((t - t0) / alpha)^beta)], valid for
    [t >= t0]; [std::pow] of a positive base is [Rpower], and of base
    [0] with a positive exponent it is [0]. *)
Definition Weibull_Compute_spec (alpha beta t0 time : R) : R :=
  let base := (time - t0) / alpha in
  1 - exp (- (if Rlt_dec 0 base then Rpower base beta else 0)).

(** Modelled from the spec: [GlmExpression::Compute] is declared in
    [exponential.h] and defined in a file that is not among the sources.
    The spec calls it the standard two-state Markov availability of
    [(gamma, lambda, mu, t)]: the solution of [p' = lambda (1 - p) - mu p]
    with [p 0 = gamma]. *)
Definition Glm_Compute_spec (gamma lambda mu time : R) : R :=
  let r := lambda + mu in
  (lambda - (lambda - gamma * r) * exp (- r * time)) / r.

(** A Weibull node with scale [1], no time shift, mission time [1/2]
    and a shape in [[1, 2]] of mean [3/2] whose draw is [1]. *)
Definition weibull_shape : Expression unit :=
  mkExpression (3 / 2) 2 1 (fun _ => 1).

Definition weibull_node : Expression unit :=
  WeibullExpression Weibull_Compute_spec
    (constant 1) weibull_shape (constant 0) (constant (1 / 2)).

(** ** Arithmetic of [x |-> 1 - exp (- x)] *)

Lemma exp_le (x y : R) : x <= y -> exp x <= exp y.
Proof.
  intros [H| ->]; [left; now apply exp_increasing|right; reflexivity].
Qed.

Lemma one_minus_exp_mono (x y : R) :
  x <= y -> 1 - exp (- x) <= 1 - exp (- y).
Proof. intros H. assert (exp (- y) <= exp (- x)) by (apply exp_le; lra). lra. Qed.

Lemma one_minus_exp_nonneg (x : R) : 0 <= x -> 0 <= 1 - exp (- x).
Proof.
  intros H. assert (exp (- x) <= exp 0) by (apply exp_le; lra).
  rewrite exp_0 in *. lra.
Qed.

Lemma one_minus_exp_lt_1 (x : R) : 1 - exp (- x) < 1.
Proof. pose proof (exp_pos (- x)). lra. Qed.

Lemma mult_le_nonneg (a b c d : R) :
  0 <= a -> a <= b -> 0 <= c -> c <= d -> a * c <= b * d.
Proof. intros. apply Rmult_le_compat; assumption. Qed.

(** ** The exponential expression *)

(** C3: with a non-negative mean rate and a non-negative mean time, the
    [Mean] of the exponential expression is [1 - exp (-(lambda * t))]
    taken at the children's means, and it lies in [[0, 1]]. *)
Theorem ExponentialExpression_Mean_spec
    {Omega : Type} (lambda_ time_ : Expression Omega) :
  0 <= Mean lambda_ -> 0 <= Mean time_ ->
  Mean (ExponentialExpression lambda_ time_) =
    1 - exp (- (Mean lambda_ * Mean time_)) /\
  0 <= Mean (ExponentialExpression lambda_ time_) <= 1.
Proof.
  intros Hl Ht. split; [reflexivity|]. cbn [Mean ExponentialExpression].
  split.
  - apply one_minus_exp_nonneg. now apply Rmult_le_pos.
  - left. apply one_minus_exp_lt_1.
Qed.

(** Scenario 6 of the spec: [lambda = 1e-3] per hour over [1000] hours
    gives [1 - exp (-1)]. *)
Lemma ExponentialExpression_Mean_spec_witness :
  Mean (ExponentialExpression (@constant unit (1 / 1000)) (constant 1000)) =
    1 - exp (- (Mean (@constant unit (1 / 1000)) * Mean (@constant unit 1000))) /\
  0 <= Mean (ExponentialExpression (@constant unit (1 / 1000)) (constant 1000)) <= 1.
Proof.
  apply (ExponentialExpression_Mean_spec (@constant unit (1 / 1000)) (constant 1000)).
  - cbn. lra.
  - cbn. lra.
Defined.

Example exponential_scenario_6 :
  Mean (ExponentialExpression (@constant unit (1 / 1000)) (constant 1000)) =
  1 - exp (- 1).
Proof. cbn. f_equal. f_equal. lra. Qed.

(** The exponential expression keeps the interval invariant of its
    children and stays below [1]. *)
Lemma ExponentialExpression_interval
    {Omega : Type} (lambda_ time_ : Expression Omega) :
  ordered_nonneg lambda_ -> ordered_nonneg time_ ->
  probability_interval (ExponentialExpression lambda_ time_).
Proof.
  intros (Hl0 & Hl1 & Hl2) (Ht0 & Ht1 & Ht2).
  unfold probability_interval. cbn [Mean Max Min ExponentialExpression].
  repeat split.
  - apply one_minus_exp_nonneg. now apply Rmult_le_pos.
  - apply one_minus_exp_mono. now apply mult_le_nonneg.
  - apply one_minus_exp_mono. apply mult_le_nonneg; lra.
  - left. apply one_minus_exp_lt_1.
Qed.

(** The samples of the exponential expression stay within its [Min]
    and [Max] when those of its children do and neither child is
    negative. *)
Lemma ExponentialExpression_samples_within
    {Omega : Type} (lambda_ time_ : Expression Omega) :
  0 <= Min lambda_ -> 0 <= Min time_ ->
  samples_within lambda_ -> samples_within time_ ->
  samples_within (ExponentialExpression lambda_ time_).
Proof.
  intros Hl Ht Sl St w. destruct (Sl w) as [L1 L2]. destruct (St w) as [T1 T2].
  cbn [Min Max Sample ExponentialExpression].
  split; apply one_minus_exp_mono; apply mult_le_nonneg; lra.
Qed.

(** What the guard of [Validate] is for: with the negative rate [-1],
    which validation rejects, and a time in [[1, 3]] of mean [2], the
    three descriptors come out in the opposite order and all of them
    are negative. *)
Lemma Exponential_negative_rate_disorder :
  let e := ExponentialExpression (@constant unit (- 1))
             (mkExpression 2 3 1 (fun _ => 2)) in
  Max e < Mean e /\ Mean e < Min e /\ Min e < 0.
Proof.
  cbn.
  replace (- (-1 * 3)) with 3 by lra.
  replace (- (-1 * 2)) with 2 by lra.
  replace (- (-1 * 1)) with 1 by lra.
  assert (exp 0 < exp 1) by (apply exp_increasing; lra).
  assert (exp 1 < exp 2) by (apply exp_increasing; lra).
  assert (exp 2 < exp 3) by (apply exp_increasing; lra).
  rewrite exp_0 in *. lra.
Qed.

(** X10: when neither child of the exponential expression is negative
    and both sample within their own [Min] and [Max], every sampled
    value of the expression lies within its [Min] and [Max], and these
    lie within [[0, 1]]. *)
Theorem ExponentialExpression_sample_bounds
    {Omega : Type} (lambda_ time_ : Expression Omega) (w : Omega) :
  0 <= Min lambda_ -> 0 <= Min time_ ->
  samples_within lambda_ -> samples_within time_ ->
  let e := ExponentialExpression lambda_ time_ in
  0 <= Min e /\ Min e <= Sample e w /\ Sample e w <= Max e /\ Max e <= 1.
Proof.
  intros Hl Ht Sl St e.
  destruct (ExponentialExpression_samples_within lambda_ time_ Hl Ht Sl St w)
    as [H1 H2].
  split; [|split; [exact H1|split; [exact H2|left; apply one_minus_exp_lt_1]]].
  apply one_minus_exp_nonneg. now apply Rmult_le_pos.
Qed.

(** A rate drawn from [[1, 3]] over a time drawn from [[2, 4]]. *)
Lemma ExponentialExpression_sample_bounds_witness :
  let e := ExponentialExpression (mkExpression 2 3 1 (fun _ : unit => 2))
             (mkExpression 3 4 2 (fun _ : unit => 4)) in
  0 <= Min e /\ Min e <= Sample e tt /\ Sample e tt <= Max e /\ Max e <= 1.
Proof.
  apply (ExponentialExpression_sample_bounds
           (mkExpression 2 3 1 (fun _ : unit => 2))
           (mkExpression 3 4 2 (fun _ : unit => 4)) tt).
  - cbn. lra.
  - cbn. lra.
  - intros w. cbn. lra.
  - intros w. cbn. lra.
Defined.

(** X11: the [Mean] of the exponential expression does not fall when
    the mean rate grows over a mean time that is not negative, nor when
    the mean time grows over a mean rate that is not negative. *)
Theorem ExponentialExpression_Mean_monotone
    {Omega : Type} (lambda1 lambda2 time1 time2 : Expression Omega) :
  (0 <= Mean time1 -> Mean lambda1 <= Mean lambda2 ->
   Mean (ExponentialExpression lambda1 time1) <=
   Mean (ExponentialExpression lambda2 time1)) /\
  (0 <= Mean lambda1 -> Mean time1 <= Mean time2 ->
   Mean (ExponentialExpression lambda1 time1) <=
   Mean (ExponentialExpression lambda1 time2)).
Proof.
  cbn [Mean ExponentialExpression]. split; intros Hpos Hle.
  - apply one_minus_exp_mono. now apply Rmult_le_compat_r.
  - apply one_minus_exp_mono. now apply Rmult_le_compat_l.
Qed.

(** The rates [1] and [2] over the time [3]. *)
Lemma ExponentialExpression_Mean_monotone_witness :
  Mean (ExponentialExpression (@constant unit 1) (constant 3)) <=
  Mean (ExponentialExpression (@constant unit 2) (constant 3)).
Proof.
  apply (proj1 (ExponentialExpression_Mean_monotone
                  (@constant unit 1) (constant 2) (constant 3) (constant 3))).
  - cbn. lra.
  - cbn. lra.
Defined.

(** ** The GLM formula of the spec *)

(** With a probability on demand in [[0, 1]], non-negative rates that
    are not both zero and a non-negative time, the two-state Markov
    formula of the spec is a probability. *)
Lemma Glm_Compute_spec_probability (gamma lambda mu time : R) :
  0 <= gamma <= 1 -> 0 <= lambda -> 0 <= mu -> 0 < lambda + mu -> 0 <= time ->
  0 <= Glm_Compute_spec gamma lambda mu time <= 1.
Proof.
  intros Hg Hl Hm Hr Ht. unfold Glm_Compute_spec. cbv zeta.
  set (r := lambda + mu) in *.
  set (e := exp (- r * time)).
  assert (He0 : 0 < e) by apply exp_pos.
  assert (He1 : e <= 1).
  { rewrite <- exp_0. apply exp_le.
    assert (0 <= r * time) by (apply Rmult_le_pos; lra). lra. }
  assert (Hnum : lambda - (lambda - gamma * r) * e =
                 lambda * (1 - e) + gamma * (r * e)) by ring.
  rewrite Hnum.
  assert (0 <= lambda * (1 - e)) by (apply Rmult_le_pos; lra).
  assert (0 <= r * e) by (apply Rmult_le_pos; lra).
  assert (0 <= gamma * (r * e)) by (apply Rmult_le_pos; lra).
  assert (lambda * (1 - e) <= r * (1 - e)).
  { apply Rmult_le_compat_r; [lra|]. unfold r. lra. }
  assert (gamma * (r * e) <= 1 * (r * e)).
  { apply Rmult_le_compat_r; lra. }
  split.
  - apply Rmult_le_reg_r with r; [exact Hr|].
    unfold Rdiv. rewrite Rmult_assoc, Rinv_l by lra. lra.
  - apply Rmult_le_reg_r with r; [exact Hr|].
    unfold Rdiv. rewrite Rmult_assoc, Rinv_l by lra. lra.
Qed.

(** With that formula for [GlmExpression::Mean], the GLM node keeps the
    interval invariant on valid parameters: its [Min] and [Max] are the
    constants [0] and [1]. *)
Lemma GlmExpression_spec_interval {Omega : Type}
    (Glm_DoSample : Expression Omega -> Expression Omega ->
                    Expression Omega -> Expression Omega -> Omega -> R)
    (gamma_ lambda_ mu_ time_ : Expression Omega) :
  0 <= Mean gamma_ <= 1 -> 0 <= Mean lambda_ -> 0 <= Mean mu_ ->
  0 < Mean lambda_ + Mean mu_ -> 0 <= Mean time_ ->
  probability_interval
    (GlmExpression
       (fun g l m t => Glm_Compute_spec (Mean g) (Mean l) (Mean m) (Mean t))
       Glm_DoSample gamma_ lambda_ mu_ time_).
Proof.
  intros Hg Hl Hm Hr Ht.
  destruct (Glm_Compute_spec_probability _ _ _ _ Hg Hl Hm Hr Ht) as [H0 H1].
  unfold probability_interval. cbn [Mean Max Min GlmExpression]. lra.
Qed.

(** ** The Weibull expression *)

Lemma Weibull_Compute_spec_pos (alpha beta t0 time : R) :
  0 < (time - t0) / alpha ->
  Weibull_Compute_spec alpha beta t0 time =
  1 - exp (- Rpower ((time - t0) / alpha) beta).
Proof.
  intros H. unfold Weibull_Compute_spec. cbv zeta.
  destruct (Rlt_dec 0 ((time - t0) / alpha)) as [_|Hn]; [reflexivity|].
  contradiction.
Qed.

Lemma Rpower_half_2 : Rpower (1 / 2) 2 = 1 / 4.
Proof.
  transitivity (Rpower (1 / 2) (INR 2)).
  - replace (INR 2) with 2 by (simpl; lra). reflexivity.
  - rewrite Rpower_pow by lra. simpl. lra.
Qed.

Lemma div_le_div (n1 n2 d1 d2 : R) :
  0 <= n1 -> n1 <= n2 -> 0 < d2 -> d2 <= d1 -> n1 / d1 <= n2 / d2.
Proof.
  intros Hn1 Hn Hd2 Hd. unfold Rdiv.
  apply Rmult_le_compat; try lra.
  - left. apply Rinv_0_lt_compat. lra.
  - apply Rinv_le_contravar; lra.
Qed.

Lemma Rpower_mono (x y b c : R) :
  1 <= x -> x <= y -> 0 <= b -> b <= c -> Rpower x b <= Rpower y c.
Proof.
  intros Hx Hxy Hb Hbc.
  apply Rle_trans with (Rpower y b).
  - apply Rle_Rpower_l; lra.
  - apply Rle_Rpower; lra.
Qed.

(** Where the choice of extrema in [Max] and [Min] is right: when
    [(t - t0) / alpha] cannot fall below [1], the formula grows with
    [beta], and the samples stay within [Min] and [Max]. *)
Lemma Weibull_samples_within {Omega : Type}
    (alpha_ beta_ t0_ time_ : Expression Omega) :
  0 < Min alpha_ -> 0 <= Min beta_ ->
  samples_within alpha_ -> samples_within beta_ ->
  samples_within t0_ -> samples_within time_ ->
  Max alpha_ <= Min time_ - Max t0_ ->
  samples_within (WeibullExpression Weibull_Compute_spec alpha_ beta_ t0_ time_).
Proof.
  intros Ha Hb Sa Sb Ss St Hbase w.
  destruct (Sa w) as [A1 A2], (Sb w) as [B1 B2], (Ss w) as [S1 S2], (St w) as [T1 T2].
  cbn [Min Max Sample WeibullExpression].
  assert (Hlo : 1 <= (Min time_ - Max t0_) / Max alpha_).
  { replace 1 with (Max alpha_ / Max alpha_) by (field; lra).
    apply div_le_div; lra. }
  assert (Hw : (Min time_ - Max t0_) / Max alpha_ <=
               (Sample time_ w - Sample t0_ w) / Sample alpha_ w)
    by (apply div_le_div; lra).
  assert (Hhi : (Sample time_ w - Sample t0_ w) / Sample alpha_ w <=
                (Max time_ - Min t0_) / Min alpha_)
    by (apply div_le_div; lra).
  rewrite !Weibull_Compute_spec_pos by lra.
  split; apply one_minus_exp_mono; apply Rpower_mono; lra.
Qed.

(** The Weibull node at the shape's mean: [(1/2)^(3/2)] lies strictly
    between [(1/2)^2] and [(1/2)^1]. *)
Lemma Rpower_half_between : 1 / 4 < Rpower (1 / 2) (3 / 2) < 1 / 2.
Proof.
  assert (Hln : ln (1 / 2) < 0).
  { rewrite <- ln_1. apply ln_increasing; lra. }
  split.
  - rewrite <- Rpower_half_2. unfold Rpower. apply exp_increasing. lra.
  - assert (H : Rpower (1 / 2) (3 / 2) < Rpower (1 / 2) 1)
      by (unfold Rpower; apply exp_increasing; lra).
    now rewrite Rpower_1 in H by lra.
Qed.

(** C2, at the failing input: all parameters of the Weibull node are in
    their domains ([alpha > 0], [beta > 0], [t >= t0]) and the
    descriptors of every child are ordered, yet the descriptors of the
    node come out as [Max () < Mean () < Min ()]:
    [Max () = 1 - exp (-1/4)], [Mean () = 1 - exp (-(1/2)^(3/2))] and
    [Min () = 1 - exp (-1/2)], all of them in [[0, 1]]. *)
Theorem Weibull_descriptors_disorder :
  (0 < Min (@constant unit 1) /\ 0 < Min weibull_shape /\
   Max (@constant unit 0) <= Min (@constant unit (1 / 2))) /\
  (ordered (@constant unit 1) /\ ordered weibull_shape /\
   ordered (@constant unit 0) /\ ordered (@constant unit (1 / 2))) /\
  Max weibull_node = 1 - exp (- (1 / 4)) /\
  Mean weibull_node = 1 - exp (- Rpower (1 / 2) (3 / 2)) /\
  Min weibull_node = 1 - exp (- (1 / 2)) /\
  0 <= Max weibull_node /\ Max weibull_node < Mean weibull_node /\
  Mean weibull_node < Min weibull_node /\ Min weibull_node <= 1.
Proof.
  assert (Hmax : Max weibull_node = 1 - exp (- (1 / 4))).
  { cbn. rewrite Weibull_Compute_spec_pos by lra.
    replace ((1 / 2 - 0) / 1) with (1 / 2) by lra.
    rewrite Rpower_half_2. reflexivity. }
  assert (Hmean : Mean weibull_node = 1 - exp (- Rpower (1 / 2) (3 / 2))).
  { cbn. rewrite Weibull_Compute_spec_pos by lra.
    replace ((1 / 2 - 0) / 1) with (1 / 2) by lra. reflexivity. }
  assert (Hmin : Min weibull_node = 1 - exp (- (1 / 2))).
  { cbn. rewrite Weibull_Compute_spec_pos by lra.
    replace ((1 / 2 - 0) / 1) with (1 / 2) by lra.
    rewrite Rpower_1 by lra. reflexivity. }
  destruct Rpower_half_between as [Hlo Hhi].
  assert (H1 : exp (- Rpower (1 / 2) (3 / 2)) < exp (- (1 / 4)))
    by (apply exp_increasing; lra).
  assert (H2 : exp (- (1 / 2)) < exp (- Rpower (1 / 2) (3 / 2)))
    by (apply exp_increasing; lra).
  assert (H3 : exp (- (1 / 4)) <= 1).
  { apply Rle_trans with (exp 0); [apply exp_le; lra|rewrite exp_0; lra]. }
  pose proof (exp_pos (- (1 / 2))) as H4.
  rewrite Hmax, Hmean, Hmin.
  repeat split; unfold ordered; cbn [Min Mean Max constant weibull_shape];
    try lra.
Qed.

(** C4, at the failing input: all parameters are in their domains
    ([alpha > 0], [beta > 0], [t >= t0]) and every child samples within
    its own [[Min, Max]], yet the sample of the Weibull node,
    [1 - exp (-1/2)], is above [Max () = 1 - exp (-1/4)] by more than
    [1/12], and [Min ()] is above [Max ()]. *)
Theorem Weibull_sample_above_Max :
  (0 < Min (@constant unit 1) /\ 0 < Min weibull_shape /\
   Max (@constant unit 0) <= Min (@constant unit (1 / 2))) /\
  (samples_within (@constant unit 1) /\ samples_within weibull_shape /\
   samples_within (@constant unit 0) /\ samples_within (@constant unit (1 / 2))) /\
  Sample weibull_node tt = 1 - exp (- (1 / 2)) /\
  Max weibull_node = 1 - exp (- (1 / 4)) /\
  Min weibull_node = 1 - exp (- (1 / 2)) /\
  Max weibull_node + 1 / 12 < Sample weibull_node tt /\
  Max weibull_node < Min weibull_node.
Proof.
  assert (Hs : Sample weibull_node tt = 1 - exp (- (1 / 2))).
  { cbn. rewrite Weibull_Compute_spec_pos by lra.
    replace ((1 / 2 - 0) / 1) with (1 / 2) by lra.
    rewrite Rpower_1 by lra. reflexivity. }
  assert (Hmax : Max weibull_node = 1 - exp (- (1 / 4))).
  { cbn. rewrite Weibull_Compute_spec_pos by lra.
    replace ((1 / 2 - 0) / 1) with (1 / 2) by lra.
    rewrite Rpower_half_2. reflexivity. }
  assert (Hmin : Min weibull_node = 1 - exp (- (1 / 2))).
  { cbn. rewrite Weibull_Compute_spec_pos by lra.
    replace ((1 / 2 - 0) / 1) with (1 / 2) by lra.
    rewrite Rpower_1 by lra. reflexivity. }
  assert (H4 : 3 / 4 < exp (- (1 / 4))).
  { pose proof (exp_ineq1 (- (1 / 4))). lra. }
  assert (H2 : exp (- (1 / 2)) <= 2 / 3).
  { rewrite exp_Ropp. pose proof (exp_ineq1_le (1 / 2)).
    replace (2 / 3) with (/ (3 / 2)) by lra.
    apply Rinv_le_contravar; lra. }
  repeat split; unfold samples_within; cbn [Min Max Sample constant weibull_shape];
    try lra; try (intros; lra); assumption.
Qed.

(** X26: the extrema that [WeibullExpression] takes for [Max] and [Min]
    are the right ones for any [Compute] that, over the box of the
    children's intervals, does not grow with [alpha] and [t0] and does
    not fall with [beta] and [time]: then [Min <= Mean <= Max] and every
    sampled value lies within [Min] and [Max]. *)
Theorem WeibullExpression_monotone_bounds {Omega : Type}
    (Compute : R -> R -> R -> R -> R)
    (alpha_ beta_ t0_ time_ : Expression Omega) :
  monotone_on_box Compute alpha_ beta_ t0_ time_ ->
  ordered alpha_ -> ordered beta_ -> ordered t0_ -> ordered time_ ->
  samples_within alpha_ -> samples_within beta_ ->
  samples_within t0_ -> samples_within time_ ->
  let e := WeibullExpression Compute alpha_ beta_ t0_ time_ in
  Min e <= Mean e <= Max e /\ samples_within e.
Proof.
  intros Hmono [A1 A2] [B1 B2] [S1 S2] [T1 T2] Sa Sb Ss St e.
  unfold within in Hmono. cbn [e Min Mean Max Sample WeibullExpression].
  split; [split|intros w; cbn [Min Max Sample WeibullExpression];
                 destruct (Sa w), (Sb w), (Ss w), (St w); split];
    apply Hmono; unfold within; lra.
Qed.

(** The Weibull node of scale [1] and shape in [[1, 2]] over the
    mission time [2] without a time shift: [(t - t0) / alpha] is [2]
    and the formula of the spec grows with the shape. *)
Lemma WeibullExpression_monotone_bounds_witness :
  let e := WeibullExpression Weibull_Compute_spec
             (@constant unit 1) weibull_shape (constant 0) (constant 2) in
  Min e <= Mean e <= Max e /\ samples_within e.
Proof.
  apply (WeibullExpression_monotone_bounds Weibull_Compute_spec
           (@constant unit 1) weibull_shape (constant 0) (constant 2)).
  - intros a a' b b' s s' t t'. unfold within. cbn.
    intros Ha Ha' Hb Hb' Hs Hs' Ht Ht' _ Hbb _ _.
    assert (a = 1) by lra. assert (a' = 1) by lra.
    assert (s = 0) by lra. assert (s' = 0) by lra.
    assert (t = 2) by lra. assert (t' = 2) by lra. subst.
    rewrite !Weibull_Compute_spec_pos by lra.
    apply one_minus_exp_mono. apply Rpower_mono; lra.
  - unfold ordered. cbn. lra.
  - unfold ordered. cbn. lra.
  - unfold ordered. cbn. lra.
  - unfold ordered. cbn. lra.
  - intros w. cbn. lra.
  - intros w. cbn. lra.
  - intros w. cbn. lra.
  - intros w. cbn. lra.
Defined.

End Expr.

(* ================================================================== *)
(** * The fault tree and its validation *)
(* ================================================================== *)

Module FT.

Local Open Scope string_scope.

(** ** Events on the heap *)

(** A shared pointer to an event ([EventPtr], [GatePtr], ...): the
    address of the object in the heap. *)
Definition ptr := nat.

(** [std::map<std::string, P>]: the entries in the order the map
    iterates them, which is the order of the keys. *)
Definition std_map := list (string * ptr).

(** [boost::unordered_map<std::string, P>]: the entries in the order
    they were inserted.  The order in which the container iterates them
    is not this one; it is a parameter of the model ([hash_order]
    below). *)
Definition unordered_map := list (string * ptr).

(** The dynamic type of an event object, with what only that type
    carries: a [Gate] has children; the two primary events are
    [BasicEvent] and [HouseEvent]; a plain [Event] is what a reference
    to an undefined node points to. *)
Inductive EventKind : Type :=
| Gate (children_ : std_map)
| BasicEvent
| HouseEvent
| PlainEvent.

(** [Event]: identifier, original identifier, parents, dynamic type. *)
Record Event : Type := mkEvent {
  id : string;
  orig_id : string;
  parents_ : std_map;
  kind : EventKind
}.

(** What the functions below can raise.  [AssertionFailure] is a failed
    [assert]; [OutOfFuel] belongs to the model only: the recursion of
    [CheckCyclicity] is bounded by a counter, and [Validate_terminates]
    shows that the bound [Validate] gives is never reached. *)
Inductive Error : Type :=
| ValidationError (msg : string)
| LogicError (msg : string)
| AssertionFailure
| OutOfFuel.

Inductive result (A : Type) : Type :=
| Ok (a : A)
| Throw (e : Error).

Arguments Ok {A} a.
Arguments Throw {A} e.

(** [FaultTree]: the members that [fault_tree.cc] reads and writes. *)
Record FaultTree : Type := mkFaultTree {
  name_ : string;
  top_event_id_ : string;
  top_event_ : option ptr;
  inter_events_ : unordered_map;
  implicit_gates_ : unordered_map;
  primary_events_ : unordered_map;
  basic_events_ : unordered_map;
  house_events_ : unordered_map
}.

(** ** Containers *)

(** [m.count(k)] *)
Definition count (m : list (string * ptr)) (k : string) : bool :=
  existsb (fun e => String.eqb (fst e) k) m.

(** [m.find(k)], [None] for [m.end()] *)
Fixpoint find (m : list (string * ptr)) (k : string) : option ptr :=
  match m with
  | [] => None
  | (k', v) :: m' => if String.eqb k' k then Some v else find m' k
  end.

(** [m.insert(std::make_pair(k, v))]: no effect on a key that is
    present. *)
Definition insert (m : unordered_map) (k : string) (v : ptr) : unordered_map :=
  if count m k then m else (m ++ [(k, v)])%list.

Definition keys (m : list (string * ptr)) : list string := map fst m.

(** [std::set<std::string>::count] and [insert] *)
Definition set_count (s : list string) (k : string) : bool :=
  existsb (String.eqb k) s.

Definition set_insert (s : list string) (k : string) : list string :=
  if set_count s k then s else k :: s.

(** [std::find(path.begin(), path.end(), x)]: the range from the first
    occurrence of [x] to the end, empty when there is none. *)
Fixpoint std_find (path : list string) (x : string) : list string :=
  match path with
  | [] => []
  | y :: rest => if String.eqb y x then path else std_find rest x
  end.

(** ** State and exceptions *)

(** A member function: it reads and writes the tree, and returns or
    throws.  What it wrote before it threw stays written. *)
Definition M (A : Type) : Type := FaultTree -> result A * FaultTree.

Definition ret {A : Type} (a : A) : M A := fun ft => (Ok a, ft).

Definition throw {A : Type} (e : Error) : M A := fun ft => (Throw e, ft).

Definition bind {A B : Type} (c : M A) (k : A -> M B) : M B :=
  fun ft =>
    match c ft with
    | (Ok a, ft') => k a ft'
    | (Throw e, ft') => (Throw e, ft')
    end.

Definition modify (f : FaultTree -> FaultTree) : M unit :=
  fun ft => (Ok tt, f ft).

Notation "c1 ;; c2" := (bind c1 (fun _ => c2))
  (at level 61, right associativity).

(** A [for] loop over a container whose body may throw. *)
Fixpoint for_each {X : Type} (body : X -> M unit) (l : list X) : M unit :=
  match l with
  | [] => ret tt
  | x :: l' => body x ;; for_each body l'
  end.

Definition set_top (gate : ptr) (gate_id : string) (ft : FaultTree) : FaultTree :=
  mkFaultTree (name_ ft) gate_id (Some gate) (inter_events_ ft) (implicit_gates_ ft)
    (primary_events_ ft) (basic_events_ ft) (house_events_ ft).

Definition set_inter_events (m : unordered_map) (ft : FaultTree) : FaultTree :=
  mkFaultTree (name_ ft) (top_event_id_ ft) (top_event_ ft) m (implicit_gates_ ft)
    (primary_events_ ft) (basic_events_ ft) (house_events_ ft).

Definition set_implicit_gates (m : unordered_map) (ft : FaultTree) : FaultTree :=
  mkFaultTree (name_ ft) (top_event_id_ ft) (top_event_ ft) (inter_events_ ft) m
    (primary_events_ ft) (basic_events_ ft) (house_events_ ft).

Definition set_primary_events (m : unordered_map) (ft : FaultTree) : FaultTree :=
  mkFaultTree (name_ ft) (top_event_id_ ft) (top_event_ ft) (inter_events_ ft)
    (implicit_gates_ ft) m (basic_events_ ft) (house_events_ ft).

Definition set_basic_events (m : unordered_map) (ft : FaultTree) : FaultTree :=
  mkFaultTree (name_ ft) (top_event_id_ ft) (top_event_ ft) (inter_events_ ft)
    (implicit_gates_ ft) (primary_events_ ft) m (house_events_ ft).

Definition set_house_events (m : unordered_map) (ft : FaultTree) : FaultTree :=
  mkFaultTree (name_ ft) (top_event_id_ ft) (top_event_ ft) (inter_events_ ft)
    (implicit_gates_ ft) (primary_events_ ft) (basic_events_ ft) m.

(** [FaultTree::FaultTree(std::string name)]: no top event yet, the
    pointer is null. *)
Definition FaultTree_new (name : string) : FaultTree :=
  mkFaultTree name "" None [] [] [] [] [].

(** The line feed of ["...fault tree:\n"]. *)
Definition LF : string := String (ascii_of_nat 10) EmptyString.

(** ** Sample events and trees *)

(** A text for the [LogicError] of [Event::parents()]. *)
Definition parents_text (e : Event) : string :=
  orig_id e ++ " does not have parents.".

(** Scenario 4 of the spec: gate G1 has child G2, G2 has child G1. *)
Definition cyclic_heap : list Event :=
  [ mkEvent "g1" "G1" [("g2", 1)] (Gate [("g2", 1)]);
    mkEvent "g2" "G2" [("g1", 0)] (Gate [("g1", 0)]) ].

Definition cyclic_tree : FaultTree :=
  mkFaultTree "T" "g1" (Some 0) [("g2", 1)] [] [] [] [].

(** Two registered gates, each with an undefined node. *)
Definition two_undefined_heap : list Event :=
  [ mkEvent "top" "Top" [] (Gate [("g1", 1); ("g2", 2)]);
    mkEvent "g1" "G1" [("top", 0)] (Gate [("x", 3)]);
    mkEvent "g2" "G2" [("top", 0)] (Gate [("y", 4)]);
    mkEvent "x" "X" [("g1", 1)] PlainEvent;
    mkEvent "y" "Y" [("g2", 2)] PlainEvent ].

Definition two_undefined_tree : FaultTree :=
  mkFaultTree "T" "top" (Some 0) [("g1", 1); ("g2", 2)] [] [] [] [].

(** A gate that is a child of the top gate and was not registered. *)
Definition implicit_heap : list Event :=
  [ mkEvent "top" "Top" [] (Gate [("b", 2); ("g", 1)]);
    mkEvent "g" "G" [("top", 0)] (Gate [("b", 2)]);
    mkEvent "b" "B" [("g", 1); ("top", 0)] BasicEvent ].

Definition implicit_tree : FaultTree :=
  mkFaultTree "T" "top" (Some 0) [] [] [] [] [].

(** Scenario 5 of the spec: a gate refers to [X], which is not defined. *)
Definition undefined_heap : list Event :=
  [ mkEvent "top" "Top" [] (Gate [("a", 1); ("x", 2)]);
    mkEvent "a" "A" [("top", 0)] BasicEvent;
    mkEvent "x" "X" [("top", 0)] PlainEvent ].

Definition undefined_tree : FaultTree :=
  mkFaultTree "T" "top" (Some 0) [] [] [] [] [].

(** A gate whose identifier is the empty string, and a gate [g]. *)
Definition anonymous_heap : list Event :=
  [ mkEvent "" "" [] (Gate []);
    mkEvent "g" "G" [] (Gate []) ].

(** A gate [s] shared by the two gates [g1] and [g2] of the top gate. *)
Definition shared_heap : list Event :=
  [ mkEvent "top" "Top" [] (Gate [("g1", 1); ("g2", 2)]);
    mkEvent "g1" "G1" [("top", 0)] (Gate [("s", 3)]);
    mkEvent "g2" "G2" [("top", 0)] (Gate [("s", 3)]);
    mkEvent "s" "S" [("g1", 1); ("g2", 2)] (Gate [("b", 4)]);
    mkEvent "b" "B" [("s", 3)] BasicEvent ].

Definition shared_tree : FaultTree :=
  mkFaultTree "T" "top" (Some 0) [("g1", 1); ("g2", 2); ("s", 3)] [] [] [] [].

(** Projections of updated trees. *)
Ltac simpl_ft :=
  cbn [name_ top_event_id_ top_event_ inter_events_ implicit_gates_
       primary_events_ basic_events_ house_events_ set_top set_inter_events
       set_implicit_gates set_primary_events set_basic_events
       set_house_events] in *.

Section Heap.

(** The event objects of the model.  Shared pointers keep their objects
    alive, so every pointer the code follows is an address of this
    list; the model reads any other address as [null_event]. *)
Variable h : list Event.

Definition null_event : Event := mkEvent "" "" [] PlainEvent.

Definition deref (p : ptr) : Event := nth p h null_event.

(** [gate->children()] *)
Definition children (e : Event) : std_map :=
  match kind e with
  | Gate c => c
  | _ => []
  end.

(** [boost::dynamic_pointer_cast<Gate>(p)], [None] for a null result *)
Definition dynamic_cast_Gate (p : ptr) : option ptr :=
  match kind (deref p) with
  | Gate _ => Some p
  | _ => None
  end.

(** [boost::dynamic_pointer_cast<PrimaryEvent>(p)] *)
Definition dynamic_cast_PrimaryEvent (p : ptr) : option ptr :=
  match kind (deref p) with
  | BasicEvent | HouseEvent => Some p
  | _ => None
  end.

(** [boost::dynamic_pointer_cast<BasicEvent>(p)] *)
Definition dynamic_cast_BasicEvent (p : ptr) : option ptr :=
  match kind (deref p) with
  | BasicEvent => Some p
  | _ => None
  end.

(** [boost::dynamic_pointer_cast<HouseEvent>(p)] *)
Definition dynamic_cast_HouseEvent (p : ptr) : option ptr :=
  match kind (deref p) with
  | HouseEvent => Some p
  | _ => None
  end.

(** The text of the [LogicError] that [Event::parents()] raises is not
    in the sources: a parameter. *)
Variable no_parents_msg : Event -> string.

(** [gate->parents()]: the [catch] in [AddGate] and its comment show
    that it throws [LogicError] when the event has no parents. *)
Definition parents (e : Event) : result std_map :=
  match parents_ e with
  | [] => Throw (LogicError (no_parents_msg e))
  | ps => Ok ps
  end.

(** ** [FaultTree::AddGate] *)

Definition AddGate (gate : ptr) : M unit := fun ft =>
  let g := deref gate in
  if String.eqb (top_event_id_ ft) "" then
    (Ok tt, set_top gate (id g) ft)
  else if count (inter_events_ ft) (id g) || String.eqb (id g) (top_event_id_ ft) then
    (Throw (ValidationError
       ("Trying to doubly define a gate '" ++ orig_id g ++ "'.")), ft)
  else
    match parents g with
    | Throw (LogicError err_msg) =>
        (Throw (ValidationError
           ("Gate '" ++ orig_id g ++ "' is a dangling gate in" ++
            " a malformed tree input structure. " ++ err_msg)), ft)
    | Throw e => (Throw e, ft)
    | Ok ps =>
        let parent_found :=
          existsb (fun it =>
            count (inter_events_ ft) (fst it) ||
            String.eqb (top_event_id_ ft) (fst it)) ps in
        if negb parent_found then
          (Throw (ValidationError
             ("Gate '" ++ orig_id g ++ "' has no pre-decleared" ++
              " parent gate in '" ++ name_ ft ++
              "' fault tree. This gate is a dangling gate." ++
              " The tree structure input might be malformed.")), ft)
        else
          (Ok tt, set_inter_events (insert (inter_events_ ft) (id g) gate) ft)
    end.

(** ** [FaultTree::CheckCyclicity] *)

(** The loop that appends ["->" + orig_id] of the gate registered under
    each identifier of the cycle; the [assert] fails on an identifier
    that is not registered. *)
Fixpoint cycle_names (inter : unordered_map) (ids : list string)
    (msg : string) : result string :=
  match ids with
  | [] => Ok msg
  | x :: rest =>
      match find inter x with
      | None => Throw AssertionFailure
      | Some g => cycle_names inter rest (msg ++ ("->" ++ orig_id (deref g)))
      end
  end.

(** The branch of [CheckCyclicity] taken on a visited gate. *)
Definition throw_cycle (parent : ptr) (path : list string) : M unit := fun ft =>
  let msg := "Detected a cyclicity in '" ++ name_ ft ++ "' fault tree:" ++ LF in
  let it := std_find path (id (deref parent)) in
  let msg := msg ++ orig_id (deref parent) in
  match cycle_names (inter_events_ ft) it msg with
  | Ok msg => (Throw (ValidationError msg), ft)
  | Throw e => (Throw e, ft)
  end.

(** The registration of a gate-typed child that is not in
    [inter_events_]. *)
Definition register_implicit (child_gate : ptr) : M unit := fun ft =>
  if negb (count (inter_events_ ft) (id (deref child_gate))) then
    let ft := set_implicit_gates
                (insert (implicit_gates_ ft) (id (deref child_gate)) child_gate) ft in
    (Ok tt, set_inter_events
              (insert (inter_events_ ft) (id (deref child_gate)) child_gate) ft)
  else (Ok tt, ft).

(** [path] and [visited] are passed by value: each call works on its
    own copies, so [visited] holds the gates of the current path only. *)
Fixpoint CheckCyclicity (fuel : nat) (parent : ptr) (path : list string)
    (visited : list string) : M unit :=
  match fuel with
  | O => throw OutOfFuel
  | S fuel' =>
      let path := (path ++ [id (deref parent)])%list in
      if set_count visited (id (deref parent)) then throw_cycle parent path
      else
        let visited := set_insert visited (id (deref parent)) in
        for_each (fun it : string * ptr =>
          match dynamic_cast_Gate (snd it) with
          | Some child_gate =>
              register_implicit child_gate ;;
              CheckCyclicity fuel' child_gate path visited
          | None => ret tt
          end) (children (deref parent))
  end.

(** A call with [top_event_] as the gate: the first thing the callee
    does is to follow the pointer, and [operator->] of a null shared
    pointer fails its assertion. *)
Definition with_top_event (f : ptr -> M unit) : M unit := fun ft =>
  match top_event_ ft with
  | Some top => f top ft
  | None => (Throw AssertionFailure, ft)
  end.

(** ** [FaultTree::GetPrimaryEvents] and [GatherPrimaryEvents] *)

(** The body of the loop of [GetPrimaryEvents]. *)
Definition GetPrimaryEvents_body (it : string * ptr) : M unit := fun ft =>
  if negb (count (inter_events_ ft) (fst it)) then
    match dynamic_cast_PrimaryEvent (snd it) with
    | None =>
        (Throw (ValidationError
           ("Node with id '" ++ orig_id (deref (snd it)) ++
            "' was not defined in '" ++ name_ ft ++ "' tree")), ft)
    | Some primary_event =>
        let ft := set_primary_events
                    (insert (primary_events_ ft) (fst it) primary_event) ft in
        match dynamic_cast_BasicEvent primary_event with
        | Some basic_event =>
            (Ok tt, set_basic_events
                      (insert (basic_events_ ft) (fst it) basic_event) ft)
        | None =>
            match dynamic_cast_HouseEvent primary_event with
            | Some house_event =>
                (Ok tt, set_house_events
                          (insert (house_events_ ft) (fst it) house_event) ft)
            | None => (Throw AssertionFailure, ft)
            end
        end
    end
  else (Ok tt, ft).

Definition GetPrimaryEvents (gate : ptr) : M unit :=
  for_each GetPrimaryEvents_body (children (deref gate)).

(** The order in which [inter_events_] iterates its entries: some
    arrangement of them, fixed by the hash function and the history of
    the container. *)
Variable hash_order : unordered_map -> unordered_map.

Definition GatherPrimaryEvents : M unit :=
  with_top_event GetPrimaryEvents ;;
  fun ft =>
    for_each (fun git => GetPrimaryEvents (snd git))
      (hash_order (inter_events_ ft)) ft.

(** ** [FaultTree::Validate] *)

(** No path without a repeated gate is longer than the number of
    distinct identifiers, so this many nested calls are enough. *)
Definition depth_bound : nat := S (S (List.length h)).

Definition Validate : M unit :=
  with_top_event (fun top => CheckCyclicity depth_bound top [] []) ;;
  modify (set_primary_events []) ;;
  GatherPrimaryEvents.

(** ** The vocabulary of the statements *)

(** The first step of [Validate]: the traversal from the top gate. *)
Definition traverse : M unit :=
  with_top_event (fun top => CheckCyclicity depth_bound top [] []).

(** An identifier the tree knows: a registered gate or the top gate. *)
Definition known (ft : FaultTree) (k : string) : Prop :=
  In k (keys (inter_events_ ft)) \/ k = top_event_id_ ft.

(** The body of the loop over the children. *)
Definition CheckCyclicity_body (fuel : nat) (path visited : list string)
    (it : string * ptr) : M unit :=
  match dynamic_cast_Gate (snd it) with
  | Some child_gate =>
      register_implicit child_gate ;;
      CheckCyclicity fuel child_gate path visited
  | None => ret tt
  end.

(** [p] is a [Gate]. *)
Definition is_gate (p : ptr) : Prop := exists cs, kind (deref p) = Gate cs.

(** [c] is a gate-typed child of [p]. *)
Definition gate_child (p c : ptr) : Prop :=
  (exists k, In (k, c) (children (deref p))) /\ is_gate c.

(** [d] is reached from [p] through one or more gate-typed children:
    the gates the traversal from [p] encounters. *)
Inductive reaches : ptr -> ptr -> Prop :=
| reaches_child (p c : ptr) : gate_child p c -> reaches p c
| reaches_step (p c d : ptr) : gate_child p c -> reaches c d -> reaches p d.

(** An entry that the traversal from [root], started in state [ft], may
    add: a gate it encounters, under that gate's identifier, which
    [inter_events_] of [ft] does not have. *)
Definition implicit_entry (root : ptr) (ft : FaultTree) (e : string * ptr) : Prop :=
  reaches root (snd e) /\ fst e = id (deref (snd e)) /\
  count (inter_events_ ft) (fst e) = false.

(** [ft'] is [ft] with the entries [new] appended to [inter_events_] and
    to [implicit_gates_], and nothing else changed. *)
Definition registered (ft : FaultTree) (new : list (string * ptr))
    (ft' : FaultTree) : Prop :=
  ft' = set_inter_events (inter_events_ ft ++ new)%list
          (set_implicit_gates (implicit_gates_ ft ++ new)%list ft).

(** What the traversal from [root] does to the tree: it registers some
    list of such entries, without repetition. *)
Definition registers (root : ptr) (ft ft' : FaultTree) : Prop :=
  exists new, registered ft new ft' /\
              Forall (implicit_entry root ft) new /\ NoDup (keys new).

(** Every implicit gate is also in [inter_events_]: true of a new tree
    and kept by [AddGate] and [Validate]. *)
Definition implicit_registered (ft : FaultTree) : Prop :=
  incl (keys (implicit_gates_ ft)) (keys (inter_events_ ft)).

(** The members that the traversal leaves alone. *)
Definition same_frame (ft ft' : FaultTree) : Prop :=
  name_ ft' = name_ ft /\ top_event_id_ ft' = top_event_id_ ft /\
  top_event_ ft' = top_event_ ft /\ primary_events_ ft' = primary_events_ ft /\
  basic_events_ ft' = basic_events_ ft /\ house_events_ ft' = house_events_ ft.

(** [inter_events_] only grows, at its end, within the same frame. *)
Definition extends (ft ft' : FaultTree) : Prop :=
  same_frame ft ft' /\
  exists new, inter_events_ ft' = (inter_events_ ft ++ new)%list.

(** Every identifier that [deref] can give. *)
Definition all_ids : list string := id null_event :: map id h.

(** [T] has the name and the registered gates of [ft]. *)
Definition same_index (ft T : FaultTree) : Prop :=
  name_ T = name_ ft /\ inter_events_ T = inter_events_ ft.

(** [T] has the name of [ft] and every identifier registered in [ft]. *)
Definition covers (ft T : FaultTree) : Prop :=
  name_ T = name_ ft /\
  forall k, count (inter_events_ ft) k = true -> count (inter_events_ T) k = true.

(** The states [T] in which a computation that ended in [ft'] with [r]
    is run again. *)
Definition rerun (r : result unit) (ft' T : FaultTree) : Prop :=
  match r with
  | Ok _ => covers ft' T
  | Throw _ => same_index ft' T
  end.

(** Run again in such a state, the computation ends the same way and
    writes nothing. *)
Definition stable (c : M unit) : Prop :=
  forall ft r ft', c ft = (r, ft') -> forall T, rerun r ft' T -> c T = (r, T).

(** What [GetPrimaryEvents] makes of a child: its key is a registered
    gate, or the child is a basic event, a house event, or neither. *)
Inductive child_class : Type := Registered | Basic | House | Undefined.

Definition classify (inter : unordered_map) (it : string * ptr) : child_class :=
  if count inter (fst it) then Registered
  else match kind (deref (snd it)) with
       | BasicEvent => Basic
       | HouseEvent => House
       | _ => Undefined
       end.

(** The diagnostic for an undefined node [c] in the tree [name]. *)
Definition undefined_msg (name : string) (c : ptr) : string :=
  "Node with id '" ++ orig_id (deref c) ++ "' was not defined in '" ++
  name ++ "' tree".

(** The children that [GatherPrimaryEvents] looks at, in its order:
    those of the top gate, then those of every registered gate. *)
Definition gathered_children (ft : FaultTree) : std_map :=
  (match top_event_ ft with
   | Some top => children (deref top)
   | None => []
   end ++
   flat_map (fun git => children (deref (snd git)))
     (hash_order (inter_events_ ft)))%list.

(** The members that [GetPrimaryEvents] leaves alone. *)
Definition gather_frame (ft ft' : FaultTree) : Prop :=
  name_ ft' = name_ ft /\ top_event_id_ ft' = top_event_id_ ft /\
  top_event_ ft' = top_event_ ft /\ inter_events_ ft' = inter_events_ ft /\
  implicit_gates_ ft' = implicit_gates_ ft.

(** An index never loses a key in the loop. *)
Definition keeps_primaries (ft ft' : FaultTree) : Prop :=
  forall k, (count (primary_events_ ft) k = true -> count (primary_events_ ft') k = true) /\
            (count (basic_events_ ft) k = true -> count (basic_events_ ft') k = true) /\
            (count (house_events_ ft) k = true -> count (house_events_ ft') k = true).

(** The state [b] in which the loop that took [a] to [ft1] runs again:
    as [a], but with the basic and house events that the first run
    ended with. *)
Definition again (a b ft1 : FaultTree) : Prop :=
  gather_frame a b /\ primary_events_ b = primary_events_ a /\
  basic_events_ b = basic_events_ ft1 /\ house_events_ b = house_events_ ft1.

(** Gates are told apart by their identifiers. *)
Definition unique_gate_ids : Prop :=
  forall p q, is_gate p -> is_gate q -> id (deref p) = id (deref q) -> p = q.

(** [inter_events_] holds gates, each under its own identifier. *)
Definition well_keyed (ft : FaultTree) : Prop :=
  forall k v, In (k, v) (inter_events_ ft) -> k = id (deref v) /\ is_gate v.

(** A list of gates, each a gate-typed child of the one before it: a
    path that the traversal follows. *)
Inductive chain : list ptr -> Prop :=
| chain_one (p : ptr) : chain [p]
| chain_cons (p c : ptr) (l : list ptr) :
    gate_child p c -> chain (c :: l) -> chain (p :: c :: l).

(** The identifiers along a path. *)
Definition ids (l : list ptr) : list string := map (fun p => id (deref p)) l.

(** The original identifier of the gate registered under [x]. *)
Definition registered_orig_id (ft : FaultTree) (x : string) : string :=
  match find (inter_events_ ft) x with
  | Some g => orig_id (deref g)
  | None => ""
  end.

(** The diagnostic as the claim words it: the name of the repeated
    gate, then the identifiers of [cycle] joined by arrows. *)
Definition cycle_msg (ft : FaultTree) (parent : ptr) (cycle : list string) : string :=
  "Detected a cyclicity in '" ++ name_ ft ++ "' fault tree:" ++ LF ++
  orig_id (deref parent) ++ "->" ++
  String.concat "->" (map (registered_orig_id ft) cycle).

(** What the loop of [cycle_names] appends. *)
Fixpoint arrows (names : list string) : string :=
  match names with
  | [] => ""
  | n :: rest => "->" ++ n ++ arrows rest
  end.

(** What a traversal that threw has found: a path that continues
    [start] and ends in a gate [parent] whose identifier is that of an
    earlier gate [first] of the path, with no repetition before
    [parent]; every identifier from [first] on is registered, and the
    exception is the cyclicity diagnostic for them. *)
Definition cycle_found (start : list ptr) (e : Error) (ft' : FaultTree) : Prop :=
  exists pre first mid parent more,
    (start ++ more = pre ++ first :: mid ++ [parent])%list /\
    chain (pre ++ first :: mid ++ [parent])%list /\
    id (deref first) = id (deref parent) /\
    NoDup (ids (pre ++ first :: mid)) /\
    (forall x, In x (ids (first :: mid ++ [parent])) ->
               count (inter_events_ ft') x = true) /\
    e = ValidationError (cycle_msg ft' parent (ids (first :: mid ++ [parent]))).

(** What [AddGate] alone leaves of a tree: [inter_events_] is empty as
    long as there is no top identifier; the top pointer is the gate
    that gave the top identifier; and every registered gate is stored
    under its own identifier, which is not the top identifier, and has
    a parent that is the top gate or a registered gate. *)
Definition declared (ft : FaultTree) : Prop :=
  (top_event_id_ ft = "" -> inter_events_ ft = []) /\
  match top_event_ ft with
  | Some top => top_event_id_ ft = id (deref top)
  | None => top_event_id_ ft = ""
  end /\
  forall k g, In (k, g) (inter_events_ ft) ->
    k = id (deref g) /\ k <> top_event_id_ ft /\
    exists kp p, In (kp, p) (parents_ (deref g)) /\ known ft kp.

(** ** Facts about the containers *)

Lemma count_In (m : list (string * ptr)) (k : string) :
  count m k = true <-> In k (keys m).
Proof.
  unfold count, keys. rewrite existsb_exists, in_map_iff. split.
  - intros ([k' v] & Hin & Heq). apply String.eqb_eq in Heq. cbn in Heq. subst.
    now exists (k, v).
  - intros ([k' v] & Heq & Hin). cbn in Heq. subst.
    exists (k, v). split; [exact Hin|apply String.eqb_refl].
Qed.

Lemma count_false_In (m : list (string * ptr)) (k : string) :
  count m k = false <-> ~ In k (keys m).
Proof.
  rewrite <- count_In. destruct (count m k); split; congruence.
Qed.

Lemma count_app (m1 m2 : list (string * ptr)) (k : string) :
  count (m1 ++ m2)%list k = count m1 k || count m2 k.
Proof. unfold count. apply existsb_app. Qed.

Lemma find_app (m1 m2 : list (string * ptr)) (k : string) :
  find (m1 ++ m2)%list k =
  match find m1 k with Some v => Some v | None => find m2 k end.
Proof.
  induction m1 as [|[k' v] m1 IH]; [reflexivity|].
  cbn. destruct (String.eqb k' k); [reflexivity|exact IH].
Qed.

Lemma find_count (m : list (string * ptr)) (k : string) :
  count m k = true <-> exists v, find m k = Some v.
Proof.
  induction m as [|[k' v] m IH]; cbn.
  - split; [discriminate|intros (v & Hv); discriminate].
  - destruct (String.eqb k' k); cbn; [|exact IH].
    split; [now exists v|reflexivity].
Qed.

Lemma find_In (m : list (string * ptr)) (k : string) (v : ptr) :
  find m k = Some v -> In (k, v) m.
Proof.
  induction m as [|[k' v'] m IH]; cbn; [discriminate|].
  destruct (String.eqb k' k) eqn:E.
  - apply String.eqb_eq in E. intros [= ->]. subst. now left.
  - intros H. right. now apply IH.
Qed.

Lemma insert_present (m : unordered_map) (k : string) (v : ptr) :
  count m k = true -> insert m k v = m.
Proof. unfold insert. now intros ->. Qed.

Lemma insert_absent (m : unordered_map) (k : string) (v : ptr) :
  count m k = false -> insert m k v = (m ++ [(k, v)])%list.
Proof. unfold insert. now intros ->. Qed.

Lemma count_insert (m : unordered_map) (k k' : string) (v : ptr) :
  count (insert m k v) k' = count m k' || String.eqb k k'.
Proof.
  unfold insert. destruct (count m k) eqn:E.
  - destruct (String.eqb k k') eqn:E'; [|now rewrite orb_false_r].
    apply String.eqb_eq in E'. subst. now rewrite E.
  - rewrite count_app. cbn. now rewrite orb_false_r.
Qed.

Lemma count_insert_same (m : unordered_map) (k : string) (v : ptr) :
  count (insert m k v) k = true.
Proof. rewrite count_insert, String.eqb_refl. apply orb_true_r. Qed.

Lemma insert_insert (m : unordered_map) (k : string) (v v' : ptr) :
  insert (insert m k v) k v' = insert m k v.
Proof. apply insert_present, count_insert_same. Qed.

Lemma set_count_In (s : list string) (k : string) :
  set_count s k = true <-> In k s.
Proof.
  unfold set_count. rewrite existsb_exists. split.
  - intros (x & Hin & Heq). apply String.eqb_eq in Heq. now subst.
  - intros Hin. exists k. split; [exact Hin|apply String.eqb_refl].
Qed.

Lemma set_count_false (s : list string) (k : string) :
  set_count s k = false <-> ~ In k s.
Proof.
  rewrite <- set_count_In. destruct (set_count s k); split; congruence.
Qed.

Lemma set_insert_In (s : list string) (k x : string) :
  In x (set_insert s k) <-> x = k \/ In x s.
Proof.
  unfold set_insert. destruct (set_count s k) eqn:E; cbn.
  - apply set_count_In in E. split; [now right|]. intros [->|H]; assumption.
  - split; intros [H|H]; auto.
Qed.

(** ** Facts about the monad and the loop *)

Lemma bind_Ok {A B : Type} (c : M A) (k : A -> M B) (ft ft1 : FaultTree) (a : A) :
  c ft = (Ok a, ft1) -> bind c k ft = k a ft1.
Proof. unfold bind. now intros ->. Qed.

Lemma bind_Throw {A B : Type} (c : M A) (k : A -> M B) (ft ft1 : FaultTree)
    (e : Error) :
  c ft = (Throw e, ft1) -> bind c k ft = (Throw e, ft1).
Proof. unfold bind. now intros ->. Qed.

(** What a sequence returned tells about its two parts. *)
Lemma bind_inv {A B : Type} (c : M A) (k : A -> M B) (ft ft2 : FaultTree)
    (r : result B) :
  bind c k ft = (r, ft2) ->
  (exists a ft1, c ft = (Ok a, ft1) /\ k a ft1 = (r, ft2)) \/
  (exists e, c ft = (Throw e, ft2) /\ r = Throw e).
Proof.
  unfold bind. destruct (c ft) as [[a|e] ft1]; intros H.
  - left. now exists a, ft1.
  - right. exists e. now inversion H.
Qed.

Lemma for_each_cons {X : Type} (body : X -> M unit) (x : X) (l : list X) :
  for_each body (x :: l) = (body x ;; for_each body l).
Proof. reflexivity. Qed.

Lemma for_each_app {X : Type} (body : X -> M unit) (l1 l2 : list X)
    (ft : FaultTree) :
  for_each body (l1 ++ l2)%list ft = (for_each body l1 ;; for_each body l2) ft.
Proof.
  revert ft. induction l1 as [|x l1 IH]; intros ft.
  - reflexivity.
  - cbn [for_each app]. unfold bind.
    destruct (body x ft) as [[[]|e] ft1]; [|reflexivity].
    rewrite IH. reflexivity.
Qed.

(** The rule of the loop: an invariant [I] of the states between two
    rounds, and what holds of a state in which a round threw. *)
Lemma for_each_rule {X : Type} (I : FaultTree -> Prop)
    (E : Error -> FaultTree -> Prop) (body : X -> M unit) (l : list X) :
  (forall x ft r ft', In x l -> I ft -> body x ft = (r, ft') ->
     match r with Ok _ => I ft' | Throw e => E e ft' end) ->
  forall ft r ft', I ft -> for_each body l ft = (r, ft') ->
     match r with Ok _ => I ft' | Throw e => E e ft' end.
Proof.
  induction l as [|x l IH]; intros Hbody ft r ft' HI Hrun.
  - cbn in Hrun. inversion Hrun; subst. exact HI.
  - rewrite for_each_cons in Hrun.
    apply bind_inv in Hrun as [([] & ft1 & Hx & Hrest)|(e & Hx & ->)].
    + apply (IH (fun y a b c Hy => Hbody y a b c (or_intror Hy)) ft1); [|exact Hrest].
      exact (Hbody x ft (Ok tt) ft1 (or_introl eq_refl) HI Hx).
    + exact (Hbody x ft (Throw e) ft' (or_introl eq_refl) HI Hx).
Qed.

(** A loop that returned ran every round to its end. *)
Lemma for_each_Ok_rounds {X : Type} (body : X -> M unit) (l : list X)
    (ft ft' : FaultTree) :
  for_each body l ft = (Ok tt, ft') ->
  forall x, In x l -> exists fta ftb, body x fta = (Ok tt, ftb).
Proof.
  revert ft. induction l as [|y l IH]; intros ft Hrun x Hx; [easy|].
  rewrite for_each_cons in Hrun.
  apply bind_inv in Hrun as [([] & ft1 & Hy & Hrest)|(e & _ & He)]; [|discriminate].
  destruct Hx as [->|Hx]; [now exists ft, ft1|].
  now apply (IH ft1).
Qed.

(** ** [AddGate] *)

Lemma known_test (ft : FaultTree) (k : string) :
  count (inter_events_ ft) k || String.eqb k (top_event_id_ ft) = true <->
  known ft k.
Proof.
  unfold known. rewrite orb_true_iff, count_In, String.eqb_eq. reflexivity.
Qed.

Lemma parent_found_iff (ft : FaultTree) (ps : std_map) :
  existsb (fun it => count (inter_events_ ft) (fst it) ||
                     String.eqb (top_event_id_ ft) (fst it)) ps = true <->
  exists k p, In (k, p) ps /\ known ft k.
Proof.
  rewrite existsb_exists. split.
  - intros ([k p] & Hin & Ht). exists k, p. split; [exact Hin|].
    apply known_test. cbn in Ht. now rewrite String.eqb_sym.
  - intros (k & p & Hin & Hk). exists (k, p). split; [exact Hin|].
    apply known_test in Hk. cbn. now rewrite String.eqb_sym.
Qed.

(** C5, as the code has it: "no gate added yet" is the test
    [top_event_id_ == ""].  On a tree that passes it, in particular on a
    new tree, [AddGate] makes the gate the top event: [top_event_] is
    the gate, [top_event_id_] its identifier, and no other member
    changes.  On a tree whose top identifier is not empty the top event
    is never replaced; a gate whose identifier is the top's or a
    registered one is rejected as doubly defined; a gate without
    parents, or none of whose parents is the top or registered, is
    rejected as dangling; any other gate is appended to [inter_events_]
    under its identifier, and no other member changes.  A rejected gate
    leaves the tree as it was. *)
Theorem AddGate_spec (ft : FaultTree) (gate : ptr) :
  let g := deref gate in
  (forall name, AddGate gate (FaultTree_new name) =
                (Ok tt, mkFaultTree name (id g) (Some gate) [] [] [] [] [])) /\
  (top_event_id_ ft = "" ->
   AddGate gate ft =
   (Ok tt, mkFaultTree (name_ ft) (id g) (Some gate) (inter_events_ ft)
             (implicit_gates_ ft) (primary_events_ ft) (basic_events_ ft)
             (house_events_ ft))) /\
  (top_event_id_ ft <> "" ->
   (forall r ft', AddGate gate ft = (r, ft') ->
      top_event_id_ ft' = top_event_id_ ft /\ top_event_ ft' = top_event_ ft) /\
   (known ft (id g) ->
    AddGate gate ft =
    (Throw (ValidationError
       ("Trying to doubly define a gate '" ++ orig_id g ++ "'.")), ft)) /\
   (~ known ft (id g) -> parents_ g = [] ->
    AddGate gate ft =
    (Throw (ValidationError
       ("Gate '" ++ orig_id g ++ "' is a dangling gate in" ++
        " a malformed tree input structure. " ++ no_parents_msg g)), ft)) /\
   (~ known ft (id g) -> parents_ g <> [] ->
    (forall k p, In (k, p) (parents_ g) -> ~ known ft k) ->
    AddGate gate ft =
    (Throw (ValidationError
       ("Gate '" ++ orig_id g ++ "' has no pre-decleared" ++
        " parent gate in '" ++ name_ ft ++
        "' fault tree. This gate is a dangling gate." ++
        " The tree structure input might be malformed.")), ft)) /\
   (~ known ft (id g) ->
    (exists k p, In (k, p) (parents_ g) /\ known ft k) ->
    AddGate gate ft =
    (Ok tt, mkFaultTree (name_ ft) (top_event_id_ ft) (top_event_ ft)
              (inter_events_ ft ++ [(id g, gate)])%list (implicit_gates_ ft)
              (primary_events_ ft) (basic_events_ ft) (house_events_ ft)))).
Proof.
  intros g. unfold AddGate. fold g.
  split; [reflexivity|].
  split; [intros ->; reflexivity|].
  intros Htop. apply String.eqb_neq in Htop. rewrite Htop.
  split; [|split; [|split; [|split]]].
  - intros r ft'.
    destruct (_ || _); [intros [= <- <-]; now split|].
    destruct (parents g) as [ps|[]]; try (intros [= <- <-]; now split).
    destruct (negb _); intros [= <- <-]; now split.
  - intros Hk. apply known_test in Hk. now rewrite Hk.
  - intros Hk Hps.
    rewrite <- known_test in Hk. apply not_true_is_false in Hk. rewrite Hk.
    unfold parents. now rewrite Hps.
  - intros Hk Hne Hps.
    rewrite <- known_test in Hk. apply not_true_is_false in Hk. rewrite Hk.
    unfold parents. destruct (parents_ g) as [|q ps] eqn:Eps; [congruence|].
    destruct (existsb _ (q :: ps)) eqn:Ex.
    + apply parent_found_iff in Ex as (k & p & Hin & Hkn).
      now destruct (Hps k p Hin).
    + reflexivity.
  - intros Hk Hps.
    rewrite <- known_test in Hk. apply not_true_is_false in Hk. rewrite Hk.
    apply orb_false_iff in Hk as [Hcount _].
    unfold parents. destruct (parents_ g) as [|q ps] eqn:Eps.
    + destruct Hps as (k & p & [] & _).
    + apply parent_found_iff in Hps. rewrite Hps. cbn [negb].
      now rewrite (insert_absent _ _ _ Hcount).
Qed.

(** ** [CheckCyclicity]: what it registers *)

Lemma CheckCyclicity_S (fuel : nat) (parent : ptr) (path visited : list string) :
  CheckCyclicity (S fuel) parent path visited =
  if set_count visited (id (deref parent)) then
    throw_cycle parent (path ++ [id (deref parent)])%list
  else
    for_each
      (CheckCyclicity_body fuel (path ++ [id (deref parent)])%list
         (set_insert visited (id (deref parent))))
      (children (deref parent)).
Proof. reflexivity. Qed.

Lemma throw_cycle_state (parent : ptr) (path : list string) (ft : FaultTree) :
  exists e, throw_cycle parent path ft = (Throw e, ft).
Proof.
  unfold throw_cycle. destruct (cycle_names _ _ _); eexists; reflexivity.
Qed.

Lemma dynamic_cast_Gate_Some (p q : ptr) :
  dynamic_cast_Gate p = Some q <-> q = p /\ is_gate p.
Proof.
  unfold dynamic_cast_Gate, is_gate.
  destruct (kind (deref p)); split;
    try discriminate; try (intros [_ [cs Hcs]]; discriminate).
  - intros [= <-]. split; [reflexivity|now eexists].
  - now intros [-> _].
Qed.

Lemma reaches_trans (p c d : ptr) : reaches p c -> reaches c d -> reaches p d.
Proof.
  induction 1 as [p c Hc|p c c' Hc _ IH]; intros Hd.
  - now apply reaches_step with c.
  - apply reaches_step with c; [exact Hc|now apply IH].
Qed.

Lemma registers_refl (root : ptr) (ft : FaultTree) : registers root ft ft.
Proof.
  exists []. split; [|split; constructor].
  unfold registered. rewrite !app_nil_r. now destruct ft.
Qed.

Lemma registers_implicit_registered (root : ptr) (ft ft' : FaultTree) :
  implicit_registered ft -> registers root ft ft' -> implicit_registered ft'.
Proof.
  intros Hi (new & -> & _). unfold implicit_registered, keys in *. cbn.
  rewrite !map_app. intros x Hx. apply in_app_iff in Hx as [Hx|Hx];
    apply in_app_iff; [left; now apply Hi|now right].
Qed.

Lemma registers_trans (root mid : ptr) (ft ft1 ft2 : FaultTree) :
  (forall d, reaches mid d -> reaches root d) ->
  registers root ft ft1 -> registers mid ft1 ft2 -> registers root ft ft2.
Proof.
  intros Hreach (new1 & -> & Hall1 & Hnd1) (new2 & -> & Hall2 & Hnd2).
  exists (new1 ++ new2)%list. split; [|split].
  - unfold registered. simpl_ft. now rewrite !app_assoc.
  - apply Forall_app. split; [exact Hall1|].
    eapply Forall_impl; [|exact Hall2].
    intros e (Hr & Hid & Hc). simpl_ft. rewrite count_app in Hc.
    apply orb_false_iff in Hc as [Hc _]. repeat split; auto.
  - unfold keys. rewrite map_app. apply NoDup_app; [exact Hnd1|exact Hnd2|].
    intros x Hx1 Hx2. rewrite Forall_forall in Hall2.
    apply in_map_iff in Hx2 as (e & <- & He).
    destruct (Hall2 e He) as (_ & _ & Hc). simpl_ft. rewrite count_app in Hc.
    apply orb_false_iff in Hc as [_ Hc]. apply count_false_In in Hc.
    now apply Hc.
Qed.

(** One registration, as [CheckCyclicity] does it for the child [c] of
    [p]. *)
Lemma register_implicit_registers (p c : ptr) (ft : FaultTree) :
  implicit_registered ft -> gate_child p c ->
  exists ft', register_implicit c ft = (Ok tt, ft') /\ registers p ft ft' /\
              count (inter_events_ ft') (id (deref c)) = true.
Proof.
  intros Hi Hc. unfold register_implicit.
  destruct (count (inter_events_ ft) (id (deref c))) eqn:E; cbn [negb].
  - exists ft. split; [reflexivity|]. split; [apply registers_refl|exact E].
  - eexists. split; [reflexivity|]. split.
    + exists [(id (deref c), c)]. split; [|split].
      * unfold registered. cbn.
        rewrite (insert_absent (inter_events_ ft)) by exact E.
        rewrite insert_absent; [reflexivity|].
        apply count_false_In. intros Hin. apply Hi in Hin.
        now apply count_false_In in E.
      * constructor; [|constructor]. repeat split; cbn; auto.
        now apply reaches_child.
      * cbn. constructor; [easy|constructor].
    + cbn. apply count_insert_same.
Qed.

Lemma CheckCyclicity_registers (fuel : nat) :
  forall (parent : ptr) (path visited : list string) (ft ft' : FaultTree)
         (r : result unit),
  implicit_registered ft ->
  CheckCyclicity fuel parent path visited ft = (r, ft') ->
  registers parent ft ft'.
Proof.
  induction fuel as [|fuel IH]; intros parent path visited ft ft' r Hi Hrun.
  - cbn in Hrun. inversion Hrun; subst. apply registers_refl.
  - rewrite CheckCyclicity_S in Hrun.
    destruct (set_count visited (id (deref parent))).
    + destruct (throw_cycle_state parent (path ++ [id (deref parent)])%list ft)
        as (e & He).
      rewrite He in Hrun. inversion Hrun; subst. apply registers_refl.
    + pose (I := fun s => implicit_registered s /\ registers parent ft s).
      assert (Hbody : forall x s r1 s1, In x (children (deref parent)) -> I s ->
                CheckCyclicity_body fuel (path ++ [id (deref parent)])%list
                  (set_insert visited (id (deref parent))) x s = (r1, s1) ->
                match r1 with Ok _ => I s1 | Throw _ => I s1 end).
      { intros [k c] s r1 s1 Hin [Hs Hreg] Hbody.
        unfold CheckCyclicity_body in Hbody. cbn [snd] in Hbody.
        destruct (dynamic_cast_Gate c) as [c'|] eqn:Hcast.
        - apply dynamic_cast_Gate_Some in Hcast as [-> Hgate].
          assert (Hchild : gate_child parent c) by (split; [now exists k|exact Hgate]).
          destruct (register_implicit_registers parent c s Hs Hchild)
            as (s2 & Hr2 & Hreg2 & _).
          rewrite (bind_Ok _ _ _ _ _ Hr2) in Hbody.
          assert (Hs2 : implicit_registered s2)
            by (eapply registers_implicit_registered; eauto).
          pose proof (IH c _ _ s2 s1 r1 Hs2 Hbody) as Hreg3.
          assert (I s1).
          { split; [eapply registers_implicit_registered; eauto|].
            apply registers_trans with (mid := c) (ft1 := s2).
            - intros d Hd. now apply reaches_step with c.
            - apply registers_trans with (mid := parent) (ft1 := s); auto.
            - exact Hreg3. }
          now destruct r1.
        - inversion Hbody; subst. now split. }
      pose proof (for_each_rule I (fun _ => I) _ _ Hbody ft r ft'
                    (conj Hi (registers_refl parent ft)) Hrun) as Hgoal.
      destruct r; apply Hgoal.
Qed.

Lemma same_frame_refl (ft : FaultTree) : same_frame ft ft.
Proof. repeat split. Qed.

Lemma same_frame_trans (ft ft1 ft2 : FaultTree) :
  same_frame ft ft1 -> same_frame ft1 ft2 -> same_frame ft ft2.
Proof.
  intros (A1 & A2 & A3 & A4 & A5 & A6) (B1 & B2 & B3 & B4 & B5 & B6).
  repeat split; congruence.
Qed.

Lemma extends_refl (ft : FaultTree) : extends ft ft.
Proof. split; [apply same_frame_refl|]. exists []. now rewrite app_nil_r. Qed.

Lemma extends_trans (ft ft1 ft2 : FaultTree) :
  extends ft ft1 -> extends ft1 ft2 -> extends ft ft2.
Proof.
  intros [Hn1 [new1 H1]] [Hn2 [new2 H2]].
  split; [now apply same_frame_trans with ft1|].
  exists (new1 ++ new2)%list. now rewrite H2, H1, app_assoc.
Qed.

Lemma extends_count (ft ft' : FaultTree) (k : string) :
  extends ft ft' -> count (inter_events_ ft) k = true ->
  count (inter_events_ ft') k = true.
Proof. intros [_ [new ->]] H. now rewrite count_app, H. Qed.

Lemma extends_find (ft ft' : FaultTree) (k : string) (v : ptr) :
  extends ft ft' -> find (inter_events_ ft) k = Some v ->
  find (inter_events_ ft') k = Some v.
Proof. intros [_ [new ->]] H. now rewrite find_app, H. Qed.

Lemma register_implicit_extends (c : ptr) (ft : FaultTree) :
  exists ft', register_implicit c ft = (Ok tt, ft') /\ extends ft ft' /\
              count (inter_events_ ft') (id (deref c)) = true.
Proof.
  unfold register_implicit.
  destruct (count (inter_events_ ft) (id (deref c))) eqn:E; cbn [negb].
  - exists ft. split; [reflexivity|]. split; [apply extends_refl|exact E].
  - eexists. split; [reflexivity|]. split.
    + split; [repeat split|]. simpl_ft. exists [(id (deref c), c)].
      now apply insert_absent.
    + simpl_ft. apply count_insert_same.
Qed.

(** The loop rule for a relation between the state before and after. *)
Lemma for_each_extends {X : Type} (body : X -> M unit) (l : list X) :
  (forall x ft r ft', In x l -> body x ft = (r, ft') -> extends ft ft') ->
  forall ft r ft', for_each body l ft = (r, ft') -> extends ft ft'.
Proof.
  intros Hbody ft r ft' Hrun.
  pose proof (for_each_rule (extends ft) (fun _ => extends ft) body l) as Hrule.
  assert (H : match r with Ok _ => extends ft ft' | Throw _ => extends ft ft' end).
  { apply Hrule with (ft := ft); [|apply extends_refl|exact Hrun].
    intros x s r1 s1 Hin Hs Hx. pose proof (Hbody x s r1 s1 Hin Hx).
    destruct r1; now apply extends_trans with s. }
  now destruct r.
Qed.

Lemma CheckCyclicity_body_inv (fuel : nat) (path visited : list string)
    (k : string) (c : ptr) (ft ft' : FaultTree) (r : result unit) :
  CheckCyclicity_body fuel path visited (k, c) ft = (r, ft') ->
  (~ is_gate c /\ r = Ok tt /\ ft' = ft) \/
  (is_gate c /\ exists ft1, register_implicit c ft = (Ok tt, ft1) /\
                 CheckCyclicity fuel c path visited ft1 = (r, ft')).
Proof.
  unfold CheckCyclicity_body. cbn [snd].
  destruct (dynamic_cast_Gate c) as [c'|] eqn:Hcast; intros Hrun.
  - apply dynamic_cast_Gate_Some in Hcast as [-> Hg]. right. split; [exact Hg|].
    destruct (register_implicit_extends c ft) as (ft1 & H1 & _).
    exists ft1. split; [exact H1|]. now rewrite (bind_Ok _ _ _ _ _ H1) in Hrun.
  - left. inversion Hrun; subst. split; [|now split].
    intros Hg. assert (dynamic_cast_Gate c = Some c) as Hc
      by now apply dynamic_cast_Gate_Some. congruence.
Qed.

Lemma CheckCyclicity_extends (fuel : nat) :
  forall (parent : ptr) (path visited : list string) (ft ft' : FaultTree)
         (r : result unit),
  CheckCyclicity fuel parent path visited ft = (r, ft') -> extends ft ft'.
Proof.
  induction fuel as [|fuel IH]; intros parent path visited ft ft' r Hrun.
  - cbn in Hrun. inversion Hrun; subst. apply extends_refl.
  - rewrite CheckCyclicity_S in Hrun.
    destruct (set_count visited (id (deref parent))).
    + destruct (throw_cycle_state parent (path ++ [id (deref parent)])%list ft)
        as (e & He).
      rewrite He in Hrun. inversion Hrun; subst. apply extends_refl.
    + apply for_each_extends in Hrun; [exact Hrun|].
      intros [k c] s r1 s1 _ Hbody.
      apply CheckCyclicity_body_inv in Hbody
        as [(_ & _ & ->)|(_ & s2 & Hreg & Hrec)]; [apply extends_refl|].
      destruct (register_implicit_extends c s) as (s2' & Hreg' & Hext & _).
      assert (s2' = s2) by congruence. subst s2'.
      apply extends_trans with s2; [exact Hext|]. now apply IH in Hrec.
Qed.

(** A loop that returned ran every round to its end, between states
    that the start extends to and that extend to the end. *)
Lemma for_each_Ok_between {X : Type} (body : X -> M unit) (l : list X) :
  (forall x ft r ft', In x l -> body x ft = (r, ft') -> extends ft ft') ->
  forall ft ft', for_each body l ft = (Ok tt, ft') ->
  forall x, In x l ->
  exists fta ftb, extends ft fta /\ body x fta = (Ok tt, ftb) /\ extends ftb ft'.
Proof.
  induction l as [|y l IH]; intros Hbody ft ft' Hrun x Hx; [easy|].
  rewrite for_each_cons in Hrun.
  apply bind_inv in Hrun as [([] & ft1 & Hy & Hrest)|(e & _ & He)]; [|discriminate].
  assert (Hext1 : extends ft ft1)
    by (apply (Hbody y ft (Ok tt) ft1 (or_introl eq_refl) Hy)).
  assert (Hbody' : forall x ft r ft', In x l -> body x ft = (r, ft') -> extends ft ft')
    by (intros z a b c Hz Hrz; apply (Hbody z a b c (or_intror Hz) Hrz)).
  destruct Hx as [->|Hx].
  - exists ft, ft1. split; [apply extends_refl|]. split; [exact Hy|].
    eapply for_each_extends; eassumption.
  - destruct (IH Hbody' ft1 ft' Hrest x Hx) as (fta & ftb & Ha & Hb & Hc).
    exists fta, ftb. split; [now apply extends_trans with ft1|now split].
Qed.

Lemma CheckCyclicity_body_extends (fuel : nat) (path visited : list string)
    (x : string * ptr) (ft ft' : FaultTree) (r : result unit) :
  CheckCyclicity_body fuel path visited x ft = (r, ft') -> extends ft ft'.
Proof.
  destruct x as [k c]. intros Hbody.
  apply CheckCyclicity_body_inv in Hbody
    as [(_ & _ & ->)|(_ & s2 & Hreg & Hrec)]; [apply extends_refl|].
  destruct (register_implicit_extends c ft) as (s2' & Hreg' & Hext & _).
  assert (s2' = s2) by congruence. subst s2'.
  apply extends_trans with s2; [exact Hext|].
  now apply CheckCyclicity_extends in Hrec.
Qed.

(** A traversal from [p] that returned has registered every gate that
    is reached from [p]. *)
Lemma CheckCyclicity_Ok_registered (fuel : nat) :
  forall (p : ptr) (path visited : list string) (ft ft' : FaultTree),
  CheckCyclicity fuel p path visited ft = (Ok tt, ft') ->
  forall d, reaches p d -> count (inter_events_ ft') (id (deref d)) = true.
Proof.
  induction fuel as [|fuel IH]; intros p path visited ft ft' Hrun d Hd;
    [discriminate|].
  rewrite CheckCyclicity_S in Hrun.
  destruct (set_count visited (id (deref p))).
  { destruct (throw_cycle_state p (path ++ [id (deref p)])%list ft) as (e & He).
    congruence. }
  assert (Hround : forall k c, In (k, c) (children (deref p)) -> is_gate c ->
            exists s2 ftb, count (inter_events_ s2) (id (deref c)) = true /\
              CheckCyclicity fuel c (path ++ [id (deref p)])%list
                (set_insert visited (id (deref p))) s2 = (Ok tt, ftb) /\
              extends s2 ftb /\ extends ftb ft').
  { intros k c Hin Hg.
    destruct (for_each_Ok_between _ _
                (fun x a b c' _ H => CheckCyclicity_body_extends _ _ _ x a c' b H)
                ft ft' Hrun (k, c) Hin) as (fta & ftb & _ & Hbody & Hext).
    apply CheckCyclicity_body_inv in Hbody
      as [(Hng & _)|(_ & s2 & Hreg & Hrec)]; [contradiction|].
    destruct (register_implicit_extends c fta) as (s2' & Hreg' & _ & Hcnt).
    assert (s2' = s2) by congruence. subst s2'.
    exists s2, ftb. split; [exact Hcnt|]. split; [exact Hrec|].
    split; [now apply CheckCyclicity_extends in Hrec|exact Hext]. }
  destruct Hd as [p c [[k Hin] Hg]|p c d [[k Hin] Hg] Hcd].
  - destruct (Hround k c Hin Hg) as (s2 & ftb & Hcnt & _ & H1 & H2).
    eapply extends_count; [exact H2|]. eapply extends_count; eassumption.
  - destruct (Hround k c Hin Hg) as (s2 & ftb & _ & Hrec & _ & H2).
    eapply extends_count; [exact H2|]. eapply IH; eassumption.
Qed.

Lemma reaches_is_gate (p d : ptr) : reaches p d -> is_gate d.
Proof. induction 1 as [p c [_ Hg]|]; assumption. Qed.

(** A round of the loop on a gate-typed child [c] leaves [c] registered,
    however the traversal of [c] ends. *)
Lemma CheckCyclicity_body_registers (fuel : nat) (path visited : list string)
    (k : string) (c : ptr) (s s1 : FaultTree) (r1 : result unit) :
  is_gate c -> implicit_registered s ->
  CheckCyclicity_body fuel path visited (k, c) s = (r1, s1) ->
  In (id (deref c)) (keys (inter_events_ s1)) /\
  (~ In (id (deref c)) (keys (inter_events_ s)) ->
   In (id (deref c)) (keys (implicit_gates_ s1))).
Proof.
  intros Hg Hi Hbody.
  apply CheckCyclicity_body_inv in Hbody
    as [(Hng & _)|(_ & s2 & Hreg & Hrec)]; [contradiction|].
  assert (H2 : implicit_registered s2 /\
               In (id (deref c)) (keys (inter_events_ s2)) /\
               (~ In (id (deref c)) (keys (inter_events_ s)) ->
                In (id (deref c)) (keys (implicit_gates_ s2)))).
  { unfold register_implicit in Hreg.
    destruct (count (inter_events_ s) (id (deref c))) eqn:E; cbn [negb] in Hreg;
      inversion Hreg; subst s2; clear Hreg.
    - apply count_In in E. split; [exact Hi|]. split; [exact E|contradiction].
    - assert (Ei : count (implicit_gates_ s) (id (deref c)) = false).
      { apply count_false_In. intros Hin. apply Hi in Hin.
        now apply count_false_In in E. }
      unfold implicit_registered in *. simpl_ft.
      rewrite (insert_absent _ _ _ E), (insert_absent _ _ _ Ei).
      unfold keys in *. rewrite !map_app. cbn [map fst].
      split; [|split].
      + intros x Hx. apply in_app_iff in Hx as [Hx|Hx]; apply in_app_iff;
          [left; now apply Hi|now right].
      + apply in_app_iff. right. now left.
      + intros _. apply in_app_iff. right. now left. }
  destruct H2 as (Hi2 & Hin2 & Himp2).
  destruct (CheckCyclicity_registers _ _ _ _ _ _ _ Hi2 Hrec) as (new & -> & _).
  simpl_ft. unfold keys in *. rewrite !map_app. split.
  - apply in_app_iff. now left.
  - intros Hn. apply in_app_iff. left. now apply Himp2.
Qed.

(** C7: whatever way it ends, [CheckCyclicity] appends one and the same
    list of entries to [inter_events_] and to [implicit_gates_] and
    changes nothing else; each entry is a gate that the traversal
    encounters, under its own identifier, which [inter_events_] did not
    have, and no identifier is added twice.  When the traversal returns,
    every gate it encountered is in [inter_events_], and in
    [implicit_gates_] as well if it was not registered before.  Round
    by round: the round of a gate-typed child leaves it registered
    however it ends, and the round of any other child changes
    nothing. *)
Theorem CheckCyclicity_implicit_gates (fuel : nat) (parent : ptr)
    (path visited : list string) (ft ft' : FaultTree) (r : result unit) :
  implicit_registered ft ->
  CheckCyclicity fuel parent path visited ft = (r, ft') ->
  (exists new,
     ft' = set_inter_events (inter_events_ ft ++ new)%list
             (set_implicit_gates (implicit_gates_ ft ++ new)%list ft) /\
     Forall (fun e => reaches parent (snd e) /\ is_gate (snd e) /\
                      fst e = id (deref (snd e)) /\
                      ~ In (fst e) (keys (inter_events_ ft))) new /\
     NoDup (keys new)) /\
  (r = Ok tt -> forall c, reaches parent c ->
     In (id (deref c)) (keys (inter_events_ ft')) /\
     (~ In (id (deref c)) (keys (inter_events_ ft)) ->
      In (id (deref c)) (keys (implicit_gates_ ft')))) /\
  (forall k c s r1 s1, implicit_registered s ->
     CheckCyclicity_body fuel path visited (k, c) s = (r1, s1) ->
     (is_gate c ->
      In (id (deref c)) (keys (inter_events_ s1)) /\
      (~ In (id (deref c)) (keys (inter_events_ s)) ->
       In (id (deref c)) (keys (implicit_gates_ s1)))) /\
     (~ is_gate c -> r1 = Ok tt /\ s1 = s)).
Proof.
  intros Hi Hrun.
  destruct (CheckCyclicity_registers fuel parent path visited ft ft' r Hi Hrun)
    as (new & Hreg & Hall & Hnd).
  split; [|split].
  - exists new. split; [exact Hreg|]. split; [|exact Hnd].
    eapply Forall_impl; [|exact Hall].
    intros e (Hr & Hid & Hc). repeat split; auto.
    + now apply reaches_is_gate in Hr.
    + now apply count_false_In.
  - intros -> c Hc.
    pose proof (CheckCyclicity_Ok_registered fuel parent path visited ft ft'
                  Hrun c Hc) as Hcnt.
    apply count_In in Hcnt. split; [exact Hcnt|].
    intros Hnot. rewrite Hreg in Hcnt |- *. simpl_ft. unfold keys in *.
    rewrite map_app in *. apply in_app_iff in Hcnt as [Hcnt|Hcnt]; [contradiction|].
    apply in_app_iff. now right.
  - intros k c s r1 s1 Hs Hbody. split.
    + intros Hg. eapply CheckCyclicity_body_registers; eassumption.
    + intros Hng. apply CheckCyclicity_body_inv in Hbody
        as [(_ & -> & ->)|(Hg & _)]; [now split|contradiction].
Qed.

(** ** [CheckCyclicity]: the bound on the depth is enough *)

Lemma deref_id_all (p : ptr) : In (id (deref p)) all_ids.
Proof.
  unfold all_ids, deref. destruct (nth_in_or_default p h null_event) as [H|H].
  - right. now apply in_map.
  - left. now rewrite H.
Qed.

Lemma cycle_names_Throw (inter : unordered_map) (ids : list string)
    (msg : string) (e : Error) :
  cycle_names inter ids msg = Throw e -> e = AssertionFailure.
Proof.
  revert msg. induction ids as [|x ids IH]; intros msg; cbn; [discriminate|].
  destruct (find inter x); [apply IH|now intros [= <-]].
Qed.

Lemma throw_cycle_not_OutOfFuel (parent : ptr) (path : list string)
    (ft ft' : FaultTree) :
  throw_cycle parent path ft <> (Throw OutOfFuel, ft').
Proof.
  unfold throw_cycle. destruct (cycle_names _ _ _) as [m|e] eqn:E.
  - discriminate.
  - apply cycle_names_Throw in E. subst. discriminate.
Qed.

Lemma CheckCyclicity_fuel (fuel : nat) :
  forall (parent : ptr) (path visited : list string) (ft ft' : FaultTree)
         (r : result unit),
  NoDup visited -> incl visited all_ids ->
  List.length all_ids < fuel + List.length visited ->
  CheckCyclicity fuel parent path visited ft = (r, ft') ->
  r <> Throw OutOfFuel.
Proof.
  induction fuel as [|fuel IH];
    intros parent path visited ft ft' r Hnd Hincl Hlen Hrun.
  - pose proof (NoDup_incl_length Hnd Hincl). lia.
  - rewrite CheckCyclicity_S in Hrun.
    destruct (set_count visited (id (deref parent))) eqn:Hv.
    + intros ->. now apply throw_cycle_not_OutOfFuel in Hrun.
    + assert (Hins : set_insert visited (id (deref parent)) =
                     id (deref parent) :: visited)
        by (unfold set_insert; now rewrite Hv).
      rewrite Hins in Hrun. apply set_count_false in Hv.
      pose proof (for_each_rule (fun _ => True) (fun e _ => e <> OutOfFuel)
        (CheckCyclicity_body fuel (path ++ [id (deref parent)])%list
           (id (deref parent) :: visited)) (children (deref parent))) as Hrule.
      assert (H : match r with Ok _ => True | Throw e => e <> OutOfFuel end).
      { apply Hrule with (ft := ft) (ft' := ft'); [|exact I|exact Hrun].
        intros [k c] s r1 s1 _ _ Hbody.
        apply CheckCyclicity_body_inv in Hbody
          as [(_ & -> & _)|(_ & s2 & _ & Hrec)]; [exact I|].
        apply IH in Hrec.
        - destruct r1 as [[]|e]; [exact I|congruence].
        - constructor; assumption.
        - intros x [<-|Hx]; [apply deref_id_all|now apply Hincl].
        - cbn [List.length]. lia. }
      destruct r as [[]|e]; [discriminate|congruence].
Qed.

(** ** [CheckCyclicity]: running it again *)

Lemma rerun_covers (r : result unit) (ft' T : FaultTree) :
  rerun r ft' T -> covers ft' T.
Proof.
  destruct r; cbn; [easy|]. intros [Hn Hi]. split; [exact Hn|]. now rewrite Hi.
Qed.

Lemma extends_covers (ft ft' : FaultTree) : extends ft ft' -> covers ft ft'.
Proof.
  intros Hext. split; [apply Hext|]. intros k. now apply extends_count.
Qed.

Lemma covers_trans (ft ft1 ft2 : FaultTree) :
  covers ft ft1 -> covers ft1 ft2 -> covers ft ft2.
Proof. intros [A1 A2] [B1 B2]. split; [congruence|auto]. Qed.

Lemma stable_ret : stable (ret tt).
Proof. intros ft r ft' H T _. inversion H; subst. reflexivity. Qed.

Lemma stable_bind (c1 c2 : M unit) :
  stable c1 -> stable c2 ->
  (forall ft r ft', c2 ft = (r, ft') -> extends ft ft') ->
  stable (c1 ;; c2).
Proof.
  intros H1 H2 Hext ft r ft2 Hrun T HT.
  apply bind_inv in Hrun as [([] & ft1 & Hc1 & Hc2)|(e & Hc1 & ->)].
  - assert (HT1 : rerun (Ok tt) ft1 T).
    { cbn. apply covers_trans with ft2; [|eapply rerun_covers; exact HT].
      apply extends_covers. eapply Hext; exact Hc2. }
    rewrite (bind_Ok _ _ _ _ _ (H1 _ _ _ Hc1 T HT1)). eapply H2; eassumption.
  - apply bind_Throw. eapply H1; eassumption.
Qed.

Lemma stable_for_each {X : Type} (body : X -> M unit) (l : list X) :
  (forall x, In x l -> stable (body x)) ->
  (forall x ft r ft', In x l -> body x ft = (r, ft') -> extends ft ft') ->
  stable (for_each body l).
Proof.
  induction l as [|x l IH]; intros Hst Hext; [apply stable_ret|].
  rewrite for_each_cons. apply stable_bind.
  - apply Hst. now left.
  - apply IH; intros; [apply Hst|eapply Hext; [|eassumption]]; now right.
  - apply for_each_extends. intros y a b c Hy. apply Hext. now right.
Qed.

Lemma stable_register_implicit (c : ptr) : stable (register_implicit c).
Proof.
  intros ft r ft' Hrun T HT.
  destruct (register_implicit_extends c ft) as (ft1 & H1 & _ & Hcnt).
  rewrite H1 in Hrun. inversion Hrun; subst. cbn in HT.
  unfold register_implicit. now rewrite (proj2 HT _ Hcnt).
Qed.

Lemma stable_throw_cycle (parent : ptr) (path : list string) :
  stable (throw_cycle parent path).
Proof.
  intros ft r ft' Hrun T HT.
  destruct (throw_cycle_state parent path ft) as (e & He).
  rewrite He in Hrun. inversion Hrun; subst. destruct HT as [Hn Hi].
  unfold throw_cycle in *. rewrite Hn, Hi.
  destruct (cycle_names _ _ _); now inversion He.
Qed.

Lemma stable_CheckCyclicity (fuel : nat) :
  forall (parent : ptr) (path visited : list string),
  stable (CheckCyclicity fuel parent path visited).
Proof.
  induction fuel as [|fuel IH]; intros parent path visited.
  - intros ft r ft' H T HT. cbn in *. inversion H; subst. reflexivity.
  - rewrite CheckCyclicity_S.
    destruct (set_count visited (id (deref parent))).
    + apply stable_throw_cycle.
    + apply stable_for_each.
      * intros [k c] _. unfold CheckCyclicity_body. cbn [snd].
        destruct (dynamic_cast_Gate c) as [c'|]; [|apply stable_ret].
        apply stable_bind; [apply stable_register_implicit|apply IH|].
        intros a b c0. apply CheckCyclicity_extends.
      * intros x a b c0 _. apply CheckCyclicity_body_extends.
Qed.

(** ** [GetPrimaryEvents] and [GatherPrimaryEvents] *)

Lemma GetPrimaryEvents_body_spec (it : string * ptr) (ft : FaultTree) :
  GetPrimaryEvents_body it ft =
  match classify (inter_events_ ft) it with
  | Registered => (Ok tt, ft)
  | Basic =>
      (Ok tt, set_basic_events (insert (basic_events_ ft) (fst it) (snd it))
                (set_primary_events
                   (insert (primary_events_ ft) (fst it) (snd it)) ft))
  | House =>
      (Ok tt, set_house_events (insert (house_events_ ft) (fst it) (snd it))
                (set_primary_events
                   (insert (primary_events_ ft) (fst it) (snd it)) ft))
  | Undefined => (Throw (ValidationError (undefined_msg (name_ ft) (snd it))), ft)
  end.
Proof.
  unfold GetPrimaryEvents_body, classify, dynamic_cast_PrimaryEvent,
    dynamic_cast_BasicEvent, dynamic_cast_HouseEvent.
  destruct (count (inter_events_ ft) (fst it)); cbn [negb]; [reflexivity|].
  destruct (kind (deref (snd it))) eqn:E; try reflexivity; now rewrite E.
Qed.

Lemma gather_frame_refl (ft : FaultTree) : gather_frame ft ft.
Proof. repeat split. Qed.

Lemma gather_frame_trans (ft ft1 ft2 : FaultTree) :
  gather_frame ft ft1 -> gather_frame ft1 ft2 -> gather_frame ft ft2.
Proof.
  intros (A1 & A2 & A3 & A4 & A5) (B1 & B2 & B3 & B4 & B5).
  repeat split; congruence.
Qed.

Lemma GetPrimaryEvents_body_frame (it : string * ptr) (ft ft' : FaultTree)
    (r : result unit) :
  GetPrimaryEvents_body it ft = (r, ft') -> gather_frame ft ft'.
Proof.
  rewrite GetPrimaryEvents_body_spec.
  destruct (classify _ it); intros H; inversion H; subst; repeat split.
Qed.

Lemma for_each_body_frame (l : std_map) (ft ft' : FaultTree) (r : result unit) :
  for_each GetPrimaryEvents_body l ft = (r, ft') -> gather_frame ft ft'.
Proof.
  intros Hrun.
  pose proof (for_each_rule (gather_frame ft) (fun _ => gather_frame ft)
                GetPrimaryEvents_body l) as Hrule.
  assert (H : match r with Ok _ => gather_frame ft ft'
                         | Throw _ => gather_frame ft ft' end).
  { apply Hrule with (ft := ft); [|apply gather_frame_refl|exact Hrun].
    intros x s r1 s1 _ Hs Hx. apply GetPrimaryEvents_body_frame in Hx.
    destruct r1; now apply gather_frame_trans with s. }
  now destruct r.
Qed.

Lemma for_each_flat_map {X Y : Type} (body : Y -> M unit) (f : X -> list Y)
    (l : list X) (ft : FaultTree) :
  for_each (fun x => for_each body (f x)) l ft = for_each body (flat_map f l) ft.
Proof.
  revert ft. induction l as [|x l IH]; intros ft; [reflexivity|].
  cbn [flat_map]. rewrite for_each_app, for_each_cons. unfold bind.
  destruct (for_each body (f x) ft) as [[[]|e] ft1]; [apply IH|reflexivity].
Qed.

(** The two loops of [GatherPrimaryEvents] are one loop over
    [gathered_children]. *)
Lemma GatherPrimaryEvents_flat (ft : FaultTree) :
  top_event_ ft <> None ->
  GatherPrimaryEvents ft = for_each GetPrimaryEvents_body (gathered_children ft) ft.
Proof.
  intros Htop.
  unfold GatherPrimaryEvents, bind, with_top_event, GetPrimaryEvents,
    gathered_children.
  destruct (top_event_ ft) as [top|]; [|congruence].
  rewrite for_each_app. unfold bind.
  destruct (for_each GetPrimaryEvents_body (children (deref top)) ft)
    as [[[]|e] ft1] eqn:E; [|reflexivity].
  apply for_each_body_frame in E. destruct E as (_ & _ & _ & -> & _).
  apply (for_each_flat_map GetPrimaryEvents_body
           (fun git => children (deref (snd git)))).
Qed.

Lemma GatherPrimaryEvents_null (ft : FaultTree) :
  top_event_ ft = None -> GatherPrimaryEvents ft = (Throw AssertionFailure, ft).
Proof.
  intros Htop. unfold GatherPrimaryEvents, with_top_event, bind. now rewrite Htop.
Qed.

Lemma GetPrimaryEvents_body_keeps (it : string * ptr) (ft ft' : FaultTree)
    (r : result unit) :
  GetPrimaryEvents_body it ft = (r, ft') -> keeps_primaries ft ft'.
Proof.
  rewrite GetPrimaryEvents_body_spec.
  destruct (classify _ it); intros H; inversion H; subst; intros k; simpl_ft;
    rewrite ?count_insert; repeat split; intros ->; reflexivity.
Qed.

Lemma for_each_body_keeps (l : std_map) (ft ft' : FaultTree) (r : result unit) :
  for_each GetPrimaryEvents_body l ft = (r, ft') -> keeps_primaries ft ft'.
Proof.
  intros Hrun.
  pose proof (for_each_rule (keeps_primaries ft) (fun _ => keeps_primaries ft)
                GetPrimaryEvents_body l) as Hrule.
  assert (H : match r with Ok _ => keeps_primaries ft ft'
                         | Throw _ => keeps_primaries ft ft' end).
  { apply Hrule with (ft := ft); [|now intros k|exact Hrun].
    intros x s r1 s1 _ Hs Hx. apply GetPrimaryEvents_body_keeps in Hx.
    assert (keeps_primaries ft s1).
    { intros k. destruct (Hs k) as (A1 & A2 & A3). destruct (Hx k) as (B1 & B2 & B3).
      repeat split; auto. }
    now destruct r1. }
  now destruct r.
Qed.

Lemma FaultTree_eq (a b : FaultTree) :
  gather_frame a b -> primary_events_ b = primary_events_ a ->
  basic_events_ b = basic_events_ a -> house_events_ b = house_events_ a ->
  b = a.
Proof.
  destruct a, b. intros (A1 & A2 & A3 & A4 & A5) A6 A7 A8. simpl_ft.
  congruence.
Qed.

Lemma for_each_body_again (l : std_map) :
  forall (a ft1 : FaultTree) (r : result unit),
  for_each GetPrimaryEvents_body l a = (r, ft1) ->
  forall b, again a b ft1 -> for_each GetPrimaryEvents_body l b = (r, ft1).
Proof.
  induction l as [|it l IH]; intros a ft1 r Hrun b (Hf & Hp & Hb & Hh).
  - cbn in Hrun. inversion Hrun; subst. cbn. unfold ret. f_equal.
    now apply FaultTree_eq.
  - rewrite for_each_cons in *.
    assert (Hi : inter_events_ b = inter_events_ a) by apply Hf.
    assert (Hn : name_ b = name_ a) by apply Hf.
    apply bind_inv in Hrun as [([] & a1 & Hbody & Hrest)|(e & Hbody & ->)].
    + pose proof (for_each_body_keeps _ _ _ _ Hrest) as Hkeep.
      assert (Hstep : exists b1, GetPrimaryEvents_body it b = (Ok tt, b1) /\
                                 again a1 b1 ft1).
      { rewrite GetPrimaryEvents_body_spec in Hbody |- *. rewrite Hi.
        destruct (classify (inter_events_ a) it); inversion Hbody; subst a1.
        - exists b. split; [reflexivity|].
          exact (conj Hf (conj Hp (conj Hb Hh))).
        - eexists. split; [reflexivity|].
          destruct (Hkeep (fst it)) as (_ & Hk & _). simpl_ft.
          split; [|split; [|split]]; simpl_ft.
          + destruct Hf as (F1 & F2 & F3 & F4 & F5). repeat split; assumption.
          + now rewrite Hp.
          + rewrite Hb. apply insert_present. apply Hk, count_insert_same.
          + exact Hh.
        - eexists. split; [reflexivity|].
          destruct (Hkeep (fst it)) as (_ & _ & Hk). simpl_ft.
          split; [|split; [|split]]; simpl_ft.
          + destruct Hf as (F1 & F2 & F3 & F4 & F5). repeat split; assumption.
          + now rewrite Hp.
          + exact Hb.
          + rewrite Hh. apply insert_present. apply Hk, count_insert_same. }
      destruct Hstep as (b1 & Hb1 & Hagain).
      rewrite (bind_Ok _ _ _ _ _ Hb1). now apply IH with a1.
    + apply bind_Throw.
      rewrite GetPrimaryEvents_body_spec in Hbody |- *. rewrite Hi, Hn.
      destruct (classify (inter_events_ a) it); inversion Hbody; subst.
      f_equal. now apply FaultTree_eq.
Qed.

(** ** [Validate] *)

Lemma traverse_Some (ft : FaultTree) (top : ptr) :
  top_event_ ft = Some top ->
  traverse ft = CheckCyclicity depth_bound top [] [] ft.
Proof. intros H. unfold traverse, with_top_event. now rewrite H. Qed.

Lemma traverse_null (ft : FaultTree) :
  top_event_ ft = None -> traverse ft = (Throw AssertionFailure, ft).
Proof. intros H. unfold traverse, with_top_event. now rewrite H. Qed.

Lemma traverse_extends (ft ft' : FaultTree) (r : result unit) :
  traverse ft = (r, ft') -> extends ft ft'.
Proof.
  destruct (top_event_ ft) as [top|] eqn:Et.
  - rewrite (traverse_Some _ _ Et). apply CheckCyclicity_extends.
  - rewrite (traverse_null _ Et). intros [= <- <-]. apply extends_refl.
Qed.

(** A traversal that returned had a top gate to start from. *)
Lemma traverse_Ok_top (ft fta : FaultTree) :
  traverse ft = (Ok tt, fta) ->
  exists top, top_event_ ft = Some top /\ top_event_ fta = Some top /\
              CheckCyclicity depth_bound top [] [] ft = (Ok tt, fta).
Proof.
  intros H. pose proof (traverse_extends _ _ _ H) as [(_ & _ & F3 & _) _].
  destruct (top_event_ ft) as [top|] eqn:Et.
  - exists top. rewrite (traverse_Some _ _ Et) in H. now rewrite F3.
  - rewrite (traverse_null _ Et) in H. discriminate.
Qed.

Lemma Validate_Ok (ft fta : FaultTree) :
  traverse ft = (Ok tt, fta) ->
  Validate ft = GatherPrimaryEvents (set_primary_events [] fta).
Proof. intros H. unfold Validate. fold traverse. unfold bind. now rewrite H. Qed.

Lemma Validate_Throw (ft fta : FaultTree) (e : Error) :
  traverse ft = (Throw e, fta) -> Validate ft = (Throw e, fta).
Proof. intros H. unfold Validate. fold traverse. unfold bind. now rewrite H. Qed.

Lemma GatherPrimaryEvents_frame (ft ft' : FaultTree) (r : result unit) :
  GatherPrimaryEvents ft = (r, ft') -> gather_frame ft ft'.
Proof.
  destruct (top_event_ ft) as [top|] eqn:Et.
  - rewrite GatherPrimaryEvents_flat by congruence. apply for_each_body_frame.
  - rewrite (GatherPrimaryEvents_null _ Et). intros [= <- <-].
    apply gather_frame_refl.
Qed.

Lemma depth_bound_enough : List.length all_ids < depth_bound + 0.
Proof.
  unfold depth_bound, all_ids. cbn [List.length]. rewrite length_map. lia.
Qed.

Lemma traverse_not_OutOfFuel (ft ft' : FaultTree) :
  traverse ft <> (Throw OutOfFuel, ft').
Proof.
  destruct (top_event_ ft) as [top|] eqn:Et.
  - rewrite (traverse_Some _ _ Et). intros Hcc.
    apply CheckCyclicity_fuel in Hcc;
      [congruence|constructor|easy|apply depth_bound_enough].
  - rewrite (traverse_null _ Et). discriminate.
Qed.

(** [Validate] never runs out of the depth it allows the traversal. *)
Lemma Validate_terminates (ft ft' : FaultTree) :
  Validate ft <> (Throw OutOfFuel, ft').
Proof.
  intros H.
  destruct (traverse ft) as [[[]|e] fta] eqn:Hcc.
  - rewrite (Validate_Ok _ _ Hcc) in H.
    destruct (traverse_Ok_top _ _ Hcc) as (top & _ & Et & _).
    rewrite GatherPrimaryEvents_flat in H by (simpl_ft; congruence).
    pose proof (for_each_rule (fun _ => True) (fun e _ => e <> OutOfFuel)
                  GetPrimaryEvents_body
                  (gathered_children (set_primary_events [] fta))) as Hrule.
    specialize (Hrule) with (r := @Throw unit OutOfFuel) (3 := H).
    apply Hrule; [|exact I|reflexivity].
    intros x s r1 s1 _ _ Hx. rewrite GetPrimaryEvents_body_spec in Hx.
    destruct (classify _ x); inversion Hx; subst; try exact I. discriminate.
  - rewrite (Validate_Throw _ _ _ Hcc) in H. inversion H; subst.
    now apply traverse_not_OutOfFuel in Hcc.
Qed.

(** C8: validating the tree that a first validation left behind gives
    the same outcome, with the same diagnostic if there is one, and
    leaves every member of the tree as the first run left it. *)
Theorem Validate_idempotent (ft : FaultTree) :
  Validate (snd (Validate ft)) = Validate ft.
Proof.
  destruct (traverse ft) as [[[]|e] fta] eqn:Hcc.
  - destruct (traverse_Ok_top _ _ Hcc) as (top & Et & Eta & Hcc').
    rewrite (Validate_Ok _ _ Hcc).
    destruct (GatherPrimaryEvents (set_primary_events [] fta)) as [r ft1] eqn:Hg.
    cbn [snd].
    pose proof (GatherPrimaryEvents_frame _ _ _ Hg) as Hgf.
    destruct Hgf as (G1 & G2 & G3 & G4 & G5). simpl_ft.
    assert (Et1 : top_event_ ft1 = Some top) by congruence.
    assert (Hcc1 : traverse ft1 = (Ok tt, ft1)).
    { rewrite (traverse_Some _ _ Et1).
      apply (stable_CheckCyclicity _ _ _ _ _ _ _ Hcc'). cbn.
      split; [exact G1|]. intros k. now rewrite G4. }
    rewrite (Validate_Ok _ _ Hcc1), <- Hg.
    rewrite !GatherPrimaryEvents_flat by (simpl_ft; congruence).
    assert (Hsame : gathered_children (set_primary_events [] ft1) =
                    gathered_children (set_primary_events [] fta)).
    { unfold gathered_children. simpl_ft. now rewrite G3, G4. }
    rewrite Hsame.
    rewrite GatherPrimaryEvents_flat in Hg by (simpl_ft; congruence).
    rewrite Hg.
    apply (for_each_body_again _ _ _ _ Hg). unfold again, gather_frame. simpl_ft.
    repeat split; assumption.
  - rewrite (Validate_Throw _ _ _ Hcc). cbn [snd].
    apply Validate_Throw.
    pose proof (traverse_extends _ _ _ Hcc) as [(F1 & F2 & F3 & _) _].
    destruct (top_event_ ft) as [top|] eqn:Et.
    + rewrite (traverse_Some _ _ Et) in Hcc.
      rewrite (traverse_Some fta top) by congruence.
      apply (stable_CheckCyclicity _ _ _ _ _ _ _ Hcc). cbn. now split.
    + rewrite (traverse_null _ Et) in Hcc. inversion Hcc; subst.
      now apply traverse_null.
Qed.

(** ** Completeness: undefined nodes *)

Lemma classify_Undefined (inter : unordered_map) (k : string) (c : ptr) :
  classify inter (k, c) = Undefined <->
  count inter k = false /\ dynamic_cast_PrimaryEvent c = None.
Proof.
  unfold classify, dynamic_cast_PrimaryEvent. cbn [fst snd].
  destruct (count inter k); [split; [discriminate|now intros [? _]]|].
  destruct (kind (deref c)); split; try discriminate; try easy;
    now intros [_ ?].
Qed.

Lemma classify_Registered (inter : unordered_map) (k : string) (c : ptr) :
  classify inter (k, c) = Registered <-> count inter k = true.
Proof.
  unfold classify. cbn [fst snd]. destruct (count inter k); [easy|].
  destruct (kind (deref c)); split; discriminate.
Qed.

Lemma register_implicit_well_keyed (c : ptr) (ft ft' : FaultTree) :
  is_gate c -> well_keyed ft -> register_implicit c ft = (Ok tt, ft') ->
  well_keyed ft'.
Proof.
  intros Hg Hw. unfold register_implicit.
  destruct (count (inter_events_ ft) (id (deref c))) eqn:E; cbn [negb];
    intros H; inversion H; subst; [exact Hw|].
  intros k v. simpl_ft. rewrite (insert_absent _ _ _ E), in_app_iff.
  intros [Hin|[[= <- <-]|[]]]; [now apply Hw|now split].
Qed.

Lemma CheckCyclicity_well_keyed (fuel : nat) :
  forall (parent : ptr) (path visited : list string) (ft ft' : FaultTree)
         (r : result unit),
  well_keyed ft ->
  CheckCyclicity fuel parent path visited ft = (r, ft') -> well_keyed ft'.
Proof.
  induction fuel as [|fuel IH]; intros parent path visited ft ft' r Hw Hrun.
  - cbn in Hrun. now inversion Hrun; subst.
  - rewrite CheckCyclicity_S in Hrun.
    destruct (set_count visited (id (deref parent))).
    + destruct (throw_cycle_state parent (path ++ [id (deref parent)])%list ft)
        as (e & He).
      rewrite He in Hrun. now inversion Hrun; subst.
    + pose proof (for_each_rule well_keyed (fun _ => well_keyed)
        (CheckCyclicity_body fuel (path ++ [id (deref parent)])%list
           (set_insert visited (id (deref parent))))
        (children (deref parent))) as Hrule.
      assert (H : match r with Ok _ => well_keyed ft' | Throw _ => well_keyed ft' end).
      { apply Hrule with (ft := ft); [|exact Hw|exact Hrun].
        intros [k c] s r1 s1 _ Hs Hbody.
        apply CheckCyclicity_body_inv in Hbody
          as [(_ & -> & ->)|(Hg & s2 & Hreg & Hrec)]; [exact Hs|].
        pose proof (register_implicit_well_keyed c s s2 Hg Hs Hreg) as Hs2.
        pose proof (IH _ _ _ _ _ _ Hs2 Hrec). now destruct r1. }
      now destruct r.
Qed.

Lemma GetPrimaryEvents_body_defined (x : string * ptr) (ft : FaultTree) :
  classify (inter_events_ ft) x <> Undefined ->
  exists s1, GetPrimaryEvents_body x ft = (Ok tt, s1) /\ gather_frame ft s1.
Proof.
  intros Hne. rewrite GetPrimaryEvents_body_spec.
  destruct (classify (inter_events_ ft) x); try congruence;
    eexists; (split; [reflexivity|repeat split]).
Qed.

(** The loop throws at the first undefined child, if there is one. *)
Lemma for_each_body_Undefined (l : std_map) :
  forall ft : FaultTree,
  (exists it, In it l /\ classify (inter_events_ ft) it = Undefined) ->
  exists it ft1, In it l /\ classify (inter_events_ ft) it = Undefined /\
    for_each GetPrimaryEvents_body l ft =
    (Throw (ValidationError (undefined_msg (name_ ft) (snd it))), ft1).
Proof.
  induction l as [|x l IH]; intros ft (it & Hin & Hc); [easy|].
  rewrite for_each_cons.
  assert (Hcases : classify (inter_events_ ft) x = Undefined \/
                   classify (inter_events_ ft) x <> Undefined)
    by (destruct (classify (inter_events_ ft) x);
        [right; discriminate..|left; reflexivity]).
  destruct Hcases as [Ex|Hne].
  - exists x, ft. split; [now left|]. split; [exact Ex|].
    apply bind_Throw. now rewrite GetPrimaryEvents_body_spec, Ex.
  - destruct (GetPrimaryEvents_body_defined x ft Hne) as (s1 & Hx & HF).
    destruct HF as (F1 & _ & _ & F4 & _).
    destruct Hin as [->|Hin]; [contradiction|].
    destruct (IH s1) as (it' & ft1 & Hin' & Hc' & Hrun).
    { exists it. rewrite F4. now split. }
    exists it', ft1. rewrite F4 in Hc'. rewrite F1 in Hrun.
    split; [now right|]. split; [exact Hc'|].
    rewrite (bind_Ok _ _ _ _ _ Hx). exact Hrun.
Qed.

(** Without an undefined child the loop returns, and every child whose
    key is no registered gate is among the primary events. *)
Lemma for_each_body_defined (l : std_map) :
  forall ft : FaultTree,
  (forall it, In it l -> classify (inter_events_ ft) it <> Undefined) ->
  exists ft1, for_each GetPrimaryEvents_body l ft = (Ok tt, ft1) /\
    forall it, In it l -> classify (inter_events_ ft) it <> Registered ->
               count (primary_events_ ft1) (fst it) = true.
Proof.
  induction l as [|x l IH]; intros ft Hall.
  - exists ft. split; [reflexivity|easy].
  - rewrite for_each_cons.
    destruct (GetPrimaryEvents_body x ft) as [r s1] eqn:Hx.
    pose proof (GetPrimaryEvents_body_frame _ _ _ _ Hx) as (_ & _ & _ & F4 & _).
    assert (Hx0 := Hx). rewrite GetPrimaryEvents_body_spec in Hx.
    assert (Hr : r = Ok tt /\
                 (classify (inter_events_ ft) x <> Registered ->
                  count (primary_events_ s1) (fst x) = true)).
    { destruct (classify (inter_events_ ft) x) eqn:Ex; inversion Hx; subst;
        simpl_ft; try (split; [reflexivity|]; intros _; apply count_insert_same).
      - split; [reflexivity|congruence].
      - destruct (Hall x (or_introl eq_refl) Ex). }
    destruct Hr as [-> Hprim].
    destruct (IH s1) as (ft1 & Hrun & Hrest).
    { intros it Hin. rewrite F4. apply Hall. now right. }
    exists ft1. rewrite (bind_Ok _ _ _ _ _ Hx0). split; [exact Hrun|].
    intros it [<-|Hin] Hc.
    + destruct (for_each_body_keeps _ _ _ _ Hrun (fst x)) as (Hk & _).
      apply Hk, Hprim, Hc.
    + apply Hrest; [exact Hin|now rewrite F4].
Qed.

(** The children of the top gate and of every gate reached from it are
    among those that [GatherPrimaryEvents] looks at. *)
Lemma reached_gathered (ft : FaultTree) (g : ptr) (it : string * ptr) :
  (forall m x, In x m -> In x (hash_order m)) ->
  unique_gate_ids -> well_keyed ft ->
  top_event_ ft = Some g \/
    (is_gate g /\ count (inter_events_ ft) (id (deref g)) = true) ->
  In it (children (deref g)) -> In it (gathered_children ft).
Proof.
  intros Hord Huniq Hw Hg Hin. unfold gathered_children. apply in_app_iff.
  destruct Hg as [->|[Hg Hcnt]]; [now left|]. right.
  apply find_count in Hcnt as (v & Hv). apply find_In in Hv.
  destruct (Hw _ _ Hv) as [Hid Hgv].
  assert (v = g) by now apply Huniq. subst v.
  apply in_flat_map. exists (id (deref g), g). split; [now apply Hord|exact Hin].
Qed.

(** C6: once the traversal from the top gate [top] has returned, let
    [(k, c)] be a child of [top] or of a gate reached from it whose key [k] is no
    registered gate.  If [c] is no primary event, [Validate] throws
    [ValidationError] with the original identifier of such a child (the
    first that [GatherPrimaryEvents] meets, so [c] itself when it is the
    only one) and the name of the tree; and if [Validate] returns, [c]
    is a primary event and [k] is in [primary_events_]. *)
Theorem Validate_undefined_node (ft fta : FaultTree) (top g : ptr)
    (k : string) (c : ptr) :
  (forall m x, In x m -> In x (hash_order m)) ->
  unique_gate_ids -> well_keyed ft ->
  top_event_ ft = Some top ->
  CheckCyclicity depth_bound top [] [] ft = (Ok tt, fta) ->
  g = top \/ reaches top g ->
  In (k, c) (children (deref g)) ->
  count (inter_events_ fta) k = false ->
  (dynamic_cast_PrimaryEvent c = None ->
   exists k' c' ft1,
     In (k', c') (gathered_children fta) /\
     count (inter_events_ fta) k' = false /\
     dynamic_cast_PrimaryEvent c' = None /\
     Validate ft =
     (Throw (ValidationError
        ("Node with id '" ++ orig_id (deref c') ++ "' was not defined in '" ++
         name_ ft ++ "' tree")), ft1)) /\
  (forall ft1, Validate ft = (Ok tt, ft1) ->
     dynamic_cast_PrimaryEvent c <> None /\
     In k (keys (primary_events_ ft1))).
Proof.
  intros Hord Huniq Hw Htop Hcc Hg Hin Hk.
  pose proof (CheckCyclicity_extends _ _ _ _ _ _ _ Hcc) as [Hfr _].
  destruct Hfr as (F1 & _ & F3 & _).
  pose proof (CheckCyclicity_well_keyed _ _ _ _ _ _ _ Hw Hcc) as Hwa.
  assert (Htopa : top_event_ fta = Some top) by congruence.
  assert (Hgath : In (k, c) (gathered_children (set_primary_events [] fta))).
  { apply (reached_gathered (set_primary_events [] fta) g); auto.
    destruct Hg as [->|Hg]; [left; now simpl_ft|right].
    split; [now apply reaches_is_gate in Hg|]. simpl_ft.
    eapply CheckCyclicity_Ok_registered; eassumption. }
  rewrite <- (traverse_Some _ _ Htop) in Hcc.
  rewrite (Validate_Ok _ _ Hcc), GatherPrimaryEvents_flat
    by (simpl_ft; congruence).
  split.
  - intros Hc.
    destruct (for_each_body_Undefined
                (gathered_children (set_primary_events [] fta))
                (set_primary_events [] fta))
      as ([k' c'] & ft1 & Hin' & Hc' & Hrun).
    { exists (k, c). split; [exact Hgath|]. now apply classify_Undefined. }
    apply classify_Undefined in Hc' as [Hk' Hp']. simpl_ft.
    exists k', c', ft1. repeat split; auto.
    rewrite Hrun. unfold undefined_msg. cbn [snd]. now rewrite F1.
  - intros ft1 Hrun.
    assert (Hall : forall it,
              In it (gathered_children (set_primary_events [] fta)) ->
              classify (inter_events_ (set_primary_events [] fta)) it <> Undefined).
    { intros it Hit Hu.
      destruct (for_each_body_Undefined _ (set_primary_events [] fta)
                  (ex_intro _ it (conj Hit Hu))) as (? & ? & _ & _ & Hthrow).
      congruence. }
    split.
    + intros Hc. apply (Hall (k, c) Hgath). now apply classify_Undefined.
    + destruct (for_each_body_defined _ _ Hall) as (ft1' & Hrun' & Hprim).
      assert (ft1' = ft1) by congruence. subst ft1'.
      apply count_In, (Hprim (k, c) Hgath). simpl_ft.
      rewrite classify_Registered. congruence.
Qed.

(** ** Cyclicity *)

Lemma append_assoc (a b c : string) : (a ++ b) ++ c = a ++ (b ++ c).
Proof. induction a as [|x a IH]; cbn; [reflexivity|now rewrite IH]. Qed.

Lemma append_nil_r (a : string) : a ++ "" = a.
Proof. induction a as [|x a IH]; cbn; [reflexivity|now rewrite IH]. Qed.

Lemma arrows_concat (n : string) (rest : list string) :
  arrows (n :: rest) = "->" ++ String.concat "->" (n :: rest).
Proof.
  revert n. induction rest as [|m rest IH]; intros n.
  - cbn [arrows String.concat]. now rewrite append_nil_r.
  - change (arrows (n :: m :: rest)) with ("->" ++ n ++ arrows (m :: rest)).
    rewrite IH. reflexivity.
Qed.

Lemma cycle_names_registered (ft : FaultTree) (names : list string) (msg : string) :
  (forall x, In x names -> count (inter_events_ ft) x = true) ->
  cycle_names (inter_events_ ft) names msg =
  Ok (msg ++ arrows (map (registered_orig_id ft) names)).
Proof.
  revert msg. induction names as [|x names IH]; intros msg Hreg.
  - cbn. now rewrite append_nil_r.
  - cbn [cycle_names map arrows]. unfold registered_orig_id at 1.
    destruct (proj1 (find_count _ _) (Hreg x (or_introl eq_refl))) as (g & Hg).
    rewrite Hg, IH by (intros y Hy; apply Hreg; now right).
    now rewrite !append_assoc.
Qed.

Lemma std_find_first (l1 l2 : list string) (x : string) :
  ~ In x l1 -> std_find (l1 ++ x :: l2)%list x = x :: l2.
Proof.
  induction l1 as [|y l1 IH]; intros Hx; cbn.
  - now rewrite String.eqb_refl.
  - destruct (String.eqb y x) eqn:E.
    + apply String.eqb_eq in E. subst. destruct Hx. now left.
    + apply IH. intros H. apply Hx. now right.
Qed.

Lemma chain_snoc (l : list ptr) (p c : ptr) :
  chain (l ++ [p])%list -> gate_child p c -> chain (l ++ [p; c])%list.
Proof.
  induction l as [|q l IH]; intros Hch Hc; cbn in *.
  - constructor; [exact Hc|constructor].
  - destruct l as [|q' l]; cbn in *.
    + inversion Hch; subst. constructor; [assumption|]. now apply (IH H3).
    + inversion Hch; subst. constructor; [assumption|]. now apply IH.
Qed.

(** The branch taken on a visited gate, under what the traversal has
    established when it gets there. *)
Lemma throw_cycle_spec (p : ptr) (pre mid : list ptr) (first : ptr)
    (ft : FaultTree) :
  id (deref first) = id (deref p) ->
  ~ In (id (deref p)) (ids pre) ->
  (forall x, In x (ids (first :: mid ++ [p])) -> count (inter_events_ ft) x = true) ->
  throw_cycle p (ids (pre ++ first :: mid) ++ [id (deref p)])%list ft =
  (Throw (ValidationError (cycle_msg ft p (ids (first :: mid ++ [p])))), ft).
Proof.
  intros Hid Hpre Hreg. unfold throw_cycle.
  assert (Hpath : (ids (pre ++ first :: mid) ++ [id (deref p)])%list =
                  (ids pre ++ id (deref p) :: (ids mid ++ [id (deref p)]))%list).
  { unfold ids. rewrite !map_app. cbn [map]. rewrite Hid, <- app_assoc.
    reflexivity. }
  rewrite Hpath, (std_find_first _ _ _ Hpre).
  assert (Hids : ids (first :: mid ++ [p]) =
                 id (deref p) :: (ids mid ++ [id (deref p)])%list).
  { unfold ids. cbn [map]. rewrite map_app, Hid. reflexivity. }
  rewrite Hids in Hreg. rewrite (cycle_names_registered ft _ _ Hreg).
  unfold cycle_msg. rewrite Hids. cbn [map]. rewrite arrows_concat. cbn [map].
  now rewrite !append_assoc.
Qed.

(** A call that returned did not find its gate visited and ran the
    traversal of each gate-typed child to its end. *)
Lemma CheckCyclicity_Ok_rounds (fuel : nat) (p : ptr) (path visited : list string)
    (ft ft' : FaultTree) :
  CheckCyclicity (S fuel) p path visited ft = (Ok tt, ft') ->
  set_count visited (id (deref p)) = false /\
  forall k c, In (k, c) (children (deref p)) -> is_gate c ->
    exists s2 ftb, count (inter_events_ s2) (id (deref c)) = true /\
      CheckCyclicity fuel c (path ++ [id (deref p)])%list
        (set_insert visited (id (deref p))) s2 = (Ok tt, ftb) /\
      extends s2 ftb /\ extends ftb ft'.
Proof.
  rewrite CheckCyclicity_S. intros Hrun.
  destruct (set_count visited (id (deref p))).
  { destruct (throw_cycle_state p (path ++ [id (deref p)])%list ft) as (e & He).
    congruence. }
  split; [reflexivity|]. intros k c Hin Hg.
  destruct (for_each_Ok_between _ _
              (fun x a b c' _ H => CheckCyclicity_body_extends _ _ _ x a c' b H)
              ft ft' Hrun (k, c) Hin) as (fta & ftb & _ & Hbody & Hext).
  apply CheckCyclicity_body_inv in Hbody
    as [(Hng & _)|(_ & s2 & Hreg & Hrec)]; [contradiction|].
  destruct (register_implicit_extends c fta) as (s2' & Hreg' & _ & Hcnt).
  assert (s2' = s2) by congruence. subst s2'.
  exists s2, ftb. split; [exact Hcnt|]. split; [exact Hrec|].
  split; [now apply CheckCyclicity_extends in Hrec|exact Hext].
Qed.

(** A traversal from [p] that returned has followed every path from
    [p]: none of them repeats an identifier or meets a visited one. *)
Lemma CheckCyclicity_Ok_acyclic (fuel : nat) :
  forall (p : ptr) (path visited : list string) (ft ft' : FaultTree),
  CheckCyclicity fuel p path visited ft = (Ok tt, ft') ->
  forall l, chain (p :: l) ->
  NoDup (ids (p :: l)) /\ forall x, In x (ids (p :: l)) -> ~ In x visited.
Proof.
  induction fuel as [|fuel IH]; intros p path visited ft ft' Hrun l Hch;
    [discriminate|].
  apply CheckCyclicity_Ok_rounds in Hrun as [Hv Hround].
  apply set_count_false in Hv.
  destruct l as [|c l].
  - split; [repeat constructor; easy|]. intros x [<-|[]]. exact Hv.
  - inversion Hch as [|? ? ? [[k Hin] Hg] Hch']; subst.
    destruct (Hround k c Hin Hg) as (s2 & ftb & _ & Hrec & _).
    destruct (IH _ _ _ _ _ Hrec l Hch') as [Hnd Hvis].
    assert (Hp : ~ In (id (deref p)) (ids (c :: l))).
    { intros Hx. apply (Hvis _ Hx). apply set_insert_In. now left. }
    split.
    + change (ids (p :: c :: l)) with (id (deref p) :: ids (c :: l)).
      now constructor.
    + change (ids (p :: c :: l)) with (id (deref p) :: ids (c :: l)).
      intros x [<-|Hx]; [exact Hv|].
      intros Hxv. apply (Hvis _ Hx). apply set_insert_In. now right.
Qed.

Lemma in_tl_app (x y : string) (l1 l2 : list string) :
  In x l2 -> In x (tl (l1 ++ y :: l2)).
Proof.
  destruct l1 as [|z l1]; cbn; [easy|]. intros H. apply in_app_iff. right.
  now right.
Qed.

Lemma in_tl_snoc (x y : string) (l : list string) :
  In x (tl (l ++ [y])) -> In x (tl l) \/ x = y.
Proof.
  destruct l as [|z l]; cbn; [easy|]. rewrite in_app_iff. cbn.
  intros [H|[H|[]]]; auto.
Qed.

Lemma CheckCyclicity_Throw_cycle (fuel : nat) :
  forall (p : ptr) (pp : list ptr) (visited : list string)
         (ft ft' : FaultTree) (e : Error),
  chain (pp ++ [p])%list -> NoDup (ids pp) ->
  (forall x, set_count visited x = true <-> In x (ids pp)) ->
  (forall x, In x (tl (ids pp ++ [id (deref p)])) ->
             count (inter_events_ ft) x = true) ->
  CheckCyclicity fuel p (ids pp) visited ft = (Throw e, ft') ->
  e <> OutOfFuel ->
  cycle_found (pp ++ [p])%list e ft'.
Proof.
  induction fuel as [|fuel IH];
    intros p pp visited ft ft' e Hch Hnd Hvis Hreg Hrun Hne.
  { cbn in Hrun. inversion Hrun; congruence. }
  rewrite CheckCyclicity_S in Hrun.
  destruct (set_count visited (id (deref p))) eqn:Hv.
  - apply Hvis in Hv. unfold ids in Hv. apply in_map_iff in Hv as (first & Hid & Hin).
    apply in_split in Hin as (pre & mid & ->).
    assert (Hpre : ~ In (id (deref p)) (ids pre)).
    { unfold ids in Hnd. rewrite map_app in Hnd. cbn [map] in Hnd.
      apply NoDup_remove_2 in Hnd. rewrite Hid in Hnd.
      intros H. apply Hnd. apply in_app_iff. now left. }
    assert (Hall : forall x, In x (ids (first :: mid ++ [p])) ->
                             count (inter_events_ ft) x = true).
    { intros x Hx. apply Hreg. unfold ids in *. rewrite !map_app in *.
      cbn [map] in *. rewrite <- app_assoc. cbn [app].
      destruct Hx as [Hx|Hx].
      - subst x. rewrite Hid. apply in_tl_app. apply in_app_iff. right. now left.
      - rewrite map_app in Hx. now apply in_tl_app. }
    rewrite (throw_cycle_spec p pre mid first ft Hid Hpre Hall) in Hrun.
    inversion Hrun; subst.
    exists pre, first, mid, p, []. rewrite app_nil_r, <- app_assoc. cbn [app].
    rewrite <- app_assoc in Hch. cbn [app] in Hch.
    repeat split; auto.
  - pose proof (for_each_rule (extends ft)
        (fun e s => e <> OutOfFuel -> cycle_found (pp ++ [p])%list e s)
        (CheckCyclicity_body fuel (ids pp ++ [id (deref p)])%list
           (set_insert visited (id (deref p))))
        (children (deref p))) as Hrule.
    specialize (Hrule) with (r := @Throw unit e) (3 := Hrun).
    apply Hrule; [|apply extends_refl|exact Hne].
    intros [k c] s r1 s1 Hin Hs Hbody.
    apply CheckCyclicity_body_inv in Hbody
      as [(_ & -> & ->)|(Hg & s2 & Hr2 & Hrec)]; [exact Hs|].
    destruct (register_implicit_extends c s) as (s2' & Hr2' & Hext2 & Hcnt).
    assert (s2' = s2) by congruence. subst s2'.
    destruct r1 as [[]|e1].
    { apply extends_trans with s2; [now apply extends_trans with s|].
      now apply CheckCyclicity_extends in Hrec. }
    intros Hne1.
    assert (Hids : (ids pp ++ [id (deref p)])%list = ids (pp ++ [p])).
    { unfold ids. now rewrite map_app. }
    rewrite Hids in Hrec.
    assert (Hv' : ~ In (id (deref p)) (ids pp))
      by (rewrite <- Hvis; congruence).
    apply IH in Hrec; [|
      rewrite <- app_assoc; apply chain_snoc; [exact Hch|];
        split; [now exists k|exact Hg]
      | rewrite <- Hids; apply NoDup_app; [exact Hnd|repeat constructor; easy|];
        intros x Hx [Hx'|[]]; subst x; contradiction
      | intros x; rewrite set_count_In, set_insert_In, <- Hids, in_app_iff,
          <- Hvis, set_count_In; cbn; intuition
      | | exact Hne1].
    + destruct Hrec as (pre & first & mid & parent & more & Heq & Hrest).
      exists pre, first, mid, parent, (c :: more). split; [|exact Hrest].
      rewrite <- Heq, <- !app_assoc. reflexivity.
    + intros x Hx. rewrite <- Hids in Hx. apply in_tl_snoc in Hx as [Hx| ->].
      * eapply extends_count; [exact Hext2|].
        eapply extends_count; [exact Hs|]. now apply Hreg.
      * exact Hcnt.
Qed.

(** C1: if some path of gate-typed children from the top gate [top]
    meets an identifier twice, [Validate] throws [ValidationError].  Its message
    is the header with the name of the tree, the original identifier of
    the repeated gate [parent], an arrow, and the original identifiers
    registered for the gates of the path from the first occurrence
    [first] of that identifier to its repetition [parent], joined by
    arrows; all of these are registered when the message is built. *)
Theorem Validate_cyclicity (ft : FaultTree) (top : ptr) (l : list ptr) :
  top_event_ ft = Some top ->
  chain (top :: l) -> ~ NoDup (ids (top :: l)) ->
  exists pre first mid parent rest ft1,
    (pre ++ first :: mid ++ [parent])%list = top :: rest /\
    chain (pre ++ first :: mid ++ [parent])%list /\
    id (deref first) = id (deref parent) /\
    NoDup (ids (pre ++ first :: mid)) /\
    (forall x, In x (ids (first :: mid ++ [parent])) ->
               count (inter_events_ ft1) x = true) /\
    Validate ft =
    (Throw (ValidationError
       ("Detected a cyclicity in '" ++ name_ ft ++ "' fault tree:" ++ LF ++
        orig_id (deref parent) ++ "->" ++
        String.concat "->"
          (map (registered_orig_id ft1) (ids (first :: mid ++ [parent]))))),
     ft1).
Proof.
  intros Htop Hch Hdup.
  destruct (CheckCyclicity depth_bound top [] [] ft) as [[[]|e] ft1] eqn:Hcc.
  - destruct (CheckCyclicity_Ok_acyclic _ _ _ _ _ _ Hcc l Hch) as [Hnd _].
    contradiction.
  - assert (Hne : e <> OutOfFuel).
    { intros ->. apply CheckCyclicity_fuel in Hcc;
        [congruence|constructor|easy|apply depth_bound_enough]. }
    pose proof (CheckCyclicity_extends _ _ _ _ _ _ _ Hcc) as [(F1 & _) _].
    pose proof Hcc as Htr. rewrite <- (traverse_Some _ _ Htop) in Htr.
    rewrite (Validate_Throw _ _ _ Htr).
    destruct (CheckCyclicity_Throw_cycle depth_bound top [] [] ft ft1 e)
      as (pre & first & mid & parent & more & Heq & H1 & H2 & H3 & H4 & ->);
      [constructor|constructor|easy|easy|exact Hcc|exact Hne|].
    exists pre, first, mid, parent, more, ft1.
    split; [now rewrite <- Heq|]. split; [exact H1|]. split; [exact H2|].
    split; [exact H3|]. split; [exact H4|].
    unfold cycle_msg. now rewrite F1.
Qed.

(** On a tree with a top gate [Validate] throws nothing but
    [ValidationError]. *)
Lemma Validate_throws_ValidationError (ft ft' : FaultTree) (e : Error) :
  top_event_ ft <> None ->
  Validate ft = (Throw e, ft') -> exists msg, e = ValidationError msg.
Proof.
  intros Htop Hv.
  destruct (top_event_ ft) as [top|] eqn:Et; [clear Htop|congruence].
  destruct (traverse ft) as [[[]|e1] fta] eqn:Hcc.
  - destruct (traverse_Ok_top _ _ Hcc) as (top' & _ & Eta & _).
    rewrite (Validate_Ok _ _ Hcc), GatherPrimaryEvents_flat in Hv
      by (simpl_ft; congruence).
    pose proof (for_each_rule (fun _ => True)
                  (fun e _ => exists msg, e = ValidationError msg)
                  GetPrimaryEvents_body
                  (gathered_children (set_primary_events [] fta))) as Hrule.
    specialize (Hrule) with (r := @Throw unit e) (3 := Hv).
    apply Hrule; [|exact I].
    intros x s r1 s1 _ _ Hx. rewrite GetPrimaryEvents_body_spec in Hx.
    destruct (classify _ x); inversion Hx; subst; try exact I. now eexists.
  - rewrite (Validate_Throw _ _ _ Hcc) in Hv. inversion Hv; subst.
    assert (Hne : e <> OutOfFuel).
    { intros ->. now apply traverse_not_OutOfFuel in Hcc. }
    rewrite (traverse_Some _ _ Et) in Hcc.
    destruct (CheckCyclicity_Throw_cycle depth_bound top [] [] ft ft' e)
      as (pre & first & mid & parent & more & _ & _ & _ & _ & _ & ->);
      [constructor|constructor|easy|easy|exact Hcc|exact Hne|].
    now eexists.
Qed.

(** Without a top gate the [assert] of [CheckCyclicity] on its argument
    fails and the tree is left as it was. *)
Lemma Validate_null (ft : FaultTree) :
  top_event_ ft = None -> Validate ft = (Throw AssertionFailure, ft).
Proof. intros Et. apply Validate_Throw. now apply traverse_null. Qed.

(** Where gates are told apart by their identifiers, the original
    identifier registered for a gate of the path is that gate's own. *)
Lemma registered_orig_id_gate (ft : FaultTree) (g : ptr) :
  unique_gate_ids -> well_keyed ft -> is_gate g ->
  count (inter_events_ ft) (id (deref g)) = true ->
  registered_orig_id ft (id (deref g)) = orig_id (deref g).
Proof.
  intros Huniq Hw Hg Hcnt. unfold registered_orig_id.
  apply find_count in Hcnt as (v & Hv). rewrite Hv. apply find_In in Hv.
  destruct (Hw _ _ Hv) as [Hid Hgv]. now rewrite (Huniq v g Hgv Hg).
Qed.

(** ** The invariants of a tree under construction *)

Lemma FaultTree_new_invariants (name : string) :
  implicit_registered (FaultTree_new name) /\ well_keyed (FaultTree_new name).
Proof. split; [intros x []|intros k v []]. Qed.

Lemma AddGate_invariants (gate : ptr) (ft ft' : FaultTree) (r : result unit) :
  is_gate gate -> implicit_registered ft -> well_keyed ft ->
  AddGate gate ft = (r, ft') ->
  implicit_registered ft' /\ well_keyed ft'.
Proof.
  intros Hg Hi Hw. unfold AddGate.
  destruct (String.eqb (top_event_id_ ft) ""); [intros [= <- <-]; now split|].
  destruct (_ || _) eqn:Hdup; [intros [= <- <-]; now split|].
  destruct (parents (deref gate)) as [ps|[]]; try (intros [= <- <-]; now split).
  destruct (negb _); intros [= <- <-]; [now split|].
  apply orb_false_iff in Hdup as [Hc _]. split.
  - unfold implicit_registered in *. simpl_ft. rewrite (insert_absent _ _ _ Hc).
    unfold keys. rewrite map_app. intros x Hx. apply in_app_iff. left. now apply Hi.
  - intros k v. simpl_ft. rewrite (insert_absent _ _ _ Hc), in_app_iff.
    intros [Hin|[[= <- <-]|[]]]; [now apply Hw|now split].
Qed.

(** X24: however it ends, [Validate] keeps the two invariants of the
    gate indexes: every implicit gate is also in [inter_events_], and
    [inter_events_] holds gates only, each under its own identifier. *)
Lemma Validate_invariants (ft ft' : FaultTree) (r : result unit) :
  implicit_registered ft -> well_keyed ft -> Validate ft = (r, ft') ->
  implicit_registered ft' /\ well_keyed ft'.
Proof.
  intros Hi Hw Hv.
  destruct (top_event_ ft) as [top|] eqn:Et;
    [|rewrite (Validate_null _ Et) in Hv; inversion Hv; subst; now split].
  destruct (traverse ft) as [[[]|e] fta] eqn:Htr; pose proof Htr as Hcc;
    rewrite (traverse_Some _ _ Et) in Hcc.
  - rewrite (Validate_Ok _ _ Htr) in Hv.
    apply GatherPrimaryEvents_frame in Hv as (_ & _ & _ & G4 & G5). simpl_ft.
    pose proof (CheckCyclicity_registers _ _ _ _ _ _ _ Hi Hcc) as Hreg.
    pose proof (registers_implicit_registered _ _ _ Hi Hreg) as Hia.
    pose proof (CheckCyclicity_well_keyed _ _ _ _ _ _ _ Hw Hcc) as Hwa.
    unfold implicit_registered, well_keyed in *. rewrite G4, G5. now split.
  - rewrite (Validate_Throw _ _ _ Htr) in Hv. inversion Hv; subst.
    split.
    + eapply registers_implicit_registered; [exact Hi|].
      eapply CheckCyclicity_registers; eassumption.
    + eapply CheckCyclicity_well_keyed; eassumption.
Qed.

(** ** What [AddGate] leaves behind *)

(** X18: an [AddGate] that throws has changed nothing in the tree, and
    what it throws is a [ValidationError]: the [LogicError] of a gate
    without parents never leaves the function. *)
Theorem AddGate_throw_unchanged (gate : ptr) (ft ft' : FaultTree) (e : Error) :
  AddGate gate ft = (Throw e, ft') ->
  ft' = ft /\ exists msg, e = ValidationError msg.
Proof.
  unfold AddGate. destruct (String.eqb (top_event_id_ ft) ""); [discriminate|].
  destruct (_ || _); [intros [= <- <-]; split; [reflexivity|now eexists]|].
  unfold parents. destruct (parents_ (deref gate)) as [|p ps].
  - intros [= <- <-]. split; [reflexivity|now eexists].
  - destruct (negb _); [|discriminate].
    intros [= <- <-]. split; [reflexivity|now eexists].
Qed.

(** X19: once a gate with a non-empty identifier has been added, adding
    a gate with the same identifier throws the double-definition
    diagnostic, whether the first became the top gate or was
    registered. *)
Theorem AddGate_again_throws (gate gate2 : ptr) (ft ft1 : FaultTree) :
  id (deref gate) <> "" -> id (deref gate2) = id (deref gate) ->
  AddGate gate ft = (Ok tt, ft1) ->
  AddGate gate2 ft1 =
  (Throw (ValidationError
     ("Trying to doubly define a gate '" ++ orig_id (deref gate2) ++ "'.")), ft1).
Proof.
  intros Hne Hid. unfold AddGate at 1.
  assert (Hidb : String.eqb (id (deref gate)) "" = false)
    by now apply String.eqb_neq.
  destruct (String.eqb (top_event_id_ ft) "") eqn:Etop.
  - intros [= <-]. unfold AddGate. simpl_ft.
    now rewrite Hidb, Hid, String.eqb_refl, orb_true_r.
  - destruct (_ || _); [discriminate|].
    destruct (parents (deref gate)) as [ps|[]]; try discriminate.
    destruct (negb _); [discriminate|].
    intros [= <-]. unfold AddGate. simpl_ft.
    now rewrite Etop, Hid, count_insert_same.
Qed.

(** X20: the empty string is the mark of a tree without a top gate, so
    a first gate with the empty identifier is forgotten: the next gate
    added becomes the top gate, as if the first had never been added. *)
Theorem AddGate_empty_id_forgotten (g1 g2 : ptr) (ft : FaultTree) :
  top_event_id_ ft = "" -> id (deref g1) = "" ->
  exists ft1, AddGate g1 ft = (Ok tt, ft1) /\ top_event_ ft1 = Some g1 /\
              AddGate g2 ft1 = AddGate g2 ft.
Proof.
  intros Htop Hid. exists (set_top g1 "" ft).
  unfold AddGate. simpl_ft. rewrite Htop, Hid. cbn [String.eqb].
  repeat split.
Qed.

Lemma known_set_inter_events (ft : FaultTree) (m : unordered_map) (k : string) :
  known ft k -> known (set_inter_events (inter_events_ ft ++ m)%list ft) k.
Proof.
  intros [H|H]; [left|right; exact H]. simpl_ft. unfold keys.
  rewrite map_app. apply in_app_iff. now left.
Qed.

Lemma AddGate_declared (gate : ptr) (ft ft' : FaultTree) (r : result unit) :
  declared ft -> AddGate gate ft = (r, ft') -> declared ft'.
Proof.
  intros D. pose proof D as (D1 & D2 & D3). unfold AddGate.
  destruct (String.eqb (top_event_id_ ft) "") eqn:Etop.
  - apply String.eqb_eq in Etop. specialize (D1 Etop).
    intros [= <- <-]. unfold declared. simpl_ft. rewrite D1.
    split; [reflexivity|]. split; [reflexivity|]. intros k g [].
  - destruct (_ || _) eqn:Hdup; [intros [= <- <-]; exact D|].
    destruct (parents (deref gate)) as [ps|[]] eqn:Hps;
      try (intros [= <- <-]; exact D).
    destruct (negb _) eqn:Hfound; intros [= <- <-]; [exact D|].
    apply orb_false_iff in Hdup as [Hc Ht].
    apply negb_false_iff, parent_found_iff in Hfound as (kp & p & Hin & Hk).
    assert (Hps' : ps = parents_ (deref gate)).
    { unfold parents in Hps. destruct (parents_ (deref gate)); now inversion Hps. }
    rewrite (insert_absent _ _ _ Hc). unfold declared. simpl_ft.
    split; [intros E; rewrite E in Etop; discriminate|]. split; [exact D2|].
    intros k g Hkg. apply in_app_iff in Hkg as [Hkg|[[= <- <-]|[]]].
    + destruct (D3 k g Hkg) as (E1 & E2 & kp' & p' & Hin' & Hk').
      split; [exact E1|]. split; [exact E2|]. exists kp', p'.
      split; [exact Hin'|]. now apply known_set_inter_events.
    + split; [reflexivity|]. split; [now apply String.eqb_neq|].
      exists kp, p. split; [now rewrite <- Hps'|].
      now apply known_set_inter_events.
Qed.

(** X21: whatever gates are added to a new tree, and whichever of the
    calls throw, the tree has no dangling gate: every registered gate
    is stored under its own identifier, which is not that of the top
    gate, and one of its parents is the top gate or a registered gate;
    the top pointer is the gate that gave [top_event_id_]. *)
Theorem AddGate_no_dangling (gates : list ptr) (name : string) :
  declared (fold_left (fun ft gate => snd (AddGate gate ft)) gates
              (FaultTree_new name)).
Proof.
  assert (H : forall ft, declared ft ->
            declared (fold_left (fun ft gate => snd (AddGate gate ft)) gates ft)).
  { induction gates as [|gate gates IH]; intros ft Hft; [exact Hft|].
    cbn [fold_left]. apply IH.
    destruct (AddGate gate ft) as [r ft'] eqn:E. cbn [snd].
    exact (AddGate_declared _ _ _ _ Hft E). }
  apply H. split; [reflexivity|]. split; [reflexivity|]. intros k g [].
Qed.

(** ** What [Validate] leaves behind *)

(** X14: every diagnostic of [Validate] is justified.  What it throws
    on a tree with a top gate is the cyclicity diagnostic for a path of
    gate-typed children from the top gate whose last gate repeats an
    earlier identifier, built from gates that are all registered, or
    the diagnostic for a child of the top gate or of a registered gate
    that is no primary event and whose key is no registered gate. *)
Theorem Validate_diagnostics_sound (ft ft' : FaultTree) (top : ptr) (e : Error) :
  top_event_ ft = Some top -> Validate ft = (Throw e, ft') ->
  (exists pre first mid parent rest,
     (pre ++ first :: mid ++ [parent])%list = top :: rest /\
     chain (pre ++ first :: mid ++ [parent])%list /\
     id (deref first) = id (deref parent) /\
     (forall x, In x (ids (first :: mid ++ [parent])) ->
        count (inter_events_ ft') x = true) /\
     e = ValidationError (cycle_msg ft' parent (ids (first :: mid ++ [parent])))) \/
  (exists k c,
     In (k, c) (gathered_children ft') /\ count (inter_events_ ft') k = false /\
     dynamic_cast_PrimaryEvent c = None /\
     e = ValidationError
           ("Node with id '" ++ orig_id (deref c) ++ "' was not defined in '" ++
            name_ ft ++ "' tree")).
Proof.
  intros Et Hv.
  destruct (traverse ft) as [[[]|e1] fta] eqn:Htr.
  - right.
    destruct (traverse_Ok_top _ _ Htr) as (top' & _ & Eta & _).
    pose proof (traverse_extends _ _ _ Htr) as [(F1 & _) _].
    rewrite (Validate_Ok _ _ Htr), GatherPrimaryEvents_flat in Hv
      by (simpl_ft; congruence).
    set (s := set_primary_events [] fta) in *.
    pose proof (for_each_body_frame _ _ _ _ Hv) as (_ & _ & G3 & G4 & _).
    assert (Hg : gathered_children ft' = gathered_children s).
    { unfold gathered_children. now rewrite G3, G4. }
    rewrite Hg, G4.
    pose (Inv := fun s' : FaultTree =>
      inter_events_ s' = inter_events_ s /\ name_ s' = name_ s).
    pose proof (for_each_rule Inv
      (fun e0 _ => exists k c,
         In (k, c) (gathered_children s) /\ count (inter_events_ s) k = false /\
         dynamic_cast_PrimaryEvent c = None /\
         e0 = ValidationError (undefined_msg (name_ s) c))
      GetPrimaryEvents_body (gathered_children s)) as Hrule.
    specialize (Hrule) with (r := @Throw unit e) (3 := Hv).
    destruct Hrule as (k & c & Hin & Hk & Hc & He).
    + intros [k c] s' r1 s1 Hin [Hi Hn] Hx.
      pose proof (GetPrimaryEvents_body_frame _ _ _ _ Hx) as (B1 & _ & _ & B4 & _).
      rewrite GetPrimaryEvents_body_spec in Hx.
      destruct (classify (inter_events_ s') (k, c)) eqn:Ec;
        inversion Hx; subst; try (split; congruence).
      rewrite Hi in Ec. apply classify_Undefined in Ec as [Ek Ecast].
      exists k, c. cbn [snd]. rewrite Hn. now repeat split.
    + now split.
    + exists k, c. split; [exact Hin|]. split; [exact Hk|]. split; [exact Hc|].
      rewrite He. unfold undefined_msg, s. simpl_ft. now rewrite F1.
  - left. rewrite (Validate_Throw _ _ _ Htr) in Hv. inversion Hv; subst e1 fta.
    assert (Hne : e <> OutOfFuel)
      by (intros ->; now apply traverse_not_OutOfFuel in Htr).
    rewrite (traverse_Some _ _ Et) in Htr.
    destruct (CheckCyclicity_Throw_cycle depth_bound top [] [] ft ft' e)
      as (pre & first & mid & parent & more & Heq & H1 & H2 & _ & H4 & He);
      [constructor|constructor|easy|easy|exact Htr|exact Hne|].
    exists pre, first, mid, parent, more.
    split; [now rewrite <- Heq|]. now repeat split.
Qed.

(** X13: a [Validate] that returns has found the gates below the top
    gate free of cycles: no path of gate-typed children from the top
    gate meets an identifier twice. *)
Theorem Validate_Ok_acyclic (ft ft1 : FaultTree) (top : ptr) (l : list ptr) :
  top_event_ ft = Some top -> Validate ft = (Ok tt, ft1) ->
  chain (top :: l) -> NoDup (ids (top :: l)).
Proof.
  intros Et Hv Hch.
  destruct (traverse ft) as [[[]|e] fta] eqn:Htr.
  - destruct (traverse_Ok_top _ _ Htr) as (top' & Et' & _ & Hcc).
    assert (top' = top) by congruence. subst top'.
    exact (proj1 (CheckCyclicity_Ok_acyclic _ _ _ _ _ _ Hcc l Hch)).
  - rewrite (Validate_Throw _ _ _ Htr) in Hv. discriminate.
Qed.

(** X25: cycles are all that the traversal rejects.  When no path of
    gate-typed children from the top gate meets an identifier twice,
    as in a tree whose gates are shared by several parents, the
    traversal returns, and [Validate] goes on to gather the primary
    events. *)
Theorem Validate_acyclic_traverses (ft : FaultTree) (top : ptr) :
  top_event_ ft = Some top ->
  (forall l, chain (top :: l) -> NoDup (ids (top :: l))) ->
  exists fta, traverse ft = (Ok tt, fta) /\
              Validate ft = GatherPrimaryEvents (set_primary_events [] fta).
Proof.
  intros Et Hac. destruct (traverse ft) as [[[]|e] fta] eqn:Htr.
  - exists fta. split; [reflexivity|now apply Validate_Ok].
  - exfalso.
    assert (Hne : e <> OutOfFuel)
      by (intros ->; now apply traverse_not_OutOfFuel in Htr).
    rewrite (traverse_Some _ _ Et) in Htr.
    destruct (CheckCyclicity_Throw_cycle depth_bound top [] [] ft fta e)
      as (pre & first & mid & parent & more & Heq & Hch & Hid & _);
      [constructor|constructor|easy|easy|exact Htr|exact Hne|].
    cbn [app] in Heq. rewrite <- Heq in Hch. specialize (Hac more Hch).
    rewrite Heq in Hac. unfold ids in Hac.
    rewrite map_app in Hac. cbn [map] in Hac. rewrite map_app in Hac.
    apply NoDup_remove_2 in Hac. apply Hac.
    rewrite in_app_iff. right. rewrite in_app_iff. right. left.
    symmetry. exact Hid.
Qed.

(** X15: however it ends, [Validate] keeps the name, the top identifier
    and the top pointer; it appends the same entries to [inter_events_]
    and [implicit_gates_] and removes none; and no key leaves
    [basic_events_] or [house_events_], which are never cleared. *)
Theorem Validate_frame (ft ft' : FaultTree) (r : result unit) :
  implicit_registered ft -> Validate ft = (r, ft') ->
  name_ ft' = name_ ft /\ top_event_id_ ft' = top_event_id_ ft /\
  top_event_ ft' = top_event_ ft /\
  (exists new, inter_events_ ft' = (inter_events_ ft ++ new)%list /\
               implicit_gates_ ft' = (implicit_gates_ ft ++ new)%list) /\
  forall k,
    (count (basic_events_ ft) k = true -> count (basic_events_ ft') k = true) /\
    (count (house_events_ ft) k = true -> count (house_events_ ft') k = true).
Proof.
  intros Hi Hv.
  destruct (top_event_ ft) as [top|] eqn:Et.
  2:{ rewrite (Validate_null _ Et) in Hv. inversion Hv; subst ft' r.
      split; [reflexivity|]. split; [reflexivity|]. split; [exact Et|].
      split; [exists []; now rewrite !app_nil_r|]. intros k. now split. }
  destruct (traverse ft) as [[[]|e] fta] eqn:Htr; pose proof Htr as Hcc;
    rewrite (traverse_Some _ _ Et) in Hcc;
    destruct (CheckCyclicity_registers _ _ _ _ _ _ _ Hi Hcc) as (new & Hreg & _);
    unfold registered in Hreg.
  - rewrite (Validate_Ok _ _ Htr) in Hv.
    pose proof (GatherPrimaryEvents_frame _ _ _ Hv) as (G1 & G2 & G3 & G4 & G5).
    rewrite GatherPrimaryEvents_flat in Hv by (subst fta; simpl_ft; congruence).
    pose proof (for_each_body_keeps _ _ _ _ Hv) as Hk.
    subst fta. simpl_ft.
    split; [exact G1|]. split; [exact G2|]. split; [congruence|].
    split; [now exists new|].
    intros k. destruct (Hk k) as (_ & Hb & Hh). now split.
  - rewrite (Validate_Throw _ _ _ Htr) in Hv. inversion Hv; subst ft' r.
    subst fta. simpl_ft.
    split; [reflexivity|]. split; [reflexivity|]. split; [exact Et|].
    split; [now exists new|]. intros k. now split.
Qed.

(** X17: after a [Validate] that returned, every key of
    [primary_events_] is a key of [basic_events_] or of
    [house_events_]; and when these two were empty before, they hold
    no other keys. *)
Theorem Validate_primary_indexed (ft ft1 : FaultTree) :
  Validate ft = (Ok tt, ft1) ->
  (forall k, In k (keys (primary_events_ ft1)) ->
     In k (keys (basic_events_ ft1)) \/ In k (keys (house_events_ ft1))) /\
  (basic_events_ ft = [] -> house_events_ ft = [] ->
   forall k, In k (keys (basic_events_ ft1)) \/ In k (keys (house_events_ ft1)) ->
     In k (keys (primary_events_ ft1))).
Proof.
  intros Hv.
  destruct (traverse ft) as [[[]|e] fta] eqn:Htr.
  2:{ rewrite (Validate_Throw _ _ _ Htr) in Hv. discriminate. }
  destruct (traverse_Ok_top _ _ Htr) as (top & _ & Eta & _).
  pose proof (traverse_extends _ _ _ Htr) as [(_ & _ & _ & _ & F5 & F6) _].
  rewrite (Validate_Ok _ _ Htr), GatherPrimaryEvents_flat in Hv
    by (simpl_ft; congruence).
  set (s := set_primary_events [] fta) in *.
  pose (I1 := fun s' : FaultTree => forall k,
    count (primary_events_ s') k = true ->
    count (basic_events_ s') k || count (house_events_ s') k = true).
  pose (I2 := fun s' : FaultTree => forall k,
    count (basic_events_ s') k || count (house_events_ s') k = true ->
    count (primary_events_ s') k = true).
  assert (Hstep : forall (Inv : FaultTree -> Prop),
    (forall x s', Inv s' ->
       Inv (set_basic_events (insert (basic_events_ s') (fst x) (snd x))
              (set_primary_events (insert (primary_events_ s') (fst x) (snd x)) s')) /\
       Inv (set_house_events (insert (house_events_ s') (fst x) (snd x))
              (set_primary_events (insert (primary_events_ s') (fst x) (snd x)) s'))) ->
    Inv s -> Inv ft1).
  { intros Inv HI Hs.
    pose proof (for_each_rule Inv (fun _ _ => True) GetPrimaryEvents_body
                  (gathered_children s)) as Hrule.
    specialize (Hrule) with (r := Ok tt) (3 := Hv). apply Hrule; [|exact Hs].
    intros x s' r1 s1 _ Hs' Hx. rewrite GetPrimaryEvents_body_spec in Hx.
    destruct (classify _ x); inversion Hx; subst.
    - exact Hs'.
    - exact (proj1 (HI x s' Hs')).
    - exact (proj2 (HI x s' Hs')).
    - exact I. }
  split.
  - intros k Hk. apply count_In in Hk.
    assert (H1 : I1 ft1).
    { apply Hstep.
      - intros x s' Hs'. unfold I1 in *.
        split; intros k0 Hk0; simpl_ft; rewrite count_insert in *;
          specialize (Hs' k0);
          destruct (count (primary_events_ s') k0), (count (basic_events_ s') k0),
            (count (house_events_ s') k0), (String.eqb (fst x) k0);
          cbn in *; auto.
      - intros k0 Hk0. discriminate. }
    specialize (H1 k Hk). apply orb_true_iff in H1 as [H|H]; [left|right];
      now apply count_In.
  - intros Hb Hh k Hk.
    assert (H2 : I2 ft1).
    { apply Hstep.
      - intros x s' Hs'. unfold I2 in *.
        split; intros k0 Hk0; simpl_ft; rewrite count_insert in *;
          specialize (Hs' k0);
          destruct (count (primary_events_ s') k0), (count (basic_events_ s') k0),
            (count (house_events_ s') k0), (String.eqb (fst x) k0);
          cbn in *; auto.
      - intros k0. unfold s. simpl_ft. rewrite F5, F6, Hb, Hh. discriminate. }
    apply count_In, H2.
    destruct Hk as [Hk|Hk]; apply count_In in Hk; rewrite Hk;
      [reflexivity|apply orb_true_r].
Qed.

(** X22: when every gate below the top gate has been declared, which
    is to say registered in [inter_events_], [Validate] registers
    nothing: [inter_events_] and [implicit_gates_] stay as they were. *)
Theorem Validate_declared_gates_only (ft ft' : FaultTree) (top : ptr)
    (r : result unit) :
  implicit_registered ft -> top_event_ ft = Some top ->
  (forall d, reaches top d -> count (inter_events_ ft) (id (deref d)) = true) ->
  Validate ft = (r, ft') ->
  inter_events_ ft' = inter_events_ ft /\ implicit_gates_ ft' = implicit_gates_ ft.
Proof.
  intros Hi Et Hall Hv.
  assert (Hnone : forall fta r1, traverse ft = (r1, fta) ->
            inter_events_ fta = inter_events_ ft /\
            implicit_gates_ fta = implicit_gates_ ft).
  { intros fta r1 Htr. rewrite (traverse_Some _ _ Et) in Htr.
    destruct (CheckCyclicity_registers _ _ _ _ _ _ _ Hi Htr) as (new & Hreg & Hnew & _).
    destruct new as [|e new].
    - unfold registered in Hreg. subst fta. simpl_ft. now rewrite !app_nil_r.
    - inversion Hnew as [|? ? (Hr & Hk & Hc) _]; subst.
      rewrite Hk, (Hall _ Hr) in Hc. discriminate. }
  destruct (traverse ft) as [[[]|e] fta] eqn:Htr.
  - destruct (Hnone fta (Ok tt) eq_refl) as [H1 H2].
    rewrite (Validate_Ok _ _ Htr) in Hv.
    apply GatherPrimaryEvents_frame in Hv as (_ & _ & _ & G4 & G5). simpl_ft.
    split; congruence.
  - destruct (Hnone fta (Throw e) eq_refl) as [H1 H2].
    rewrite (Validate_Throw _ _ _ Htr) in Hv. inversion Hv; subst. now split.
Qed.

(** X23: which undefined node the diagnostic names: after a traversal
    that returned, [GatherPrimaryEvents] goes through the children of
    the top gate and then those of the registered gates, and [Validate]
    throws at the first child that is no primary event under a key that
    is no registered gate. *)
Theorem Validate_first_undefined (ft fta : FaultTree) (l1 l2 : std_map)
    (k : string) (c : ptr) :
  traverse ft = (Ok tt, fta) ->
  gathered_children fta = (l1 ++ (k, c) :: l2)%list ->
  (forall k' c', In (k', c') l1 ->
     count (inter_events_ fta) k' = true \/ dynamic_cast_PrimaryEvent c' <> None) ->
  count (inter_events_ fta) k = false -> dynamic_cast_PrimaryEvent c = None ->
  exists ft1,
    Validate ft =
    (Throw (ValidationError
       ("Node with id '" ++ orig_id (deref c) ++ "' was not defined in '" ++
        name_ ft ++ "' tree")), ft1).
Proof.
  intros Htr Hsplit Hl1 Hk Hc.
  destruct (traverse_Ok_top _ _ Htr) as (top & _ & Eta & _).
  pose proof (traverse_extends _ _ _ Htr) as [(F1 & _) _].
  rewrite (Validate_Ok _ _ Htr), GatherPrimaryEvents_flat by (simpl_ft; congruence).
  set (s := set_primary_events [] fta).
  assert (Hg : gathered_children s = gathered_children fta) by reflexivity.
  rewrite Hg, Hsplit, for_each_app.
  destruct (for_each_body_defined l1 s) as (s1 & Hrun & _).
  { intros [k' c'] Hin Hu. apply classify_Undefined in Hu as [Hu1 Hu2].
    unfold s in Hu1. simpl_ft.
    destruct (Hl1 k' c' Hin) as [H|H]; [congruence|contradiction]. }
  pose proof (for_each_body_frame _ _ _ _ Hrun) as (G1 & _ & _ & G4 & _).
  rewrite (bind_Ok _ _ _ _ _ Hrun), for_each_cons.
  assert (Hx : GetPrimaryEvents_body (k, c) s1 =
               (Throw (ValidationError (undefined_msg (name_ s1) c)), s1)).
  { rewrite GetPrimaryEvents_body_spec.
    assert (Hu : classify (inter_events_ s1) (k, c) = Undefined).
    { apply classify_Undefined. rewrite G4. unfold s. simpl_ft. now split. }
    now rewrite Hu. }
  exists s1. rewrite (bind_Throw _ _ _ _ _ Hx).
  unfold undefined_msg. rewrite G1. unfold s. simpl_ft. now rewrite F1.
Qed.

End Heap.

(** ** The order in which [inter_events_] is iterated *)

Section HashOrders.

Variable h : list Event.

(** Two ways in which the container may iterate its entries: each
    visits every entry once. *)
Variables order1 order2 : unordered_map -> unordered_map.
Hypothesis order1_perm : forall m, Permutation (order1 m) m.
Hypothesis order2_perm : forall m, Permutation (order2 m) m.

Lemma gathered_children_orders (ft : FaultTree) (it : string * ptr) :
  In it (gathered_children h order1 ft) <-> In it (gathered_children h order2 ft).
Proof.
  unfold gathered_children. rewrite !in_app_iff, !in_flat_map.
  split; (intros [H|(x & Hx & Hin)]; [now left|right; exists x; split; [|exact Hin]]).
  - apply (Permutation_in _ (Permutation_sym (order2_perm _))).
    now apply (Permutation_in _ (order1_perm _)).
  - apply (Permutation_in _ (Permutation_sym (order1_perm _))).
    now apply (Permutation_in _ (order2_perm _)).
Qed.

(** The loop returns exactly when no child is undefined. *)
Lemma for_each_body_Ok_iff (l : std_map) (ft : FaultTree) :
  fst (for_each (GetPrimaryEvents_body h) l ft) = Ok tt <->
  forall it, In it l -> classify h (inter_events_ ft) it <> Undefined.
Proof.
  split.
  - intros Hok it Hin Hu.
    destruct (for_each_body_Undefined h l ft (ex_intro _ it (conj Hin Hu)))
      as (? & ? & _ & _ & Hthrow).
    rewrite Hthrow in Hok. discriminate.
  - intros Hall. destruct (for_each_body_defined h l ft Hall) as (ft1 & Hrun & _).
    now rewrite Hrun.
Qed.

(** Every key among the primary events after the loop was there before
    or is the key of a child that is no registered gate. *)
Lemma for_each_body_primary_keys (l : std_map) (ft ft1 : FaultTree)
    (r : result unit) :
  for_each (GetPrimaryEvents_body h) l ft = (r, ft1) ->
  forall k, count (primary_events_ ft1) k = true ->
    count (primary_events_ ft) k = true \/
    exists c, In (k, c) l /\ classify h (inter_events_ ft) (k, c) <> Registered.
Proof.
  intros Hrun.
  pose (I := fun s : FaultTree =>
    inter_events_ s = inter_events_ ft /\
    forall k, count (primary_events_ s) k = true ->
      count (primary_events_ ft) k = true \/
      exists c, In (k, c) l /\ classify h (inter_events_ ft) (k, c) <> Registered).
  pose proof (for_each_rule I (fun _ => I) (GetPrimaryEvents_body h) l) as Hrule.
  assert (H : match r with Ok _ => I ft1 | Throw _ => I ft1 end).
  { apply Hrule with (ft := ft); [|split; [reflexivity|now left]|exact Hrun].
    intros [k c] s r1 s1 Hin [Hi Hs] Hx.
    assert (I s1).
    { rewrite GetPrimaryEvents_body_spec in Hx. rewrite Hi in Hx.
      destruct (classify h (inter_events_ ft) (k, c)) eqn:Ec;
        inversion Hx; subst; (split; [exact Hi|]); simpl_ft; try exact Hs;
        intros k'; rewrite count_insert; cbn [fst];
        (intros [Hk|Hk]%orb_true_iff; [now apply Hs|]);
        apply String.eqb_eq in Hk; subst k'; right; exists c;
        (split; [exact Hin|congruence]). }
    now destruct r1. }
  destruct r; apply H.
Qed.

(** C9, as the code has it: the outcome of the traversal, whether
    [Validate] returns, the gates it registers and, when it returns,
    the keys of the primary events it collects are the same for any two
    iteration orders of [inter_events_]; and two runs in which the
    container iterates in the same order give the same outcome, the
    same diagnostic and the same tree. *)
Theorem Validate_order_independence (ft : FaultTree) :
  let v1 := Validate h order1 ft in
  let v2 := Validate h order2 ft in
  (forall e fta,
     traverse h ft = (Throw e, fta) ->
     v1 = (Throw e, fta) /\ v2 = (Throw e, fta)) /\
  (fst v1 = Ok tt <-> fst v2 = Ok tt) /\
  inter_events_ (snd v1) = inter_events_ (snd v2) /\
  implicit_gates_ (snd v1) = implicit_gates_ (snd v2) /\
  (fst v1 = Ok tt ->
   forall k, In k (keys (primary_events_ (snd v1))) <->
             In k (keys (primary_events_ (snd v2)))) /\
  ((forall m, order1 m = order2 m) -> v1 = v2).
Proof.
  intros v1 v2. subst v1 v2.
  destruct (traverse h ft) as [[[]|e] fta] eqn:Hcc.
  - destruct (traverse_Ok_top h _ _ Hcc) as (top & _ & Eta & _).
    rewrite !(Validate_Ok h _ _ _ Hcc), !GatherPrimaryEvents_flat
      by (simpl_ft; congruence).
    set (s := set_primary_events [] fta).
    destruct (for_each (GetPrimaryEvents_body h) (gathered_children h order1 s) s)
      as [r1 s1] eqn:H1.
    destruct (for_each (GetPrimaryEvents_body h) (gathered_children h order2 s) s)
      as [r2 s2] eqn:H2.
    pose proof (for_each_body_frame h _ _ _ _ H1) as (_ & _ & _ & A4 & A5).
    pose proof (for_each_body_frame h _ _ _ _ H2) as (_ & _ & _ & B4 & B5).
    assert (Hok : r1 = Ok tt <-> r2 = Ok tt).
    { change r1 with (fst (r1, s1)). change r2 with (fst (r2, s2)).
      rewrite <- H1, <- H2, !for_each_body_Ok_iff.
      split; intros Hall it Hin; apply Hall; now apply gathered_children_orders. }
    cbn [fst snd]. split; [intros e fta' [=]|]. split; [exact Hok|].
    split; [congruence|]. split; [congruence|]. split.
    + intros Hr1. assert (Hr2 : r2 = Ok tt) by now apply Hok. subst r1 r2.
      assert (Hkeys : forall ord sx,
                for_each (GetPrimaryEvents_body h) (gathered_children h ord s) s =
                (Ok tt, sx) ->
                forall k, In k (keys (primary_events_ sx)) <->
                  exists c, In (k, c) (gathered_children h ord s) /\
                    classify h (inter_events_ s) (k, c) <> Registered).
      { intros ord sx Hrun k. rewrite <- count_In. split.
        - intros Hk.
          destruct (for_each_body_primary_keys _ _ _ _ Hrun k Hk) as [Hk0|Hk0];
            [discriminate|exact Hk0].
        - intros (c & Hin & Hc).
          assert (Hall : forall it, In it (gathered_children h ord s) ->
                    classify h (inter_events_ s) it <> Undefined).
          { apply for_each_body_Ok_iff. now rewrite Hrun. }
          destruct (for_each_body_defined h _ _ Hall) as (sx' & Hrun' & Hprim).
          assert (sx' = sx) by congruence. subst sx'.
          exact (Hprim (k, c) Hin Hc). }
      intros k. rewrite (Hkeys order1 s1 H1), (Hkeys order2 s2 H2).
      split; intros (c & Hin & Hc); exists c; (split; [|exact Hc]);
        now apply gathered_children_orders.
    + intros Heq. rewrite <- H1, <- H2. unfold gathered_children.
      now rewrite Heq.
  - rewrite !(Validate_Throw h _ _ _ _ Hcc). cbn [fst snd].
    split; [intros e' fta' [= <- <-]; now split|].
    repeat split; intros; try discriminate; reflexivity.
Qed.

End HashOrders.

(** ** The primary events that [Validate] collects *)

Section Gathered.

Variable h : list Event.
Variable hash_order : unordered_map -> unordered_map.

(** X16: after a [Validate] that returned the tree is fully defined and
    [primary_events_] holds what this run collected and nothing from
    before: every child of the top gate and of a registered gate is a
    primary event or has the key of a registered gate, and the keys of
    [primary_events_] are exactly the keys of those children that are
    no keys of registered gates. *)
Theorem Validate_primary_events (ft ft1 : FaultTree) :
  Validate h hash_order ft = (Ok tt, ft1) ->
  (forall k c, In (k, c) (gathered_children h hash_order ft1) ->
     count (inter_events_ ft1) k = true \/
     dynamic_cast_PrimaryEvent h c <> None) /\
  (forall k, In k (keys (primary_events_ ft1)) <->
     exists c, In (k, c) (gathered_children h hash_order ft1) /\
               count (inter_events_ ft1) k = false).
Proof.
  intros Hv.
  destruct (traverse h ft) as [[[]|e] fta] eqn:Htr.
  2:{ rewrite (Validate_Throw h _ _ _ _ Htr) in Hv. discriminate. }
  destruct (traverse_Ok_top h _ _ Htr) as (top & _ & Eta & _).
  rewrite (Validate_Ok h _ _ _ Htr), GatherPrimaryEvents_flat in Hv
    by (simpl_ft; congruence).
  set (s := set_primary_events [] fta) in *.
  pose proof (for_each_body_frame h _ _ _ _ Hv) as (_ & _ & G3 & G4 & _).
  assert (Hg : gathered_children h hash_order ft1 = gathered_children h hash_order s).
  { unfold gathered_children. now rewrite G3, G4. }
  rewrite Hg, G4.
  assert (Hall : forall it, In it (gathered_children h hash_order s) ->
            classify h (inter_events_ s) it <> Undefined).
  { apply for_each_body_Ok_iff. now rewrite Hv. }
  split.
  - intros k c Hin. specialize (Hall (k, c) Hin).
    destruct (count (inter_events_ s) k) eqn:Ek; [now left|right].
    intros Hc. apply Hall. now apply classify_Undefined.
  - intros k. rewrite <- count_In. split.
    + intros Hk.
      destruct (for_each_body_primary_keys h _ _ _ _ Hv k Hk) as [Hk0|(c & Hin & Hc)];
        [discriminate|].
      exists c. split; [exact Hin|].
      destruct (count (inter_events_ s) k) eqn:Ek; [|reflexivity].
      exfalso. apply Hc. now apply classify_Registered.
    + intros (c & Hin & Hc).
      destruct (for_each_body_defined h _ _ Hall) as (s1 & Hrun & Hprim).
      assert (s1 = ft1) by congruence. subst s1.
      apply (Hprim (k, c) Hin). rewrite classify_Registered. cbn [fst]. congruence.
Qed.

End Gathered.

(** ** The sample trees *)

Example cyclic_tree_built :
  for_each (AddGate cyclic_heap parents_text) [0; 1] (FaultTree_new "T") =
  (Ok tt, cyclic_tree).
Proof. reflexivity. Qed.

Example two_undefined_tree_built :
  for_each (AddGate two_undefined_heap parents_text) [0; 1; 2] (FaultTree_new "T") =
  (Ok tt, two_undefined_tree).
Proof. reflexivity. Qed.

Example implicit_tree_built :
  for_each (AddGate implicit_heap parents_text) [0] (FaultTree_new "T") =
  (Ok tt, implicit_tree).
Proof. reflexivity. Qed.

Example undefined_tree_built :
  for_each (AddGate undefined_heap parents_text) [0] (FaultTree_new "T") =
  (Ok tt, undefined_tree).
Proof. reflexivity. Qed.

(** The second gate of [cyclic_tree] names the top gate as its parent
    and is registered. *)
Lemma AddGate_spec_witness :
  AddGate cyclic_heap parents_text 1 (mkFaultTree "T" "g1" (Some 0) [] [] [] [] []) =
  (Ok tt, mkFaultTree "T" "g1" (Some 0) [("g2", 1)] [] [] [] []).
Proof.
  refine (proj2 (proj2 (proj2 (proj2
    (proj2 (proj2
       (AddGate_spec cyclic_heap parents_text
          (mkFaultTree "T" "g1" (Some 0) [] [] [] [] []) 1)) _)))) _ _).
  - cbn. discriminate.
  - unfold known. cbn. intros [[]|H]. discriminate.
  - exists "g1", 0. split; [cbn; auto|]. right. reflexivity.
Defined.

(** After a first gate whose identifier is the empty string the tree
    still counts as having no gate: the same gate is accepted a second
    time, and a gate without parents is accepted and replaces the first
    as the top event. *)
Lemma AddGate_empty_first_id_unchecked :
  id (deref anonymous_heap 0) = "" /\
  for_each (AddGate anonymous_heap parents_text) [0; 0] (FaultTree_new "T") =
    (Ok tt, mkFaultTree "T" "" (Some 0) [] [] [] [] []) /\
  parents_ (deref anonymous_heap 1) = [] /\
  for_each (AddGate anonymous_heap parents_text) [0; 1] (FaultTree_new "T") =
    (Ok tt, mkFaultTree "T" "g" (Some 1) [] [] [] [] []).
Proof. repeat split. Qed.

Example AddGate_first :
  AddGate cyclic_heap parents_text 0 (FaultTree_new "T") =
  (Ok tt, mkFaultTree "T" "g1" (Some 0) [] [] [] [] []).
Proof. reflexivity. Qed.

Example AddGate_twice :
  AddGate cyclic_heap parents_text 1 (mkFaultTree "T" "g1" (Some 0) [("g2", 1)] [] [] [] []) =
  (Throw (ValidationError "Trying to doubly define a gate 'G2'."),
   mkFaultTree "T" "g1" (Some 0) [("g2", 1)] [] [] [] []).
Proof. reflexivity. Qed.

Example AddGate_dangling :
  AddGate two_undefined_heap parents_text 1 (mkFaultTree "T" "g2" (Some 2) [] [] [] [] []) =
  (Throw (ValidationError
     "Gate 'G1' has no pre-decleared parent gate in 'T' fault tree. This gate is a dangling gate. The tree structure input might be malformed."),
   mkFaultTree "T" "g2" (Some 2) [] [] [] [] []).
Proof. reflexivity. Qed.

(** Only addresses of the heap hold gates. *)
Lemma deref_overflow (h : list Event) (p : ptr) :
  List.length h <= p -> deref h p = null_event.
Proof. intros H. unfold deref. now apply nth_overflow. Qed.

Lemma is_gate_bound (h : list Event) (p : ptr) :
  is_gate h p -> p < List.length h.
Proof.
  intros [cs H]. destruct (Nat.lt_ge_cases p (List.length h)) as [Hlt|Hge]; [exact Hlt|].
  rewrite (deref_overflow h p Hge) in H. discriminate.
Qed.

Lemma undefined_heap_unique : unique_gate_ids undefined_heap.
Proof.
  intros p q Hp Hq _.
  pose proof (is_gate_bound _ _ Hp) as Bp. pose proof (is_gate_bound _ _ Hq) as Bq.
  destruct Hp as [cs Hp], Hq as [cs' Hq]. cbn in Bp, Bq.
  destruct p as [|[|[|p]]]; try lia; try discriminate;
  destruct q as [|[|[|q]]]; try lia; try discriminate; reflexivity.
Qed.

(** Scenario 5 of the spec: validation names [X] and the tree. *)
Lemma Validate_undefined_node_witness :
  exists k' c' ft1,
    In (k', c') (gathered_children undefined_heap (fun m => m) undefined_tree) /\
    count (inter_events_ undefined_tree) k' = false /\
    dynamic_cast_PrimaryEvent undefined_heap c' = None /\
    Validate undefined_heap (fun m => m) undefined_tree =
    (Throw (ValidationError
       ("Node with id '" ++ orig_id (deref undefined_heap c') ++
        "' was not defined in '" ++ name_ undefined_tree ++ "' tree")), ft1).
Proof.
  apply (proj1 (Validate_undefined_node undefined_heap (fun m => m)
                  undefined_tree undefined_tree 0 0 "x" 2
                  (fun m x H => H) undefined_heap_unique
                  (fun k v (H : In (k, v) []) => match H with end)
                  eq_refl eq_refl (or_introl eq_refl)
                  (or_intror (or_introl eq_refl)) eq_refl)).
  reflexivity.
Defined.

Example undefined_tree_diagnostic :
  Validate undefined_heap (fun m => m) undefined_tree =
  (Throw (ValidationError "Node with id 'X' was not defined in 'T' tree"),
   mkFaultTree "T" "top" (Some 0) [] [] [("a", 1)] [("a", 1)] []).
Proof. reflexivity. Qed.

(** The traversal of [implicit_tree] registers the gate [g], which was
    not declared, in both indexes. *)
Lemma CheckCyclicity_implicit_gates_witness :
  exists new,
    mkFaultTree "T" "top" (Some 0) [("g", 1)] [("g", 1)] [] [] [] =
    set_inter_events (inter_events_ implicit_tree ++ new)%list
      (set_implicit_gates (implicit_gates_ implicit_tree ++ new)%list
         implicit_tree) /\
    Forall (fun e => reaches implicit_heap 0 (snd e) /\
                     is_gate implicit_heap (snd e) /\
                     fst e = id (deref implicit_heap (snd e)) /\
                     ~ In (fst e) (keys (inter_events_ implicit_tree))) new /\
    NoDup (keys new).
Proof.
  apply (proj1 (CheckCyclicity_implicit_gates implicit_heap
                  (depth_bound implicit_heap) 0 [] [] implicit_tree
                  (mkFaultTree "T" "top" (Some 0) [("g", 1)] [("g", 1)] [] [] [])
                  (Ok tt) (fun x (H : In x []) => match H with end) eq_refl)).
Defined.

Example implicit_tree_validated :
  Validate implicit_heap (fun m => m) implicit_tree =
  (Ok tt, mkFaultTree "T" "top" (Some 0) [("g", 1)] [("g", 1)] [("b", 2)] [("b", 2)] []).
Proof. reflexivity. Qed.

(** A tree to which no gate was added has no top gate to traverse. *)
Example Validate_without_top :
  Validate [] (fun m => m) (FaultTree_new "T") =
  (Throw AssertionFailure, FaultTree_new "T").
Proof. reflexivity. Qed.

(** The theorem at the identity and at the reversal of the insertion
    order. *)
Lemma Validate_order_independence_witness :
  let v1 := Validate two_undefined_heap (fun m => m) two_undefined_tree in
  let v2 := Validate two_undefined_heap (@rev _) two_undefined_tree in
  (forall e fta,
     traverse two_undefined_heap two_undefined_tree = (Throw e, fta) ->
     v1 = (Throw e, fta) /\ v2 = (Throw e, fta)) /\
  (fst v1 = Ok tt <-> fst v2 = Ok tt) /\
  inter_events_ (snd v1) = inter_events_ (snd v2) /\
  implicit_gates_ (snd v1) = implicit_gates_ (snd v2) /\
  (fst v1 = Ok tt ->
   forall k, In k (keys (primary_events_ (snd v1))) <->
             In k (keys (primary_events_ (snd v2)))) /\
  ((forall m : unordered_map, m = rev m) -> v1 = v2).
Proof.
  apply (Validate_order_independence two_undefined_heap (fun m => m) (@rev _)
           (fun m => Permutation_refl m)
           (fun m => Permutation_sym (Permutation_rev m)) two_undefined_tree).
Defined.

(** The diagnostic is not independent of the iteration order of
    [inter_events_]: with [g1] first the undefined node named is [X],
    with [g2] first it is [Y]. *)
Lemma Validate_diagnostic_follows_hash_order :
  fst (Validate two_undefined_heap (fun m => m) two_undefined_tree) =
    Throw (ValidationError "Node with id 'X' was not defined in 'T' tree") /\
  fst (Validate two_undefined_heap (@rev _) two_undefined_tree) =
    Throw (ValidationError "Node with id 'Y' was not defined in 'T' tree").
Proof. split; reflexivity. Qed.

(** Scenario 4 of the spec: the path G1, G2, G1 from the top gate. *)
Lemma Validate_cyclicity_witness :
  exists pre first mid parent rest ft1,
    (pre ++ first :: mid ++ [parent])%list = 0 :: rest /\
    chain cyclic_heap (pre ++ first :: mid ++ [parent])%list /\
    id (deref cyclic_heap first) = id (deref cyclic_heap parent) /\
    NoDup (ids cyclic_heap (pre ++ first :: mid)) /\
    (forall x, In x (ids cyclic_heap (first :: mid ++ [parent])) ->
               count (inter_events_ ft1) x = true) /\
    Validate cyclic_heap (fun m => m) cyclic_tree =
    (Throw (ValidationError
       ("Detected a cyclicity in '" ++ name_ cyclic_tree ++ "' fault tree:" ++ LF ++
        orig_id (deref cyclic_heap parent) ++ "->" ++
        String.concat "->"
          (map (registered_orig_id cyclic_heap ft1)
             (ids cyclic_heap (first :: mid ++ [parent]))))),
     ft1).
Proof.
  apply (Validate_cyclicity cyclic_heap (fun m => m) cyclic_tree 0 [1; 0] eq_refl).
  - cbn. constructor.
    + split; [exists "g2"; cbn; auto|eexists; reflexivity].
    + constructor; [|constructor].
      split; [exists "g1"; cbn; auto|eexists; reflexivity].
  - cbn. intros H. inversion H as [|? ? Hn _]. apply Hn. cbn. auto.
Defined.

(** The text of the diagnostic: the name of the repeated gate, an
    arrow, and the cycle [G1->G2->G1]. *)
Example cyclic_tree_diagnostic :
  Validate cyclic_heap (fun m => m) cyclic_tree =
  (Throw (ValidationError
     ("Detected a cyclicity in 'T' fault tree:" ++ LF ++
      "G1" ++ "->" ++ "G1->G2->G1")),
   mkFaultTree "T" "g1" (Some 0) [("g2", 1); ("g1", 0)] [("g1", 0)] [] [] []).
Proof. vm_compute. reflexivity. Qed.

(** ** The further properties at the sample trees *)

Lemma gate_child_implicit : gate_child implicit_heap 0 1.
Proof. split; [exists "g"; cbn; auto|eexists; reflexivity]. Qed.

(** The path from the top gate of [implicit_tree] to its gate [g]. *)
Lemma Validate_Ok_acyclic_witness : NoDup (ids implicit_heap [0; 1]).
Proof.
  apply (Validate_Ok_acyclic implicit_heap (fun m => m) implicit_tree
           (mkFaultTree "T" "top" (Some 0) [("g", 1)] [("g", 1)] [("b", 2)]
              [("b", 2)] [])
           0 [1] eq_refl eq_refl).
  exact (chain_cons implicit_heap 0 1 [] gate_child_implicit
           (chain_one implicit_heap 1)).
Defined.

(** The diagnostic for the undefined node of [undefined_tree]. *)
Lemma Validate_diagnostics_sound_witness :
  (exists pre first mid parent rest,
     (pre ++ first :: mid ++ [parent])%list = 0 :: rest /\
     chain undefined_heap (pre ++ first :: mid ++ [parent])%list /\
     id (deref undefined_heap first) = id (deref undefined_heap parent) /\
     (forall x, In x (ids undefined_heap (first :: mid ++ [parent])) ->
        count (inter_events_
                 (mkFaultTree "T" "top" (Some 0) [] [] [("a", 1)] [("a", 1)] []))
          x = true) /\
     ValidationError "Node with id 'X' was not defined in 'T' tree" =
     ValidationError
       (cycle_msg undefined_heap
          (mkFaultTree "T" "top" (Some 0) [] [] [("a", 1)] [("a", 1)] [])
          parent (ids undefined_heap (first :: mid ++ [parent])))) \/
  (exists k c,
     In (k, c)
       (gathered_children undefined_heap (fun m => m)
          (mkFaultTree "T" "top" (Some 0) [] [] [("a", 1)] [("a", 1)] [])) /\
     count (inter_events_
              (mkFaultTree "T" "top" (Some 0) [] [] [("a", 1)] [("a", 1)] []))
       k = false /\
     dynamic_cast_PrimaryEvent undefined_heap c = None /\
     ValidationError "Node with id 'X' was not defined in 'T' tree" =
     ValidationError
       ("Node with id '" ++ orig_id (deref undefined_heap c) ++
        "' was not defined in '" ++ name_ undefined_tree ++ "' tree")).
Proof.
  apply (Validate_diagnostics_sound undefined_heap (fun m => m) undefined_tree
           (mkFaultTree "T" "top" (Some 0) [] [] [("a", 1)] [("a", 1)] []) 0
           (ValidationError "Node with id 'X' was not defined in 'T' tree")).
  - reflexivity.
  - reflexivity.
Defined.

Lemma implicit_tree_registered : implicit_registered implicit_tree.
Proof. intros x []. Qed.

(** [Validate] on [implicit_tree], which registers the gate [g]. *)
Lemma Validate_frame_witness :
  let ft' := mkFaultTree "T" "top" (Some 0) [("g", 1)] [("g", 1)] [("b", 2)]
               [("b", 2)] [] in
  name_ ft' = name_ implicit_tree /\
  top_event_id_ ft' = top_event_id_ implicit_tree /\
  top_event_ ft' = top_event_ implicit_tree /\
  (exists new, inter_events_ ft' = (inter_events_ implicit_tree ++ new)%list /\
               implicit_gates_ ft' = (implicit_gates_ implicit_tree ++ new)%list) /\
  forall k,
    (count (basic_events_ implicit_tree) k = true ->
     count (basic_events_ ft') k = true) /\
    (count (house_events_ implicit_tree) k = true ->
     count (house_events_ ft') k = true).
Proof.
  intros ft'.
  apply (Validate_frame implicit_heap (fun m => m) implicit_tree ft' (Ok tt)
           implicit_tree_registered).
  reflexivity.
Defined.

(** The basic event [b] that the validation of [implicit_tree]
    collects. *)
Lemma Validate_primary_indexed_witness :
  let ft1 := mkFaultTree "T" "top" (Some 0) [("g", 1)] [("g", 1)] [("b", 2)]
               [("b", 2)] [] in
  In "b" (keys (basic_events_ ft1)) \/ In "b" (keys (house_events_ ft1)).
Proof.
  intros ft1.
  apply (proj1 (Validate_primary_indexed implicit_heap (fun m => m) implicit_tree
                  ft1 eq_refl) "b").
  cbn. auto.
Defined.

Lemma Validate_primary_events_witness :
  let ft1 := mkFaultTree "T" "top" (Some 0) [("g", 1)] [("g", 1)] [("b", 2)]
               [("b", 2)] [] in
  In "b" (keys (primary_events_ ft1)) <->
  exists c, In ("b", c) (gathered_children implicit_heap (fun m => m) ft1) /\
            count (inter_events_ ft1) "b" = false.
Proof.
  intros ft1.
  apply (proj2 (Validate_primary_events implicit_heap (fun m => m) implicit_tree
                  ft1 eq_refl) "b").
Defined.

Lemma Validate_invariants_witness :
  let ft' := mkFaultTree "T" "top" (Some 0) [("g", 1)] [("g", 1)] [("b", 2)]
               [("b", 2)] [] in
  implicit_registered ft' /\ well_keyed implicit_heap ft'.
Proof.
  intros ft'.
  apply (Validate_invariants implicit_heap (fun m => m) implicit_tree ft' (Ok tt)
           implicit_tree_registered).
  - intros k v [].
  - reflexivity.
Defined.

(** The second gate of [cyclic_tree], added twice. *)
Lemma AddGate_throw_unchanged_witness :
  mkFaultTree "T" "g1" (Some 0) [("g2", 1)] [] [] [] [] =
  mkFaultTree "T" "g1" (Some 0) [("g2", 1)] [] [] [] [] /\
  exists msg,
    ValidationError "Trying to doubly define a gate 'G2'." = ValidationError msg.
Proof.
  apply (AddGate_throw_unchanged cyclic_heap parents_text 1
           (mkFaultTree "T" "g1" (Some 0) [("g2", 1)] [] [] [] [])).
  reflexivity.
Defined.

Lemma AddGate_again_throws_witness :
  AddGate cyclic_heap parents_text 1
    (mkFaultTree "T" "g1" (Some 0) [("g2", 1)] [] [] [] []) =
  (Throw (ValidationError
     ("Trying to doubly define a gate '" ++ orig_id (deref cyclic_heap 1) ++ "'.")),
   mkFaultTree "T" "g1" (Some 0) [("g2", 1)] [] [] [] []).
Proof.
  apply (AddGate_again_throws cyclic_heap parents_text 1 1
           (mkFaultTree "T" "g1" (Some 0) [] [] [] [] [])).
  - cbn. discriminate.
  - reflexivity.
  - reflexivity.
Defined.

(** A gate without an identifier, then the gate [g]. *)
Lemma AddGate_empty_id_forgotten_witness :
  exists ft1,
    AddGate anonymous_heap parents_text 0 (FaultTree_new "T") = (Ok tt, ft1) /\
    top_event_ ft1 = Some 0 /\
    AddGate anonymous_heap parents_text 1 ft1 =
    AddGate anonymous_heap parents_text 1 (FaultTree_new "T").
Proof.
  apply (AddGate_empty_id_forgotten anonymous_heap parents_text 0 1
           (FaultTree_new "T")).
  - reflexivity.
  - reflexivity.
Defined.

Example AddGate_anonymous_top :
  for_each (AddGate anonymous_heap parents_text) [0; 1] (FaultTree_new "T") =
  (Ok tt, mkFaultTree "T" "g" (Some 1) [] [] [] [] []).
Proof. reflexivity. Qed.

(** The gates below the top gate of [two_undefined_tree] are [g1] and
    [g2]. *)
Lemma two_undefined_reaches (p d : ptr) :
  reaches two_undefined_heap p d -> d = 1 \/ d = 2.
Proof.
  induction 1 as [p c [[k Hin] [cs Hg]]|p c d _ _ IH]; [|exact IH].
  destruct p as [|[|[|[|[|p]]]]]; cbn in Hin.
  - destruct Hin as [[= _ <-]|[[= _ <-]|[]]]; auto.
  - destruct Hin as [[= _ <-]|[]]. discriminate.
  - destruct Hin as [[= _ <-]|[]]. discriminate.
  - destruct Hin.
  - destruct Hin.
  - destruct p; destruct Hin.
Qed.

Lemma two_undefined_registered : implicit_registered two_undefined_tree.
Proof. intros x []. Qed.

Lemma Validate_declared_gates_only_witness :
  let ft' := mkFaultTree "T" "top" (Some 0) [("g1", 1); ("g2", 2)] [] [] [] [] in
  inter_events_ ft' = inter_events_ two_undefined_tree /\
  implicit_gates_ ft' = implicit_gates_ two_undefined_tree.
Proof.
  intros ft'.
  apply (Validate_declared_gates_only two_undefined_heap (fun m => m)
           two_undefined_tree ft' 0
           (Throw (ValidationError "Node with id 'X' was not defined in 'T' tree"))
           two_undefined_registered eq_refl).
  - intros d Hd. destruct (two_undefined_reaches 0 d Hd) as [-> | ->]; reflexivity.
  - reflexivity.
Defined.

(** With the gates iterated in the order of their insertion the first
    undefined node is [X], after the two gates of the top gate. *)
Lemma Validate_first_undefined_witness :
  exists ft1,
    Validate two_undefined_heap (fun m => m) two_undefined_tree =
    (Throw (ValidationError
       ("Node with id '" ++ orig_id (deref two_undefined_heap 3) ++
        "' was not defined in '" ++ name_ two_undefined_tree ++ "' tree")), ft1).
Proof.
  apply (Validate_first_undefined two_undefined_heap (fun m => m)
           two_undefined_tree two_undefined_tree [("g1", 1); ("g2", 2)]
           [("y", 4)] "x" 3).
  - reflexivity.
  - reflexivity.
  - intros k' c' [[= <- <-]|[[= <- <-]|[]]]; left; reflexivity.
  - reflexivity.
  - reflexivity.
Defined.

(** In [shared_heap] every gate-typed child has a greater address than
    its parent, so no path meets a gate twice. *)
Lemma shared_gate_child (p c : ptr) : gate_child shared_heap p c -> p < c < 4.
Proof.
  intros [[k Hin] [cs Hg]].
  destruct p as [|[|[|[|[|p]]]]]; cbn in Hin.
  - destruct Hin as [[= _ <-]|[[= _ <-]|[]]]; lia.
  - destruct Hin as [[= _ <-]|[]]. lia.
  - destruct Hin as [[= _ <-]|[]]. lia.
  - destruct Hin as [[= _ <-]|[]]. discriminate.
  - destruct Hin.
  - destruct p; destruct Hin.
Qed.

Lemma shared_chain_above (l : list ptr) :
  forall p, chain shared_heap (p :: l) -> forall x, In x l -> p < x < 4.
Proof.
  induction l as [|c l IH]; intros p Hch x Hx; [destruct Hx|].
  inversion Hch as [|? ? ? Hgc Hrest]; subst.
  pose proof (shared_gate_child _ _ Hgc).
  destruct Hx as [<-|Hx]; [assumption|].
  specialize (IH c Hrest x Hx). lia.
Qed.

Lemma shared_ids_injective (p x : ptr) :
  p < 4 -> x < 4 -> id (deref shared_heap p) = id (deref shared_heap x) -> p = x.
Proof.
  intros Hp Hx.
  destruct p as [|[|[|[|p]]]]; try lia;
    destruct x as [|[|[|[|x]]]]; try lia; cbn; intros H;
    try reflexivity; discriminate.
Qed.

Lemma shared_chain_NoDup (l : list ptr) :
  forall p, p < 4 -> chain shared_heap (p :: l) -> NoDup (ids shared_heap (p :: l)).
Proof.
  induction l as [|c l IH]; intros p Hp Hch.
  - repeat constructor. intros [].
  - pose proof (shared_chain_above _ _ Hch) as Habove.
    inversion Hch as [|? ? ? Hgc Hrest]; subst.
    unfold ids. cbn [map]. constructor.
    + intros Hin. change (In (id (deref shared_heap p)) (ids shared_heap (c :: l))) in Hin.
      unfold ids in Hin. apply in_map_iff in Hin as (x & Hid & Hx).
      specialize (Habove x Hx).
      assert (x = p) by (apply shared_ids_injective; [lia|lia|exact Hid]).
      lia.
    + apply (IH c); [|exact Hrest]. apply (Habove c). now left.
Qed.

(** [shared_tree]: the gate [s] is a child of [g1] and of [g2], and the
    traversal goes through it twice without a diagnostic. *)
Lemma Validate_acyclic_traverses_witness :
  exists fta,
    traverse shared_heap shared_tree = (Ok tt, fta) /\
    Validate shared_heap (fun m => m) shared_tree =
    GatherPrimaryEvents shared_heap (fun m => m) (set_primary_events [] fta).
Proof.
  apply (Validate_acyclic_traverses shared_heap (fun m => m) shared_tree 0 eq_refl).
  intros l Hch. apply shared_chain_NoDup; [lia|exact Hch].
Defined.

Example shared_tree_validated :
  Validate shared_heap (fun m => m) shared_tree =
  (Ok tt, mkFaultTree "T" "top" (Some 0) [("g1", 1); ("g2", 2); ("s", 3)] []
            [("b", 4)] [("b", 4)] []).
Proof. reflexivity. Qed.

End FT.
